(** * JackpotHelper: the claim protocol and the turn state machine

    A shallow embedding of [jackpot_index.js], the helper bot that drains the
    [de_jackpot_sessions] queue, plays the dice run with the player and writes
    the outcome back.

    Definitions
    - [Js]      the JavaScript values and operators the handlers rely on;
    - [Store]   the [de_jackpot_sessions] table and the three SQL statements;
    - [Claim]   one claim attempt, await by await, and the system of
                interleaved attempts of several helper instances over a
                store with row locks;
    - [Runtime] the in-memory state of one helper instance, its handlers
                split at their awaits, and its event loop;
    - [Html]    the two text helpers, [escapeHTML] and [formatDiceRollsHTML];
    - [Config]  the integer settings read from the environment, and a tick
                of the poll under the limit as configured;
    - the invariants of both systems, and sample sessions.

    Proofs
    - the claim protocol keeps [consistent], hence claims are exclusive;
    - the event loop keeps [sound]: one timer for each live session, finalize
      calls carry the initial rolls followed by the run rolls;
    - what the handlers do on a bust, on finalize, on the finalizing write,
      and where the code departs from what is expected of it;
    - beyond that: the text helpers and the configuration, the SELECT and
      the two UPDATEs, one attempt on its own and its row locks, the limit
      on live sessions, shutdown, what every session object holds, and what
      a roll, a timer, a failed delivery and a tick of the poll do.

    Numbers are JavaScript numbers restricted to integers, modelled by [Z]
    (exact below 2^53, the range of dice values and scores).  A handler is
    one turn of the event loop up to its first await; what follows an await
    is a turn of its own.  A tick of the claim loop is taken as one turn: the
    helper's own state is only read before the first and written after the
    last await of an attempt. *)

From Stdlib Require Import ZArith List String Ascii Bool Lia DecimalString.
From Stdlib Require DecimalPos.
Import ListNotations.

Local Open Scope string_scope.
Local Open Scope list_scope.
Local Open Scope Z_scope.

(* ================================================================= *)
(** ** JavaScript values *)

Module Js.

(** What node-postgres hands back for a scalar column: a number (int4), a
    string (int8, numeric, text) or null; [NaN] appears through [parseInt]
    and through arithmetic. *)
Inductive jsval : Type :=
| JNum (n : Z)
| JNaN
| JStr (s : string)
| JNull.

(** Decimal text of an integer, as [String(n)] and template literals give. *)
Definition dec (n : Z) : string := NilZero.string_of_int (Z.to_int n).

(** [String(v)] *)
Definition js_String (v : jsval) : string :=
  match v with
  | JNum n => dec n
  | JNaN => "NaN"
  | JStr s => s
  | JNull => "null"
  end.

(** [ToNumber] on strings, for the texts integers are written in: an
    optional sign and decimal digits; the empty string is 0; anything else is
    NaN ([None]). *)
Definition js_StringToNumber (s : string) : option Z :=
  match s with
  | EmptyString => Some 0
  | String "+"%char rest =>
      match rest with
      | EmptyString => None
      | _ => option_map Z.of_uint (NilEmpty.uint_of_string rest)
      end
  | _ => option_map Z.of_int (NilZero.int_of_string s)
  end.

(** [ToNumber(v)], [None] standing for NaN. *)
Definition js_ToNumber (v : jsval) : option Z :=
  match v with
  | JNum n => Some n
  | JNaN => None
  | JStr s => js_StringToNumber s
  | JNull => Some 0
  end.

Definition of_number (o : option Z) : jsval :=
  match o with Some n => JNum n | None => JNaN end.

(** [a + b]: concatenation as soon as one operand is a string, numeric
    addition otherwise. *)
Definition js_add (a b : jsval) : jsval :=
  match a, b with
  | JStr s, _ => JStr (s ++ js_String b)%string
  | _, JStr s => JStr (js_String a ++ s)%string
  | _, _ =>
      match js_ToNumber a, js_ToNumber b with
      | Some x, Some y => JNum (x + y)
      | _, _ => JNaN
      end
  end.

(** [a === b] *)
Definition js_strict_eq (a b : jsval) : bool :=
  match a, b with
  | JNum x, JNum y => Z.eqb x y
  | JStr s, JStr t => String.eqb s t
  | JNull, JNull => true
  | _, _ => false
  end.

(** [a >= b]: two strings compare by code units, anything else as numbers;
    a NaN on either side makes it false. *)
Definition js_ge (a b : jsval) : bool :=
  match a, b with
  | JStr s, JStr t => negb (String.ltb s t)
  | _, _ =>
      match js_ToNumber a, js_ToNumber b with
      | Some x, Some y => Z.leb y x
      | _, _ => false
      end
  end.

Definition is_digit (c : ascii) : bool :=
  let n := nat_of_ascii c in Nat.leb 48 n && Nat.leb n 57.

Definition is_space (c : ascii) : bool :=
  let n := nat_of_ascii c in
  Nat.eqb n 32 || (Nat.leb 9 n && Nat.leb n 13).

Fixpoint skip_spaces (s : string) : string :=
  match s with
  | String c r => if is_space c then skip_spaces r else s
  | EmptyString => EmptyString
  end.

Fixpoint take_digits (s : string) : string :=
  match s with
  | String c r => if is_digit c then String c (take_digits r) else EmptyString
  | EmptyString => EmptyString
  end.

Definition digits_value (s : string) : option Z :=
  match take_digits s with
  | EmptyString => None
  | d => option_map Z.of_uint (NilEmpty.uint_of_string d)
  end.

(** [parseInt(v, 10)]: leading blanks, an optional sign, then the longest
    run of digits; NaN when there is none.  The digits are read exactly,
    which is what the source does up to 2^53 in magnitude (beyond, it
    rounds to the nearest double); the blanks skipped are the ASCII ones.
    Statements about the value read keep to that range. *)
Definition js_parseInt (v : jsval) : jsval :=
  match skip_spaces (js_String v) with
  | String "-"%char r => of_number (option_map Z.opp (digits_value r))
  | String "+"%char r => of_number (digits_value r)
  | s => of_number (digits_value s)
  end.

(** [BigInt(v)]: throws on null, on NaN and on a string that is not an
    integer literal ([None]). *)
Definition js_BigInt (v : jsval) : option Z :=
  match v with
  | JNum n => Some n
  | JNaN => None
  | JStr s => js_StringToNumber s
  | JNull => None
  end.

(** Truthiness of a number used as a condition: [!n] holds for 0. *)
Definition falsy_number (n : Z) : bool := Z.eqb n 0.

Inductive error_kind : Type :=
| ReferenceError | TypeError | SyntaxError | RangeError | StoreFailure.

(** A thrown [Error] and its [message]. *)
Record js_error : Type := mkError {
  err_kind : error_kind;
  err_message : string }.

Definition not_defined (ident : string) : js_error :=
  mkError ReferenceError (ident ++ " is not defined")%string.

End Js.
Import Js.

(* ================================================================= *)
(** ** The [de_jackpot_sessions] table *)

Module Store.

(** A JSON text column holding a roll history.  The text of an array of
    integers is identified with the array it denotes; [JsonNull] is SQL NULL
    (or the empty text), which [|| '[]'] turns into the empty array;
    [JsonMalformed] is any text [JSON.parse] rejects. *)
Inductive json_column : Type :=
| JsonNull
| JsonRolls (l : list Z)
| JsonMalformed.

(** One row, as [SELECT *] and [RETURNING *] deliver it. *)
Record row : Type := mkRow {
  session_id : Z;
  status : string;
  helper_bot_id : option string;
  user_id : jsval;
  chat_id : jsval;
  initial_score : jsval;
  initial_rolls_json : json_column;
  target_jackpot_score : jsval;
  bust_on_value : jsval;
  jackpot_pool_at_session_start : jsval;
  final_score : jsval;
  final_rolls_json : json_column;
  outcome_notes : option string;
  created_at : Z;
  updated_at : Z }.

Definition table : Type := list row.

Definition pending_pickup : string := "pending_pickup".
Definition active_by_helper : string := "active_by_helper".

(** The statuses the helper finalizes a session with. *)
Definition completed_bust : string := "completed_bust".
Definition completed_target_reached : string := "completed_target_reached".
Definition completed_timeout_forfeit : string := "completed_timeout_forfeit".
Definition error_helper_init_prompt : string := "error_helper_init_prompt".
Definition error_sending_message : string := "error_sending_message".

Definition final_statuses : list string :=
  [completed_bust; completed_target_reached; completed_timeout_forfeit;
   error_helper_init_prompt; error_sending_message].

Definition is_final_status (s : string) : bool :=
  existsb (String.eqb s) final_statuses.

Definition is_pending (r : row) : bool := String.eqb (status r) pending_pickup.
Definition is_active (r : row) : bool := String.eqb (status r) active_by_helper.

(** [ORDER BY created_at ASC], a stable insertion sort. *)
Fixpoint insert_by_created (r : row) (l : list row) : list row :=
  match l with
  | [] => [r]
  | x :: l' =>
      if Z.leb (created_at r) (created_at x) then r :: l
      else x :: insert_by_created r l'
  end.

Fixpoint order_by_created (l : list row) : list row :=
  match l with
  | [] => []
  | r :: l' => insert_by_created r (order_by_created l')
  end.

(** [SELECT * FROM de_jackpot_sessions WHERE status = 'pending_pickup'
     ORDER BY created_at ASC LIMIT 1 FOR UPDATE SKIP LOCKED];
    [locked] tells the rows other transactions hold a lock on. *)
Definition select_pending (locked : Z -> bool) (t : table) : list row :=
  firstn 1
    (order_by_created
       (filter (fun r => is_pending r && negb (locked (session_id r))) t)).

(** [WHERE session_id = $3 AND status = 'pending_pickup'] *)
Definition claim_where (sid : Z) (r : row) : bool :=
  Z.eqb (session_id r) sid && is_pending r.

(** [SET status = 'active_by_helper', helper_bot_id = $2, updated_at = NOW()] *)
Definition claim_set (botUsername : string) (now : Z) (r : row) : row :=
  mkRow (session_id r) active_by_helper (Some botUsername)
        (user_id r) (chat_id r) (initial_score r) (initial_rolls_json r)
        (target_jackpot_score r) (bust_on_value r)
        (jackpot_pool_at_session_start r)
        (final_score r) (final_rolls_json r) (outcome_notes r)
        (created_at r) now.

(** The claiming [UPDATE ... RETURNING *]: the new table and the returned
    rows, whose number is [rowCount]. *)
Definition update_claim (botUsername : string) (sid now : Z) (t : table)
  : table * list row :=
  (map (fun r => if claim_where sid r then claim_set botUsername now r else r) t,
   map (claim_set botUsername now) (filter (claim_where sid) t)).

(** [helper_bot_id = $6], false on NULL. *)
Definition owned_by (botUsername : string) (r : row) : bool :=
  match helper_bot_id r with
  | Some h => String.eqb h botUsername
  | None => false
  end.

(** [WHERE session_id = $5 AND (status = 'active_by_helper' OR helper_bot_id = $6)] *)
Definition finalize_where (sid : Z) (botUsername : string) (r : row) : bool :=
  Z.eqb (session_id r) sid && (is_active r || owned_by botUsername r).

(** [SET status = $1, final_score = $2, final_rolls_json = $3,
     outcome_notes = $4, updated_at = NOW()] *)
Definition finalize_set (finalStatus : string) (finalScore : jsval)
    (finalRolls : list Z) (notes : string) (now : Z) (r : row) : row :=
  mkRow (session_id r) finalStatus (helper_bot_id r)
        (user_id r) (chat_id r) (initial_score r) (initial_rolls_json r)
        (target_jackpot_score r) (bust_on_value r)
        (jackpot_pool_at_session_start r)
        finalScore (JsonRolls finalRolls) (Some notes)
        (created_at r) now.

(** The finalizing [UPDATE]: the new table and [rowCount]. *)
Definition update_finalize (finalStatus : string) (finalScore : jsval)
    (finalRolls : list Z) (notes : string) (sid : Z) (botUsername : string)
    (now : Z) (t : table) : table * nat :=
  (map (fun r => if finalize_where sid botUsername r
                 then finalize_set finalStatus finalScore finalRolls notes now r
                 else r) t,
   List.length (filter (finalize_where sid botUsername) t)).

(** The rows of a session. *)
Definition rows_of (sid : Z) (t : table) : list row :=
  filter (fun r => Z.eqb (session_id r) sid) t.

(** [session_id] is the key of the table. *)
Definition keyed (t : table) : Prop := NoDup (map session_id t).

(** A session that has left the queue: it has a row and no row of it is
    [pending_pickup]. *)
Definition settled (t : table) (sid : Z) : Prop :=
  In sid (map session_id t) /\
  forall r, In r t -> session_id r = sid -> is_pending r = false.

End Store.
Import Store.

(* ================================================================= *)
(** ** One claim attempt, and attempts of several helpers interleaved *)

Module Claim.

(** The table together with the row locks open transactions hold
    (session id, transaction). *)
Record store : Type := mkStore {
  rows : table;
  locks : list (Z * nat) }.

Definition locked_by_other (me : nat) (st : store) (sid : Z) : bool :=
  existsb (fun l => Z.eqb (fst l) sid && negb (Nat.eqb (snd l) me)) (locks st).

Definition is_locked (st : store) (sid : Z) : bool :=
  existsb (fun l => Z.eqb (fst l) sid) (locks st).

(** End of a transaction, by COMMIT or by ROLLBACK: its locks go. *)
Definition release (me : nat) (st : store) : store :=
  mkStore (rows st) (filter (fun l => negb (Nat.eqb (snd l) me)) (locks st)).

(** How the body of the [for] loop leaves its [try] statement. *)
Inductive outcome : Type :=
| Claimed (claimedSessionData : row)
| NoPending            (* [selectRes.rows.length === 0], then [break] *)
| LostRace             (* [updateRes.rowCount] was 0 *)
| Failed (dbError : js_error).

(** Where an attempt stands: the [await] it is suspended at. *)
Inductive pc : Type :=
| AtConnect
| AtBegin
| AtSelect
| AtCommitEmpty
| AtUpdate (sessionToClaim : row)
| AtCommit (sid now : Z) (returned : list row)
| AtRollback
| AtCatch (dbError : js_error)
| Finished (o : outcome).

(** One awaited call of the attempt of transaction [me].  [fault] is the
    rejection of that call, if the store makes it fail.  The write of the
    UPDATE becomes visible to others at COMMIT. *)
Definition attempt_step (me : nat) (botUsername : string) (now : Z)
    (fault : option js_error) (st : store) (p : pc) : store * pc :=
  match p with
  | AtConnect =>
      match fault with
      | Some e => (st, Finished (Failed e))
      | None => (st, AtBegin)
      end
  | AtBegin =>
      match fault with
      | Some e => (st, AtCatch e)
      | None => (st, AtSelect)
      end
  | AtSelect =>
      match fault with
      | Some e => (st, AtCatch e)
      | None =>
          match select_pending (locked_by_other me st) (rows st) with
          | [] => (st, AtCommitEmpty)
          | r :: _ =>
              (mkStore (rows st) ((session_id r, me) :: locks st), AtUpdate r)
          end
      end
  | AtCommitEmpty =>
      match fault with
      | Some e => (st, AtCatch e)
      | None => (release me st, Finished NoPending)
      end
  | AtUpdate r =>
      match fault with
      | Some e => (st, AtCatch e)
      | None =>
          let returned :=
            snd (update_claim botUsername (session_id r) now (rows st)) in
          if Nat.ltb 0 (List.length returned)
          then (st, AtCommit (session_id r) now returned)
          else (st, AtRollback)
      end
  | AtCommit sid at_update returned =>
      match fault with
      | Some e => (st, AtCatch e)
      | None =>
          (release me
             (mkStore (fst (update_claim botUsername sid at_update (rows st)))
                      (locks st)),
           Finished (match returned with
                     | r :: _ => Claimed r
                     | [] => LostRace
                     end))
      end
  | AtRollback =>
      match fault with
      | Some e => (st, AtCatch e)
      | None => (release me st, Finished LostRace)
      end
  | AtCatch e =>
      (* ROLLBACK in the catch block; its own failure is only logged *)
      (release me st, Finished (Failed e))
  | Finished o => (st, p)
  end.

(** An attempt in flight and the helper running it. *)
Record attempt : Type := mkAttempt {
  who : string;
  at_pc : pc }.

Record system : Type := mkSystem {
  sys_store : store;
  attempts : list attempt }.

Fixpoint list_set {A : Type} (i : nat) (x : A) (l : list A) : list A :=
  match l, i with
  | [], _ => []
  | _ :: l', O => x :: l'
  | y :: l', S i' => y :: list_set i' x l'
  end.

(** What can happen to the shared table. *)
Inductive action : Type :=
| Spawn (botUsername : string)
| Advance (i : nat) (now : Z) (fault : option js_error)
| FinalizeBy (botUsername finalStatus : string) (finalScore : jsval)
             (finalRolls : list Z) (notes : string) (sid now : Z)
| Enqueue (r : row).

(** One action; [None] when the action cannot take place now: a finalizing
    UPDATE waits for a locked row, a new row needs a fresh key, and only
    the helper's final statuses are ever written. *)
Definition act (a : action) (s : system) : option system :=
  match a with
  | Spawn u =>
      Some (mkSystem (sys_store s) (attempts s ++ [mkAttempt u AtConnect]))
  | Advance i now fault =>
      match nth_error (attempts s) i with
      | None => None
      | Some a =>
          let (st', p') :=
            attempt_step i (who a) now fault (sys_store s) (at_pc a) in
          Some (mkSystem st' (list_set i (mkAttempt (who a) p') (attempts s)))
      end
  | FinalizeBy u finalStatus score rolls notes sid now =>
      if is_final_status finalStatus && negb (is_locked (sys_store s) sid)
      then Some (mkSystem
                   (mkStore (fst (update_finalize finalStatus score rolls notes
                                    sid u now (rows (sys_store s))))
                            (locks (sys_store s)))
                   (attempts s))
      else None
  | Enqueue r =>
      if existsb (Z.eqb (session_id r)) (map session_id (rows (sys_store s)))
      then None
      else Some (mkSystem (mkStore (rows (sys_store s) ++ [r])
                                   (locks (sys_store s)))
                          (attempts s))
  end.

Fixpoint run (schedule : list action) (s : system) : option system :=
  match schedule with
  | [] => Some s
  | a :: rest =>
      match act a s with
      | Some s' => run rest s'
      | None => None
      end
  end.

(** No transaction is open at the start. *)
Definition init (t : table) : system := mkSystem (mkStore t []) [].

(** The session an attempt came back with. *)
Definition claimed_session (a : attempt) : option Z :=
  match at_pc a with
  | Finished (Claimed r) => Some (session_id r)
  | _ => None
  end.

(** The same attempt run without anybody interleaving: the six awaits in
    a row, [faults k] being the fate of the k-th one and [locked] the rows
    other transactions hold meanwhile. *)
Fixpoint steps (botUsername : string) (now : Z) (faults : nat -> option js_error)
    (k n : nat) (c : store * pc) : store * pc :=
  match n with
  | O => c
  | S n' =>
      steps botUsername now faults (S k) n'
            (attempt_step 0 botUsername now (faults k) (fst c) (snd c))
  end.

Record attempt_env : Type := mkEnv {
  ae_now : Z;
  ae_locked : list Z;
  ae_faults : nat -> option js_error }.

Definition claim_attempt (env : attempt_env) (botUsername : string) (t : table)
  : table * outcome :=
  let c := steps botUsername (ae_now env) (ae_faults env) 0 6
                 (mkStore t (map (fun sid => (sid, 1%nat)) (ae_locked env)),
                  AtConnect) in
  (rows (fst c),
   match snd c with
   | Finished o => o
   | _ => Failed (mkError StoreFailure "attempt still running")
   end).

End Claim.
Import Claim.

(* ================================================================= *)
(** ** The state of one helper instance and its handlers *)

Module Runtime.

(** The value kept in [activeHelperSessions]: the claimed row spread out,
    plus the fields of the run. *)
Record sessionData : Type := mkSession {
  sd_row : row;
  jackpot_run_rolls : list Z;
  jackpot_run_score : Z;
  current_total_score : jsval;
  turnTimeoutId : option nat;
  initial_rolls_parsed : list Z }.

(** A Telegram update, as far as the handler looks at it. *)
Record sender : Type := mkSender {
  from_id : Z;
  is_bot : bool }.

Record message : Type := mkMessage {
  msg_dice : option Z;
  msg_from : option sender;
  msg_chat_id : Z;
  message_id : Z }.

(** A rejected [bot.sendMessage]: its message and, when Telegram answered,
    [err.response.body.error_code]. *)
Record send_error : Type := mkSendError {
  se_message : string;
  se_code : option Z }.

(** The run update shown to the player, by content. *)
Record prompt : Type := mkPrompt {
  pr_initial_score : jsval;
  pr_run_rolls : list Z;
  pr_total : jsval;
  pr_target : jsval;
  pr_bust : jsval;
  pr_pool_sol : Z;
  pr_last_roll : option Z;
  pr_closing : option string   (* [None]: "Send a dice to roll again" *) }.

(** Calls made on the Telegram transport. *)
Inductive effect : Type :=
| SendPrompt (chat : jsval) (p : prompt)
| SendConcluded (chat : jsval) (sid : Z) (finalScore : jsval) (outcome : string)
| DeleteMessage (chat : string) (mid : Z).

(** The [catch] callback of a prompt not yet delivered; it closes over
    [sessionId] and the [sessionData] object. *)
Record send_closure : Type := mkSend {
  sc_sessionId : Z;
  sc_sessionData : nat }.

(** A call of [finalizeJackpotSession] suspended before its UPDATE, with
    the locals it goes on with. *)
Record finalize_call : Type := mkFinalize {
  fc_sessionId : Z;
  fc_finalStatus : string;
  fc_finalOverallScore : jsval;
  fc_finalRollsCombined : list Z;
  fc_outcomeNotesStr : string;
  fc_sessionData : option nat }.

(** One helper instance.  Session objects live in [heap] and are referred
    to by index from the map, from closures and from suspended calls;
    [activeHelperSessions] is the Map, in insertion order. *)
Record worker : Type := mkWorker {
  botUsername : string;
  isShuttingDownHelper : bool;
  heap : list sessionData;
  activeHelperSessions : list (Z * nat);
  timers : list (nat * Z);
  next_timer : nat;
  sends : list send_closure;
  finalizing : list finalize_call;
  effects : list effect }.

Definition state : Type := (table * worker)%type.

Definition fresh_worker (name : string) : worker :=
  mkWorker name false [] [] [] 0%nat [] [] [].

Definition with_heap (h : list sessionData) (w : worker) : worker :=
  mkWorker (botUsername w) (isShuttingDownHelper w) h (activeHelperSessions w)
           (timers w) (next_timer w) (sends w) (finalizing w) (effects w).

Definition with_sessions (m : list (Z * nat)) (w : worker) : worker :=
  mkWorker (botUsername w) (isShuttingDownHelper w) (heap w) m
           (timers w) (next_timer w) (sends w) (finalizing w) (effects w).

Definition with_timers (t : list (nat * Z)) (n : nat) (w : worker) : worker :=
  mkWorker (botUsername w) (isShuttingDownHelper w) (heap w)
           (activeHelperSessions w) t n (sends w) (finalizing w) (effects w).

Definition with_sends (l : list send_closure) (w : worker) : worker :=
  mkWorker (botUsername w) (isShuttingDownHelper w) (heap w)
           (activeHelperSessions w) (timers w) (next_timer w) l
           (finalizing w) (effects w).

Definition with_finalizing (l : list finalize_call) (w : worker) : worker :=
  mkWorker (botUsername w) (isShuttingDownHelper w) (heap w)
           (activeHelperSessions w) (timers w) (next_timer w) (sends w) l
           (effects w).

Definition emit (e : effect) (w : worker) : worker :=
  mkWorker (botUsername w) (isShuttingDownHelper w) (heap w)
           (activeHelperSessions w) (timers w) (next_timer w) (sends w)
           (finalizing w) (effects w ++ [e]).

(** *** The Map *)

Fixpoint map_get (k : Z) (m : list (Z * nat)) : option nat :=
  match m with
  | [] => None
  | (k', v) :: m' => if Z.eqb k' k then Some v else map_get k m'
  end.

Fixpoint map_set (k : Z) (v : nat) (m : list (Z * nat)) : list (Z * nat) :=
  match m with
  | [] => [(k, v)]
  | (k', v') :: m' =>
      if Z.eqb k' k then (k, v) :: m' else (k', v') :: map_set k v m'
  end.

Definition map_delete (k : Z) (m : list (Z * nat)) : list (Z * nat) :=
  filter (fun e => negb (Z.eqb (fst e) k)) m.

(** [activeHelperSessions.get(sessionId)]: the object and where it lives. *)
Definition get_session (sessionId : Z) (w : worker) : option (nat * sessionData) :=
  match map_get sessionId (activeHelperSessions w) with
  | None => None
  | Some ref =>
      match nth_error (heap w) ref with
      | Some sd => Some (ref, sd)
      | None => None
      end
  end.

Definition set_object (ref : nat) (sd : sessionData) (w : worker) : worker :=
  with_heap (list_set ref sd (heap w)) w.

(** *** Timers *)

Definition clearTimeout (id : nat) (w : worker) : worker :=
  with_timers (filter (fun t => negb (Nat.eqb (fst t) id)) (timers w))
              (next_timer w) w.

(** [setTimeout(() => handleJackpotRunTurnTimeout(sessionId), ...)] *)
Definition setTimeout (sessionId : Z) (w : worker) : nat * worker :=
  (next_timer w,
   with_timers (timers w ++ [(next_timer w, sessionId)]) (S (next_timer w)) w).

Definition timers_of (sessionId : Z) (w : worker) : list (nat * Z) :=
  filter (fun t => Z.eqb (snd t) sessionId) (timers w).

(** *** finalizeJackpotSession *)

Definition parse_rolls (c : json_column) : js_error + list Z :=
  match c with
  | JsonNull => inr []
  | JsonRolls l => inr l
  | JsonMalformed => inl (mkError SyntaxError "Unexpected token in JSON")
  end.

(** The part of [finalizeJackpotSession] that runs before its first
    [await]: look the session up, clear its timer, delete it from the map,
    build the combined rolls; the UPDATE is left suspended. *)
Definition finalizeJackpotSession (sessionId : Z) (finalStatus : string)
    (finalOverallScore : jsval) (jackpotRunRollsArray : list Z)
    (outcomeNotesStr : string) (w : worker) : worker * option js_error :=
  let sessionData := get_session sessionId w in
  let w1 :=
    match sessionData with
    | Some (_, sd) =>
        match turnTimeoutId sd with
        | Some id => clearTimeout id w
        | None => w
        end
    | None => w
    end in
  let w2 := with_sessions (map_delete sessionId (activeHelperSessions w1)) w1 in
  let initial_rolls_json :=
    match sessionData with
    | Some (_, sd) => initial_rolls_json (sd_row sd)
    | None => JsonNull
    end in
  match parse_rolls initial_rolls_json with
  | inl e => (w2, Some e)
  | inr initialRolls =>
      let finalRollsCombined := initialRolls ++ jackpotRunRollsArray in
      (with_finalizing
         (finalizing w2 ++
            [mkFinalize sessionId finalStatus finalOverallScore
                        finalRollsCombined outcomeNotesStr
                        (option_map fst sessionData)])
         w2,
       None)
  end.

Fixpoint remove_nth {A : Type} (k : nat) (l : list A) : list A :=
  match l, k with
  | [], _ => []
  | _ :: l', O => l'
  | x :: l', S k' => x :: remove_nth k' l'
  end.

(** The rest of the [k]-th suspended call: the UPDATE, then the message to
    the player when a row was written and the session was known. *)
Definition finalize_write (k : nat) (fault : option js_error) (now : Z)
    (s : state) : state :=
  let (db, w) := s in
  match nth_error (finalizing w) k with
  | None => s
  | Some fc =>
      let w1 := with_finalizing (remove_nth k (finalizing w)) w in
      match fault with
      | Some _ => (db, w1)
      | None =>
          let (db', rowCount) :=
            update_finalize (fc_finalStatus fc) (fc_finalOverallScore fc)
                            (fc_finalRollsCombined fc) (fc_outcomeNotesStr fc)
                            (fc_sessionId fc) (botUsername w) now db in
          if Nat.ltb 0 rowCount then
            match fc_sessionData fc with
            | Some ref =>
                match nth_error (heap w) ref with
                | Some sd =>
                    (db', emit (SendConcluded (chat_id (sd_row sd))
                                              (fc_sessionId fc)
                                              (fc_finalOverallScore fc)
                                              (fc_outcomeNotesStr fc)) w1)
                | None => (db', w1)
                end
            | None => (db', w1)
            end
          else (db', w1)
      end
  end.

(** *** sendJackpotRunUpdate *)

Definition bigint_error (v : jsval) : js_error :=
  match v with
  | JNull => mkError TypeError "Cannot convert null to a BigInt"
  | JStr s => mkError SyntaxError ("Cannot convert " ++ s ++ " to a BigInt")%string
  | _ => mkError RangeError
           "The number NaN cannot be converted to a BigInt because it is not an integer"
  end.

Definition sendJackpotRunUpdate (sessionId : Z) (lastRollValue : option Z)
    (w : worker) : worker * option js_error :=
  match get_session sessionId w with
  | None => (w, None)
  | Some (ref, sessionData) =>
      let w1 :=
        match turnTimeoutId sessionData with
        | Some id =>
            set_object ref
              (mkSession (sd_row sessionData) (jackpot_run_rolls sessionData)
                         (jackpot_run_score sessionData)
                         (current_total_score sessionData) None
                         (initial_rolls_parsed sessionData))
              (clearTimeout id w)
        | None => w
        end in
      let r := sd_row sessionData in
      match js_BigInt (jackpot_pool_at_session_start r) with
      | None => (w1, Some (bigint_error (jackpot_pool_at_session_start r)))
      | Some lamports =>
          let text (closing : option string) :=
            mkPrompt (initial_score r) (jackpot_run_rolls sessionData)
                     (current_total_score sessionData)
                     (target_jackpot_score r) (bust_on_value r)
                     (Z.quot lamports (10 ^ 9)) lastRollValue closing in
          let '(msg, w2) :=
            if is_active r then
              let (id, w') := setTimeout sessionId w1 in
              (text None,
               set_object ref
                 (mkSession r (jackpot_run_rolls sessionData)
                            (jackpot_run_score sessionData)
                            (current_total_score sessionData) (Some id)
                            (initial_rolls_parsed sessionData))
                 w')
            else
              (text (Some match outcome_notes r with
                          | Some n => if String.eqb n "" then "Jackpot run segment ended." else n
                          | None => "Jackpot run segment ended."
                          end),
               w1) in
          let w3 := emit (SendPrompt (chat_id r) msg) w2 in
          let w4 := with_sends (sends w3 ++ [mkSend sessionId ref]) w3 in
          (with_sessions (map_set sessionId ref (activeHelperSessions w4)) w4,
           None)
      end
  end.

(** *** The dice handler *)

(** The scan of [activeHelperSessions.entries()]: the first entry of this
    player in this chat whose status is [active_by_helper]. *)
Definition find_session (userId chatId : string) (w : worker)
  : option (Z * nat * sessionData) :=
  let matches (e : Z * nat) :=
    match nth_error (heap w) (snd e) with
    | Some sData =>
        String.eqb (js_String (user_id (sd_row sData))) userId
        && String.eqb (js_String (chat_id (sd_row sData))) chatId
        && is_active (sd_row sData)
    | None => false
    end in
  match find matches (activeHelperSessions w) with
  | Some (sId, ref) =>
      match nth_error (heap w) ref with
      | Some sData => Some (sId, ref, sData)
      | None => None
      end
  | None => None
  end.

(** The session a message is routed to, if any (lines 220 to 237). *)
Definition route (msg : message) (w : worker) : option (Z * nat * sessionData) :=
  if isShuttingDownHelper w then None
  else
    match msg_dice msg, msg_from msg with
    | Some _, Some from =>
        if is_bot from then None
        else
          match find_session (dec (from_id from)) (dec (msg_chat_id msg)) w with
          | Some (activeSessionId, ref, sData) =>
              if falsy_number activeSessionId then None
              else Some (activeSessionId, ref, sData)
          | None => None
          end
    | _, _ => None
    end.

(** The record after the roll is taken in (lines 243 to 250). *)
Definition add_roll (diceValue : Z) (sd : sessionData) : sessionData :=
  let score := jackpot_run_score sd + diceValue in
  mkSession (sd_row sd) (jackpot_run_rolls sd ++ [diceValue]) score
            (js_add (initial_score (sd_row sd)) (JNum score))
            None (initial_rolls_parsed sd).

Definition bust_notes (diceValue : Z) : string :=
  ("Busted on a " ++ dec diceValue ++ " during jackpot run!")%string.

Definition target_notes (target total : jsval) : string :=
  ("Target " ++ js_String target ++ "+ reached with score "
             ++ js_String total ++ "!")%string.

(** The helper's state once the roll is taken in: the player's message is
    deleted, the timer disarmed, the record updated (lines 241 to 250). *)
Definition take_in (msg : message) (ref : nat) (sData : sessionData)
    (diceValue : Z) (w : worker) : worker :=
  let w1 := emit (DeleteMessage (dec (msg_chat_id msg)) (message_id msg)) w in
  let w2 :=
    match turnTimeoutId sData with
    | Some id => clearTimeout id w1
    | None => w1
    end in
  set_object ref (add_roll diceValue sData) w2.

(** [bot.on('message', ...)] *)
Definition on_message (msg : message) (w : worker) : worker * option js_error :=
  match route msg w, msg_dice msg with
  | Some (activeSessionId, ref, sData), Some diceValue =>
      let sData' := add_roll diceValue sData in
      let w3 := take_in msg ref sData diceValue w in
      if js_strict_eq (JNum diceValue) (bust_on_value (sd_row sData')) then
        finalizeJackpotSession activeSessionId completed_bust
          (current_total_score sData') (jackpot_run_rolls sData')
          (bust_notes diceValue) w3
      else if js_ge (current_total_score sData')
                    (target_jackpot_score (sd_row sData')) then
        finalizeJackpotSession activeSessionId completed_target_reached
          (current_total_score sData') (jackpot_run_rolls sData')
          (target_notes (target_jackpot_score (sd_row sData'))
                        (current_total_score sData')) w3
      else
        sendJackpotRunUpdate activeSessionId (Some diceValue)
          (with_sessions (map_set activeSessionId ref (activeHelperSessions w3)) w3)
  | _, _ => (w, None)
  end.

(** *** The turn timeout *)

Definition handleJackpotRunTurnTimeout (sessionId : Z) (w : worker)
  : worker * option js_error :=
  match get_session sessionId w with
  | None => (w, None)
  | Some (_, sessionData) =>
      if negb (is_active (sd_row sessionData)) then (w, None)
      else
        finalizeJackpotSession sessionId completed_timeout_forfeit
          (current_total_score sessionData) (jackpot_run_rolls sessionData)
          "Turn timed out during jackpot run." w
  end.

(** The timer [id] goes off, if it is still armed. *)
Definition on_timeout (id : nat) (w : worker) : worker * option js_error :=
  match find (fun t => Nat.eqb (fst t) id) (timers w) with
  | None => (w, None)
  | Some (_, sessionId) =>
      handleJackpotRunTurnTimeout sessionId
        (with_timers (filter (fun t => negb (Nat.eqb (fst t) id)) (timers w))
                     (next_timer w) w)
  end.

(** *** The outcome of a prompt's delivery *)

Definition delivery_notes (err : send_error) : string :=
  ("Helper failed to send message to chat: "
     ++ substring 0 100 (se_message err))%string.

Definition fatal_delivery (err : send_error) : bool :=
  match se_code err with
  | Some c => Z.eqb c 403 || Z.eqb c 400
  | None => false
  end.

(** The promise of the [k]-th prompt in flight settles. *)
Definition on_delivery (k : nat) (result : option send_error) (w : worker)
  : worker * option js_error :=
  match nth_error (sends w) k with
  | None => (w, None)
  | Some c =>
      let w1 := with_sends (remove_nth k (sends w)) w in
      match result with
      | None => (w1, None)
      | Some err =>
          if fatal_delivery err then
            match nth_error (heap w1) (sc_sessionData c) with
            | Some sessionData =>
                finalizeJackpotSession (sc_sessionId c) error_sending_message
                  (current_total_score sessionData)
                  (jackpot_run_rolls sessionData) (delivery_notes err) w1
            | None => (w1, None)
            end
          else (w1, None)
      end
  end.

(** *** checkAndInitiateJackpotSessions *)

(** How an [async] function ends: it returns, or it throws (its promise is
    rejected). *)
Inductive completion : Type :=
| Returned
| Threw (e : js_error).

(** Lines 145 to 152: the new object and its entry in the map.  The object
    literal is evaluated first, and its [JSON.parse] may throw. *)
Definition register (claimedSessionData : row) (w : worker) : js_error + worker :=
  match parse_rolls (initial_rolls_json claimedSessionData) with
  | inl e => inl e
  | inr parsed =>
      let ref := List.length (heap w) in
      let sd := mkSession claimedSessionData [] 0
                          (js_parseInt (initial_score claimedSessionData))
                          None parsed in
      inr (with_sessions
             (map_set (session_id claimedSessionData) ref (activeHelperSessions w))
             (with_heap (heap w ++ [sd]) w))
  end.

Definition init_prompt_notes (sendErr : js_error) : string :=
  ("Failed initial prompt: " ++ substring 0 100 (err_message sendErr))%string.

(** Lines 156 to 163: the opening prompt, not awaited, and its [catch]. *)
Definition opening_prompt (claimedSessionData : row) (w : worker) : worker :=
  match sendJackpotRunUpdate (session_id claimedSessionData) None w with
  | (w', None) => w'
  | (w', Some sendErr) =>
      fst (finalizeJackpotSession (session_id claimedSessionData)
             error_helper_init_prompt
             (js_parseInt (initial_score claimedSessionData)) []
             (init_prompt_notes sendErr) w')
  end.

(** The [for] loop, [remaining] iterations before [i] reaches
    [sessionsToAttemptToClaim].  [script i] is what the store does during
    attempt [i].  [selectRes] is declared by [const] inside the [try] block
    and [sleep] is declared nowhere: evaluating either outside throws a
    ReferenceError. *)
Fixpoint claim_loop (script : nat -> attempt_env) (sessionsToAttemptToClaim : nat)
    (remaining : nat) (s : state) : state * completion :=
  match remaining with
  | O => (s, Returned)
  | S remaining' =>
      let i := (sessionsToAttemptToClaim - remaining)%nat in
      let (db, w) := s in
      if isShuttingDownHelper w then (s, Returned)
      else
        let (db', o) := claim_attempt (script i) (botUsername w) db in
        match o with
        | NoPending => ((db', w), Returned)
        | Claimed claimedSessionData =>
            match register claimedSessionData w with
            | inl e => ((db', w), Threw e)
            | inr w1 =>
                let w2 := opening_prompt claimedSessionData w1 in
                if Nat.ltb 1 sessionsToAttemptToClaim
                   && Nat.ltb i (sessionsToAttemptToClaim - 1)
                then ((db', w2), Threw (not_defined "sleep"))
                else claim_loop script sessionsToAttemptToClaim remaining' (db', w2)
            end
        | LostRace | Failed _ => ((db', w), Threw (not_defined "selectRes"))
        end
  end.

Definition checkAndInitiateJackpotSessions (MAX_SESSIONS_PER_CYCLE : Z)
    (script : nat -> attempt_env) (s : state) : state * completion :=
  let w := snd s in
  if isShuttingDownHelper w then (s, Returned)
  else
    let activeSessionCount := Z.of_nat (List.length (activeHelperSessions w)) in
    if Z.leb MAX_SESSIONS_PER_CYCLE activeSessionCount then (s, Returned)
    else
      let sessionsToAttemptToClaim := MAX_SESSIONS_PER_CYCLE - activeSessionCount in
      if Z.leb sessionsToAttemptToClaim 0 then (s, Returned)
      else
        claim_loop script (Z.to_nat sessionsToAttemptToClaim)
                   (Z.to_nat sessionsToAttemptToClaim) s.

(** *** Shutdown *)

(** [shutdownHelper], up to the point where the process exits: the flag is
    raised and the timeout of every session in the map is cleared. *)
Definition shutdownHelper (w : worker) : worker :=
  if isShuttingDownHelper w then w
  else
    let armed (id : nat) :=
      existsb (fun e => match nth_error (heap w) (snd e) with
                        | Some sd => match turnTimeoutId sd with
                                     | Some id' => Nat.eqb id' id
                                     | None => false
                                     end
                        | None => false
                        end) (activeHelperSessions w) in
    mkWorker (botUsername w) true (heap w) (activeHelperSessions w)
             (filter (fun t => negb (armed (fst t))) (timers w))
             (next_timer w) (sends w) (finalizing w) (effects w).

(** *** The bot learns its name *)

(** [bot.getMe().then(me => { botUsername = me.username || botUsername })] *)
Definition identified (username : option string) (w : worker) : worker :=
  let name :=
    match username with
    | Some u => if String.eqb u "" then botUsername w else u
    | None => botUsername w
    end in
  mkWorker name (isShuttingDownHelper w) (heap w) (activeHelperSessions w)
           (timers w) (next_timer w) (sends w) (finalizing w) (effects w).

(** *** The event loop *)

Inductive event : Type :=
| Identified (username : option string)
| Poll (script : nat -> attempt_env)
| Incoming (msg : message)
| TimerFires (id : nat)
| Delivered (k : nat) (result : option send_error)
| StoreAnswers (k : nat) (fault : option js_error) (now : Z)
| Shutdown
| Elsewhere (db' : table).

(** One turn of the loop.  A handler that throws leaves a rejected promise
    behind, which is logged. *)
Definition handle (MAX_SESSIONS_PER_CYCLE : Z) (e : event) (s : state) : state :=
  match e with
  | Identified username => (fst s, identified username (snd s))
  | Poll script => fst (checkAndInitiateJackpotSessions MAX_SESSIONS_PER_CYCLE script s)
  | Incoming msg => (fst s, fst (on_message msg (snd s)))
  | TimerFires id => (fst s, fst (on_timeout id (snd s)))
  | Delivered k result => (fst s, fst (on_delivery k result (snd s)))
  | StoreAnswers k fault now => finalize_write k fault now s
  | Shutdown => (fst s, shutdownHelper (snd s))
  | Elsewhere db' => (db', snd s)
  end.

(** Other parties write the table too (the enqueuing bot, other helpers);
    none of them puts a session back into the queue. *)
Definition allowed (e : event) (s : state) : Prop :=
  match e with
  | Elsewhere db' => forall sid, settled (fst s) sid -> settled db' sid
  | _ => True
  end.

Inductive reachable (MAX_SESSIONS_PER_CYCLE : Z) (s0 : state) : state -> Prop :=
| reach_start : reachable MAX_SESSIONS_PER_CYCLE s0 s0
| reach_step : forall s e,
    reachable MAX_SESSIONS_PER_CYCLE s0 s ->
    allowed e s ->
    reachable MAX_SESSIONS_PER_CYCLE s0 (handle MAX_SESSIONS_PER_CYCLE e s).

End Runtime.
Import Runtime.

(* ================================================================= *)
(** ** Text sent to the player *)

Module Html.

(** [s.replace(/c/g, by)] for a pattern of one character.  Texts are kept
    as UTF-8 bytes; the five characters replaced are ASCII, and no byte below
    128 occurs inside the encoding of another character. *)
Fixpoint replace_all (c : ascii) (by_ : string) (s : string) : string :=
  match s with
  | EmptyString => EmptyString
  | String x r =>
      if Ascii.eqb x c then (by_ ++ replace_all c by_ r)%string
      else String x (replace_all c by_ r)
  end.

Definition double_quote : ascii := "034"%char.

(** The chain of five [replace] calls, in the order of the source. *)
Definition escape (s : string) : string :=
  replace_all "'" "&#039;"
    (replace_all double_quote "&quot;"
       (replace_all ">" "&gt;"
          (replace_all "<" "&lt;"
             (replace_all "&" "&amp;" s)))).

(** [escapeHTML(text)]; [None] is [undefined]. *)
Definition escapeHTML (text : option jsval) : string :=
  match text with
  | None => ""
  | Some JNull => ""
  | Some v => escape (js_String v)
  end.

(** The characters [escapeHTML] leaves alone. *)
Definition plain (c : ascii) : bool :=
  negb (Ascii.eqb c "&" || Ascii.eqb c "<" || Ascii.eqb c ">"
        || Ascii.eqb c double_quote || Ascii.eqb c "'").

Definition entities : list string :=
  ["&amp;"; "&lt;"; "&gt;"; "&quot;"; "&#039;"].

(** Text made of plain characters and of the five entities. *)
Inductive escaped : string -> Prop :=
| escaped_nil : escaped ""
| escaped_plain c s : plain c = true -> escaped s -> escaped (String c s)
| escaped_entity e s : In e entities -> escaped s -> escaped (e ++ s).

(** The characters that open or close markup or an attribute value. *)
Definition markup (c : ascii) : bool :=
  Ascii.eqb c "<" || Ascii.eqb c ">" || Ascii.eqb c double_quote || Ascii.eqb c "'".

(** A text with none of the five characters. *)
Fixpoint all_plain (s : string) : bool :=
  match s with
  | EmptyString => true
  | String c r => plain c && all_plain r
  end.

(** What one character becomes. *)
Definition entity (c : ascii) : string :=
  if Ascii.eqb c "&" then "&amp;"
  else if Ascii.eqb c "<" then "&lt;"
  else if Ascii.eqb c ">" then "&gt;"
  else if Ascii.eqb c double_quote then "&quot;"
  else if Ascii.eqb c "'" then "&#039;"
  else String c "".

Fixpoint escape_chars (s : string) : string :=
  match s with
  | EmptyString => EmptyString
  | String c r => (entity c ++ escape_chars r)%string
  end.

(** The dice glyph, U+1F3B2. *)
Definition die : string :=
  String "240" (String "159" (String "142" (String "178" ""))).

(** One roll, as the arrow function renders it. *)
Definition roll_html (roll : Z) : string := (die ++ "<b>" ++ dec roll ++ "</b>")%string.

Fixpoint join (sep : string) (l : list string) : string :=
  match l with
  | [] => ""
  | [x] => x
  | x :: rest => (x ++ sep ++ join sep rest)%string
  end.

(** [formatDiceRollsHTML(rollsArray)]; [None] is a value that is not an
    array. *)
Definition formatDiceRollsHTML (rollsArray : option (list Z)) : string :=
  match rollsArray with
  | None => "<i>None yet</i>"
  | Some [] => "<i>None yet</i>"
  | Some l => join " " (map roll_html l)
  end.

End Html.
Import Html.

(* ================================================================= *)
(** ** Configuration read from the environment *)

Module Config.

(** [process.env.X ? parseInt(process.env.X, 10) : fallback]: an unset
    variable is [undefined] and an empty one is the empty string, both
    falsy. *)
Definition env_int (value : option string) (fallback : Z) : jsval :=
  match value with
  | None => JNum fallback
  | Some s => if String.eqb s "" then JNum fallback else js_parseInt (JStr s)
  end.

(** [a - b] *)
Definition js_sub (a b : jsval) : jsval :=
  match js_ToNumber a, js_ToNumber b with
  | Some x, Some y => JNum (x - y)
  | _, _ => JNaN
  end.

(** [checkAndInitiateJackpotSessions] with [MAX_SESSIONS_PER_CYCLE] as the
    configuration delivers it, a number or NaN.  With NaN every comparison
    is false, the one of the loop header included. *)
Definition poll_tick (MAX_SESSIONS_PER_CYCLE : jsval)
    (script : nat -> attempt_env) (s : state) : state * completion :=
  let w := snd s in
  if isShuttingDownHelper w then (s, Returned)
  else
    let activeSessionCount := JNum (Z.of_nat (List.length (activeHelperSessions w))) in
    if js_ge activeSessionCount MAX_SESSIONS_PER_CYCLE then (s, Returned)
    else
      let sessionsToAttemptToClaim := js_sub MAX_SESSIONS_PER_CYCLE activeSessionCount in
      if js_ge (JNum 0) sessionsToAttemptToClaim then (s, Returned)
      else
        match sessionsToAttemptToClaim with
        | JNum n => claim_loop script (Z.to_nat n) (Z.to_nat n) s
        | _ => (s, Returned)
        end.

End Config.
Import Config.

(* ================================================================= *)
(** ** Invariants *)

(** *** Of the interleaved claim attempts *)

Definition in_transaction (p : pc) : Prop :=
  match p with
  | AtUpdate _ | AtCommit _ _ _ | AtRollback | AtCatch _ => True
  | _ => False
  end.

Definition has_pending (t : table) (sid : Z) : Prop :=
  exists r, In r t /\ session_id r = sid /\ is_pending r = true.

(** What attempt [i] can rely on where it stands. *)
Definition attempt_ok (st : store) (i : nat) (a : attempt) : Prop :=
  match at_pc a with
  | AtUpdate r => In (session_id r, i) (locks st)
  | AtCommit sid _ returned =>
      In (sid, i) (locks st) /\ has_pending (rows st) sid /\
      forall r, In r returned -> session_id r = sid
  | Finished (Claimed r) => settled (rows st) (session_id r)
  | _ => True
  end.

(** No two attempts came back with the same session. *)
Definition exclusive (s : system) : Prop :=
  forall i j a b sid,
    nth_error (attempts s) i = Some a ->
    nth_error (attempts s) j = Some b ->
    claimed_session a = Some sid ->
    claimed_session b = Some sid ->
    i = j.

Record consistent (s : system) : Prop := mkConsistent {
  locks_nodup : NoDup (map fst (locks (sys_store s)));
  locks_held : forall sid i, In (sid, i) (locks (sys_store s)) ->
      exists a, nth_error (attempts s) i = Some a /\ in_transaction (at_pc a);
  attempts_ok : forall i a, nth_error (attempts s) i = Some a ->
      attempt_ok (sys_store s) i a;
  claims_exclusive : exclusive s }.

(** The same conditional UPDATE issued for one session by several callers,
    in the order the store serialises them: the row counts they see. *)
Fixpoint contend (callers : list (string * Z)) (sid : Z) (t : table)
  : table * list nat :=
  match callers with
  | [] => (t, [])
  | (botUsername, now) :: rest =>
      let (t1, returned) := update_claim botUsername sid now t in
      let (t2, counts) := contend rest sid t1 in
      (t2, List.length returned :: counts)
  end.

(** *** Of one helper's runtime *)

Definition rolls_of (c : json_column) : list Z :=
  match c with
  | JsonRolls l => l
  | _ => []
  end.

(** A session object that can be prompted and finalized: its row is the
    claimed one, its pool converts, its roll history parses. *)
Definition object_ok (sd : sessionData) : Prop :=
  is_active (sd_row sd) = true /\
  js_BigInt (jackpot_pool_at_session_start (sd_row sd)) <> None /\
  initial_rolls_json (sd_row sd) <> JsonMalformed.

Record sound (s : state) : Prop := mkSound {
  keys_nodup : NoDup (map fst (activeHelperSessions (snd s)));
  refs_nodup : NoDup (map snd (activeHelperSessions (snd s)));
  entries_ok : forall sid ref, In (sid, ref) (activeHelperSessions (snd s)) ->
      exists sd, nth_error (heap (snd s)) ref = Some sd /\ object_ok sd /\
                 session_id (sd_row sd) = sid;
  entries_settled : forall sid ref, In (sid, ref) (activeHelperSessions (snd s)) ->
      settled (fst s) sid;
  timers_nodup : NoDup (map fst (timers (snd s)));
  timers_tracked : forall id sid, In (id, sid) (timers (snd s)) ->
      (id < next_timer (snd s))%nat /\
      exists ref sd, In (sid, ref) (activeHelperSessions (snd s)) /\
                     nth_error (heap (snd s)) ref = Some sd /\
                     turnTimeoutId sd = Some id;
  sends_ok : forall c, In c (sends (snd s)) ->
      settled (fst s) (sc_sessionId c) /\
      forall ref, In (sc_sessionId c, ref) (activeHelperSessions (snd s)) ->
                  ref = sc_sessionData c;
  calls_ok : forall fc, In fc (finalizing (snd s)) ->
      is_final_status (fc_finalStatus fc) = true /\
      forall ref, fc_sessionData fc = Some ref ->
        ~ In ref (map snd (activeHelperSessions (snd s))) /\
        exists sd, nth_error (heap (snd s)) ref = Some sd /\
          session_id (sd_row sd) = fc_sessionId fc /\
          fc_finalRollsCombined fc =
            rolls_of (initial_rolls_json (sd_row sd)) ++ jackpot_run_rolls sd }.

(** The roll is taken and the run goes on: neither a bust nor the target. *)
Definition accepted (msg : message) (w : worker) (sid : Z) : Prop :=
  exists ref sd v,
    route msg w = Some (sid, ref, sd) /\ msg_dice msg = Some v /\
    js_strict_eq (JNum v) (bust_on_value (sd_row sd)) = false /\
    js_ge (current_total_score (add_roll v sd))
          (target_jackpot_score (sd_row sd)) = false.

(** *** Of one attempt run on its own *)

(** What the rows are while the attempt of [botUsername] runs alone on [t]. *)
Definition alone (botUsername : string) (now : Z) (t : table) (c : store * pc) : Prop :=
  match snd c with
  | AtCommit sid now' returned =>
      rows (fst c) = t /\ now' = now /\
      returned = snd (update_claim botUsername sid now t) /\ returned <> []
  | Finished (Claimed r) =>
      exists sid, rows (fst c) = fst (update_claim botUsername sid now t) /\
                  In r (snd (update_claim botUsername sid now t))
  | _ => rows (fst c) = t
  end.

(** The awaits still ahead of an attempt, at most. *)
Definition ahead (p : pc) : nat :=
  match p with
  | AtConnect => 6
  | AtBegin => 5
  | AtSelect => 4
  | AtUpdate _ => 3
  | AtCommitEmpty | AtCommit _ _ _ | AtRollback => 2
  | AtCatch _ => 1
  | Finished _ => 0
  end.

(* ================================================================= *)
(** ** Sample sessions and runs *)

(** A queued session of player 42 in chat -100: earlier rolls 3 and 2, bust
    on 1, five SOL in the pool. *)
Definition demo_row (sid created : Z) (score target : jsval) : row :=
  mkRow sid pending_pickup None (JStr "42") (JStr "-100") score (JsonRolls [3; 2])
        target (JNum 1) (JStr "5000000000") JNull JsonNull None created created.

Definition demo_bot : string := "HelperDEJackpotBot".

(** A store that answers every call. *)
Definition quiet : attempt_env := mkEnv 20 [] (fun _ => None).

(** The player of the demo sessions sends a dice. *)
Definition dice (v : Z) : message :=
  mkMessage (Some v) (Some (mkSender 42 false)) (-100) 5.

(** One queued session and a helper that has just started. *)
Definition demo_start (score target : jsval) : state :=
  ([demo_row 1 10 score target], fresh_worker demo_bot).

(** The helper polls and claims it. *)
Definition demo_claimed (score target : jsval) : state :=
  handle 1 (Poll (fun _ => quiet)) (demo_start score target).

(** The player sends these dice one after the other. *)
Definition after_rolls (rolls : list Z) (s : state) : state :=
  fold_left (fun s v => handle 1 (Incoming (dice v)) s) rolls s.

(** Two helpers race for two queued sessions; a third is enqueued. *)
Definition demo_race : list action :=
  [Spawn "HelperA"; Spawn "HelperB";
   Advance 0 20 None; Advance 1 20 None;      (* both connect *)
   Advance 0 21 None; Advance 1 21 None;      (* both BEGIN *)
   Advance 0 22 None;                         (* A selects session 1, locked *)
   Advance 1 22 None;                         (* B skips it, selects session 2 *)
   Advance 1 23 None; Advance 0 23 None;      (* both UPDATE *)
   Advance 0 24 None; Advance 1 24 None;      (* both COMMIT *)
   Enqueue (demo_row 3 12 (JNum 0) (JNum 100))].

(** The sum of a list of rolls. *)
Definition sum_rolls (l : list Z) : Z := fold_right Z.add 0 l.

(** The run fields of the first session object. *)
Definition run_of (s : state) : option (list Z * Z * jsval) :=
  option_map (fun sd => (jackpot_run_rolls sd, jackpot_run_score sd,
                         current_total_score sd))
             (nth_error (heap (snd s)) 0).

(** Telegram answers that the player blocked the bot. *)
Definition blocked : send_error := mkSendError "ETELEGRAM: 403 Forbidden" (Some 403).

(** How many outcome notifications were sent. *)
Definition concluded (l : list effect) : nat :=
  List.length (filter (fun e => match e with SendConcluded _ _ _ _ => true | _ => false end) l).

(** The player busts; then the prompt sent before comes back undeliverable. *)
Definition bust_then_blocked : state :=
  handle 1 (Delivered 0 (Some blocked))
         (after_rolls [4; 1] (demo_claimed (JNum 7) (JNum 100))).

(** The row of a session that ended as a bust. *)
Definition bust_row : row :=
  finalize_set completed_bust (JNum 12) [3; 2; 4; 1] (bust_notes 1) 30
               (claim_set demo_bot 20 (demo_row 1 10 (JNum 7) (JNum 100))).

(** The bust could not be written (the store failed); then the prompt sent
    before comes back undeliverable and finalizes the session again, which
    by now is not in the map. *)
Definition unwritten_then_blocked : state :=
  handle 1 (Delivered 0 (Some blocked))
    (handle 1 (StoreAnswers 0 (Some (mkError StoreFailure "connection terminated")) 30)
       (after_rolls [4; 1] (demo_claimed (JNum 7) (JNum 100)))).

(** A helper whose one session has just busted, its write still ahead. *)
Definition bust_object : sessionData :=
  mkSession (claim_set demo_bot 20 (demo_row 1 10 (JNum 7) (JNum 100)))
            [4; 1] 5 (JNum 12) None [3; 2].

Definition bust_call : finalize_call :=
  mkFinalize 1 completed_bust (JNum 12) [3; 2; 4; 1] (bust_notes 1) (Some 0%nat).

Definition bust_table : table :=
  [claim_set demo_bot 20 (demo_row 1 10 (JNum 7) (JNum 100))].

Definition bust_worker : worker :=
  mkWorker demo_bot false [bust_object] [] [] 3 [] [bust_call] [].

(** The store rejects the UPDATE of the first attempt of a tick (its
    fourth awaited call) and answers everything else. *)
Definition update_fails_once (i : nat) : attempt_env :=
  mkEnv 20 []
        (fun k => if Nat.eqb i 0 && Nat.eqb k 3
                  then Some (mkError StoreFailure "connection terminated")
                  else None).

(** A queued session whose [bust_on_value] the store delivers as text (as it
    does for int8 and numeric columns): score 9, target 10, bust on "1". *)
Definition text_bust_row : row :=
  mkRow 1 pending_pickup None (JStr "42") (JStr "-100") (JNum 9) (JsonRolls [3; 2])
        (JNum 10) (JStr "1") (JStr "5000000000") JNull JsonNull None 10 10.

(** The helper has claimed it. *)
Definition text_bust_claimed : state :=
  handle 1 (Poll (fun _ => quiet)) ([text_bust_row], fresh_worker demo_bot).

(** The finalize calls in flight, by status, score and rolls. *)
Definition calls_of (s : state) : list (string * jsval * list Z) :=
  map (fun fc => (fc_finalStatus fc, fc_finalOverallScore fc, fc_finalRollsCombined fc))
      (finalizing (snd s)).

(** Two sessions queued, a helper that manages none yet. *)
Definition two_queued : state :=
  ([demo_row 1 10 (JNum 7) (JNum 100); demo_row 2 11 (JNum 5) (JNum 100)],
   fresh_worker demo_bot).

(* ================================================================= *)
(** ** Further notions: frames, objects, routing *)

(** The head of [checkAndInitiateJackpotSessions], up to the [for]
    statement: the number of attempts the tick is due, 0 when it returns at
    once.  This is all a tick reads of the live table. *)
Definition attempts_due (MAX_SESSIONS_PER_CYCLE : Z) (w : worker) : nat :=
  if isShuttingDownHelper w then 0%nat
  else
    let activeSessionCount := Z.of_nat (List.length (activeHelperSessions w)) in
    if Z.leb MAX_SESSIONS_PER_CYCLE activeSessionCount then 0%nat
    else
      let sessionsToAttemptToClaim := MAX_SESSIONS_PER_CYCLE - activeSessionCount in
      if Z.leb sessionsToAttemptToClaim 0 then 0%nat
      else Z.to_nat sessionsToAttemptToClaim.

(** Lines 142 to 163, what follows the COMMIT of an attempt in the same
    turn: the claimed session is stored and prompted. *)
Definition land (claimedSessionData : row) (w : worker) : js_error + worker :=
  match register claimedSessionData w with
  | inl e => inl e
  | inr w1 => inr (opening_prompt claimedSessionData w1)
  end.

(** Claims landing one after the other. *)
Fixpoint land_all (claimed : list row) (w : worker) : js_error + worker :=
  match claimed with
  | [] => inr w
  | r :: rest =>
      match land r w with
      | inl e => inl e
      | inr w' => land_all rest w'
      end
  end.

(** The columns the enqueuing bot fills in and the helpers only read. *)
Definition enqueued (r : row) :=
  (session_id r, user_id r, chat_id r, initial_score r, initial_rolls_json r,
   target_jackpot_score r, bust_on_value r, jackpot_pool_at_session_start r,
   created_at r).

(** [SKIP LOCKED] as the attempt of [claim_attempt] meets it. *)
Definition skipped (env : attempt_env) (sid : Z) : bool :=
  existsb (Z.eqb sid) (ae_locked env).

(** The object with its timer set to [t]. *)
Definition with_timeout (t : option nat) (sd : sessionData) : sessionData :=
  mkSession (sd_row sd) (jackpot_run_rolls sd) (jackpot_run_score sd)
            (current_total_score sd) t (initial_rolls_parsed sd).

(** How the session objects of a helper come about: made at claim time
    from the claimed row, then changed by arming or clearing the timer and
    by taking in a roll. *)
Inductive made : sessionData -> Prop :=
| made_at_claim r u parsed :
    is_active r = true -> helper_bot_id r = Some u ->
    parse_rolls (initial_rolls_json r) = inr parsed ->
    made (mkSession r [] 0 (js_parseInt (initial_score r)) None parsed)
| made_timer sd t : made sd -> made (with_timeout t sd)
| made_roll sd v : made sd -> made (add_roll v sd).

(** What a handler leaves alone: the name, the shutdown flag, the number of
    live sessions (which may go down), the way the objects are made. *)
Definition keeps (w w' : worker) : Prop :=
  botUsername w' = botUsername w /\
  isShuttingDownHelper w' = isShuttingDownHelper w /\
  (List.length (activeHelperSessions w') <= List.length (activeHelperSessions w))%nat /\
  (Forall made (heap w) -> Forall made (heap w')).

(** What the objects of a helper hold at any time. *)
Definition tallied (sd : sessionData) : Prop :=
  jackpot_run_score sd = sum_rolls (jackpot_run_rolls sd) /\
  current_total_score sd =
    match jackpot_run_rolls sd with
    | [] => js_parseInt (initial_score (sd_row sd))
    | _ :: _ => js_add (initial_score (sd_row sd)) (JNum (jackpot_run_score sd))
    end /\
  parse_rolls (initial_rolls_json (sd_row sd)) = inr (initial_rolls_parsed sd) /\
  is_active (sd_row sd) = true /\
  helper_bot_id (sd_row sd) <> None.

(** The test of the scan in the dice handler: the session is the sender's,
    in the chat of the message, and [active_by_helper]. *)
Definition belongs (from : sender) (chat : Z) (sd : sessionData) : bool :=
  String.eqb (js_String (user_id (sd_row sd))) (dec (from_id from))
  && String.eqb (js_String (chat_id (sd_row sd))) (dec chat)
  && is_active (sd_row sd).

(** The same test on an entry of the map. *)
Definition entry_belongs (from : sender) (chat : Z) (w : worker) (e : Z * nat) : bool :=
  match nth_error (heap w) (snd e) with
  | Some sd => belongs from chat sd
  | None => false
  end.

(* ================================================================= *)
(** * Proofs *)

(** * Facts about the SQL statements *)

Lemma in_insert_by_created (x r : row) (l : list row) :
  In x (insert_by_created r l) <-> x = r \/ In x l.
Proof.
  induction l as [|y l IH]; simpl.
  - intuition congruence.
  - destruct (Z.leb (created_at r) (created_at y)); simpl.
    + intuition congruence.
    + rewrite IH. intuition congruence.
Qed.

Lemma in_order_by_created (x : row) (l : list row) :
  In x (order_by_created l) <-> In x l.
Proof.
  induction l as [|y l IH]; simpl; [tauto|].
  rewrite in_insert_by_created, IH. intuition congruence.
Qed.

Lemma select_pending_sound (locked : Z -> bool) (t : table) (r : row) (l : list row) :
  select_pending locked t = r :: l ->
  In r t /\ is_pending r = true /\ locked (session_id r) = false.
Proof.
  unfold select_pending. intros H.
  assert (Hin : In r (order_by_created
            (filter (fun r => is_pending r && negb (locked (session_id r))) t))).
  { destruct (order_by_created _) as [|y l']; simpl in H; [discriminate|].
    injection H as -> _. now left. }
  apply in_order_by_created, filter_In in Hin. destruct Hin as [Hin Hc].
  apply andb_true_iff in Hc. destruct Hc as [Hp Hl].
  apply negb_true_iff in Hl. auto.
Qed.

Lemma select_pending_at_most_one (locked : Z -> bool) (t : table) :
  (List.length (select_pending locked t) <= 1)%nat.
Proof.
  unfold select_pending. destruct (order_by_created _) as [|y [|z l]]; simpl; lia.
Qed.

Lemma final_status_not_pending (s : string) :
  is_final_status s = true -> String.eqb s pending_pickup = false.
Proof.
  unfold is_final_status, final_statuses. simpl. intros H.
  repeat (apply orb_true_iff in H; destruct H as [H|H];
          [apply String.eqb_eq in H; subst; reflexivity|]).
  discriminate.
Qed.

Lemma claim_set_session_id u now r : session_id (claim_set u now r) = session_id r.
Proof. reflexivity. Qed.

Lemma claim_set_not_pending u now r : is_pending (claim_set u now r) = false.
Proof. reflexivity. Qed.

Lemma update_claim_keys u sid now t :
  map session_id (fst (update_claim u sid now t)) = map session_id t.
Proof.
  unfold update_claim; simpl. rewrite map_map. apply map_ext.
  intros r. destruct (claim_where sid r); reflexivity.
Qed.

Lemma update_claim_returned u sid now t r :
  In r (snd (update_claim u sid now t)) ->
  session_id r = sid /\ is_active r = true /\ helper_bot_id r = Some u /\
  has_pending t sid.
Proof.
  unfold update_claim; simpl. rewrite in_map_iff.
  intros (r0 & <- & Hin). apply filter_In in Hin. destruct Hin as [Hin Hw].
  unfold claim_where in Hw. apply andb_true_iff in Hw. destruct Hw as [Hs Hp].
  apply Z.eqb_eq in Hs. repeat split; auto.
  exists r0; auto.
Qed.

Lemma update_claim_rows u sid now t r' :
  In r' (fst (update_claim u sid now t)) ->
  (In r' t /\ claim_where sid r' = false) \/
  (exists r, In r t /\ claim_where sid r = true /\ r' = claim_set u now r).
Proof.
  unfold update_claim; simpl. rewrite in_map_iff. intros (r & Hr & Hin).
  destruct (claim_where sid r) eqn:E.
  - right. exists r; auto.
  - left. subst; auto.
Qed.

Lemma update_claim_settles u sid now t :
  In sid (map session_id t) -> settled (fst (update_claim u sid now t)) sid.
Proof.
  intros Hk. split.
  - now rewrite update_claim_keys.
  - intros r' Hin Hs. apply update_claim_rows in Hin.
    destruct Hin as [[Hin Hw]|(r & Hin & Hw & ->)]; [|reflexivity].
    unfold claim_where in Hw. rewrite Hs, Z.eqb_refl in Hw. exact Hw.
Qed.

Lemma update_claim_keeps_settled u sid now t x :
  settled t x -> settled (fst (update_claim u sid now t)) x.
Proof.
  intros [Hk Hp]. split.
  - now rewrite update_claim_keys.
  - intros r' Hin Hs. apply update_claim_rows in Hin.
    destruct Hin as [[Hin Hw]|(r & Hin & Hw & ->)]; [|reflexivity].
    auto.
Qed.

Lemma update_claim_keeps_pending u sid now t x :
  x <> sid -> has_pending t x -> has_pending (fst (update_claim u sid now t)) x.
Proof.
  intros Hne (r & Hin & Hs & Hp). exists r. repeat split; auto.
  unfold update_claim; simpl. apply in_map_iff. exists r. split; auto.
  unfold claim_where. destruct (Z.eqb_spec (session_id r) sid); [congruence|reflexivity].
Qed.

Lemma update_claim_settled_noop u sid now t :
  (forall r, In r t -> session_id r = sid -> is_pending r = false) ->
  update_claim u sid now t = (t, []).
Proof.
  intros H. unfold update_claim. f_equal.
  - rewrite <- (map_id t) at 2. apply map_ext_in. intros r Hin.
    unfold claim_where. destruct (Z.eqb_spec (session_id r) sid); simpl; auto.
    now rewrite (H r Hin e).
  - replace (filter (claim_where sid) t) with (@nil row); [reflexivity|].
    symmetry. induction t as [|r t IH]; simpl; auto.
    unfold claim_where at 1. destruct (Z.eqb_spec (session_id r) sid); simpl.
    + rewrite (H r (or_introl eq_refl) e). apply IH. intros; apply H; simpl; auto.
    + apply IH. intros; apply H; simpl; auto.
Qed.

Lemma keyed_rows_of_one t r :
  keyed t -> In r t -> rows_of (session_id r) t = [r].
Proof.
  unfold keyed, rows_of. induction t as [|x t IH]; simpl; [tauto|].
  intros Hnd Hin. inversion Hnd as [|? ? Hni Hnd']; subst.
  destruct Hin as [->|Hin].
  - rewrite Z.eqb_refl. f_equal.
    clear IH Hnd Hnd'. induction t as [|y t IH]; simpl; auto.
    destruct (Z.eqb_spec (session_id y) (session_id r)).
    + exfalso. apply Hni. simpl. auto.
    + apply IH. intros H. apply Hni. simpl; auto.
  - destruct (Z.eqb_spec (session_id x) (session_id r)).
    + exfalso. apply Hni. rewrite e. now apply in_map.
    + auto.
Qed.

Lemma update_claim_one_row u sid now t :
  keyed t -> has_pending t sid ->
  exists r, In r t /\ snd (update_claim u sid now t) = [claim_set u now r].
Proof.
  intros Hk (r & Hin & Hs & Hp). exists r. split; auto.
  unfold update_claim; simpl.
  assert (E : filter (claim_where sid) t = filter is_pending (rows_of sid t)).
  { unfold rows_of, claim_where. clear. induction t as [|x t IH]; simpl; auto.
    destruct (Z.eqb (session_id x) sid); simpl; rewrite IH; reflexivity. }
  rewrite E, <- Hs, (keyed_rows_of_one t r Hk Hin). simpl. now rewrite Hp.
Qed.

Lemma final_set_not_pending st sc ro no now r :
  is_final_status st = true -> is_pending (finalize_set st sc ro no now r) = false.
Proof. intros H. unfold is_pending; simpl. now apply final_status_not_pending. Qed.

Lemma update_finalize_keys st sc ro no sid u now t :
  map session_id (fst (update_finalize st sc ro no sid u now t)) = map session_id t.
Proof.
  unfold update_finalize; simpl. rewrite map_map. apply map_ext.
  intros r. destruct (finalize_where sid u r); reflexivity.
Qed.

Lemma update_finalize_rows st sc ro no sid u now t r' :
  In r' (fst (update_finalize st sc ro no sid u now t)) ->
  (In r' t /\ finalize_where sid u r' = false) \/
  (exists r, In r t /\ finalize_where sid u r = true /\
             r' = finalize_set st sc ro no now r).
Proof.
  unfold update_finalize; simpl. rewrite in_map_iff. intros (r & Hr & Hin).
  destruct (finalize_where sid u r) eqn:E.
  - right. exists r; auto.
  - left. subst; auto.
Qed.

Lemma update_finalize_keeps_settled st sc ro no sid u now t x :
  is_final_status st = true ->
  settled t x -> settled (fst (update_finalize st sc ro no sid u now t)) x.
Proof.
  intros Hf [Hk Hp]. split.
  - now rewrite update_finalize_keys.
  - intros r' Hin Hs. apply update_finalize_rows in Hin.
    destruct Hin as [[Hin Hw]|(r & Hin & Hw & ->)]; auto.
    now apply final_set_not_pending.
Qed.

Lemma update_finalize_keeps_pending st sc ro no sid u now t x :
  x <> sid -> has_pending t x ->
  has_pending (fst (update_finalize st sc ro no sid u now t)) x.
Proof.
  intros Hne (r & Hin & Hs & Hp). exists r. repeat split; auto.
  unfold update_finalize; simpl. apply in_map_iff. exists r. split; auto.
  unfold finalize_where. destruct (Z.eqb_spec (session_id r) sid); [congruence|reflexivity].
Qed.

(** * Lists updated in place *)

Lemma list_set_length {A} (i : nat) (x : A) (l : list A) :
  List.length (list_set i x l) = List.length l.
Proof.
  revert i; induction l as [|y l IH]; intros [|i]; simpl; auto.
Qed.

Lemma nth_error_list_set_same {A} (i : nat) (x : A) (l : list A) :
  (i < List.length l)%nat -> nth_error (list_set i x l) i = Some x.
Proof.
  revert i; induction l as [|y l IH]; intros [|i] H; simpl in *; try lia; auto.
  apply IH; lia.
Qed.

Lemma nth_error_list_set_other {A} (i j : nat) (x : A) (l : list A) :
  i <> j -> nth_error (list_set i x l) j = nth_error l j.
Proof.
  revert i j; induction l as [|y l IH]; intros [|i] [|j] H; simpl; auto; try congruence.
Qed.

Lemma nth_error_list_set {A} (i j : nat) (x : A) (l : list A) (y : A) :
  nth_error (list_set i x l) j = Some y ->
  (i = j /\ y = x) \/ (i <> j /\ nth_error l j = Some y).
Proof.
  intros H. destruct (Nat.eq_dec i j) as [->|Hne].
  - left. split; auto.
    assert (Hlt : (j < List.length l)%nat).
    { rewrite <- (list_set_length j x l). apply nth_error_Some. congruence. }
    rewrite nth_error_list_set_same in H by exact Hlt. congruence.
  - right. rewrite nth_error_list_set_other in H by exact Hne. auto.
Qed.

(** * Row locks *)

Lemma in_release me st sid j :
  In (sid, j) (locks (release me st)) <-> In (sid, j) (locks st) /\ j <> me.
Proof.
  unfold release; simpl. rewrite filter_In. simpl.
  rewrite negb_true_iff, Nat.eqb_neq. tauto.
Qed.

Lemma nodup_fst_filter {A B} (f : A * B -> bool) (l : list (A * B)) :
  NoDup (map fst l) -> NoDup (map fst (filter f l)).
Proof.
  induction l as [|x l IH]; simpl; intros H; [constructor|].
  inversion H as [|? ? Hni Hnd]; subst.
  destruct (f x); simpl; auto.
  constructor; auto. intros Hin. apply Hni.
  apply in_map_iff in Hin. destruct Hin as (y & Hy & Hin).
  apply filter_In in Hin. apply in_map_iff. exists y. tauto.
Qed.

Lemma locked_by_other_false me st sid :
  locked_by_other me st sid = false ->
  forall j, In (sid, j) (locks st) -> j = me.
Proof.
  unfold locked_by_other. intros H j Hin.
  destruct (Nat.eq_dec j me) as [|Hne]; auto.
  assert (existsb (fun l => Z.eqb (fst l) sid && negb (Nat.eqb (snd l) me)) (locks st) = true).
  { apply existsb_exists. exists (sid, j). split; auto. simpl.
    rewrite Z.eqb_refl. simpl. apply negb_true_iff, Nat.eqb_neq. exact Hne. }
  congruence.
Qed.

Lemma is_locked_false st sid :
  is_locked st sid = false -> forall j, ~ In (sid, j) (locks st).
Proof.
  unfold is_locked. intros H j Hin.
  assert (existsb (fun l => Z.eqb (fst l) sid) (locks st) = true).
  { apply existsb_exists. exists (sid, j). split; auto. simpl. apply Z.eqb_refl. }
  congruence.
Qed.

Lemma lock_owner_unique (l : list (Z * nat)) sid i j :
  NoDup (map fst l) -> In (sid, i) l -> In (sid, j) l -> i = j.
Proof.
  induction l as [|[s k] l IH]; simpl; [tauto|].
  intros Hnd Hi Hj. inversion Hnd as [|? ? Hni Hnd']; subst.
  destruct Hi as [Hi|Hi], Hj as [Hj|Hj].
  - congruence.
  - inversion Hi; subst. exfalso. apply Hni. apply in_map_iff. exists (sid, j). auto.
  - inversion Hj; subst. exfalso. apply Hni. apply in_map_iff. exists (sid, i). auto.
  - auto.
Qed.

(** * The invariant of the claim protocol *)

Lemma consistent_init (t : table) : consistent (init t).
Proof.
  constructor; simpl.
  - constructor.
  - intros ? ? [].
  - intros [|i] a H; discriminate.
  - intros [|i] j a b sid H; discriminate.
Qed.

Lemma settled_app t r x : settled t x -> settled (t ++ [r]) x \/ session_id r = x.
Proof.
  intros [Hk Hp].
  destruct (Z.eq_dec (session_id r) x) as [|Hne]; [now right|left].
  split.
  - rewrite map_app. apply in_or_app. now left.
  - intros r' Hin Hs. apply in_app_or in Hin. destruct Hin as [Hin|[<-|[]]]; auto.
    congruence.
Qed.

(** Steps that touch neither attempts nor locks, and keep what attempts
    rely on in the rows. *)
Lemma consistent_rows_change (s : system) (t' : table) :
  consistent s ->
  (forall x, settled (rows (sys_store s)) x -> settled t' x) ->
  (forall x i, In (x, i) (locks (sys_store s)) ->
               has_pending (rows (sys_store s)) x -> has_pending t' x) ->
  consistent (mkSystem (mkStore t' (locks (sys_store s))) (attempts s)).
Proof.
  intros [Hnd Hheld Hok Hex] Hset Hpen. constructor; simpl; auto.
  intros i a Hi. specialize (Hok i a Hi). unfold attempt_ok in *.
  destruct (at_pc a) as [| | | | r | sid now ret | | e | [r| | |e]]; simpl in *; auto.
  destruct Hok as (Hl & Hp & Hr). repeat split; eauto.
Qed.

Lemma exclusive_same_claims (s s' : system) :
  exclusive s ->
  (forall i a', nth_error (attempts s') i = Some a' ->
     forall sid, claimed_session a' = Some sid ->
     exists a, nth_error (attempts s) i = Some a /\ claimed_session a = Some sid) ->
  exclusive s'.
Proof.
  intros Hex H i j a b sid Hi Hj Ha Hb.
  destruct (H i a Hi sid Ha) as (a0 & Hi0 & Ha0).
  destruct (H j b Hj sid Hb) as (b0 & Hj0 & Hb0).
  eapply Hex; eauto.
Qed.

Lemma not_in_transaction_no_lock s i a :
  consistent s -> nth_error (attempts s) i = Some a ->
  ~ in_transaction (at_pc a) ->
  forall sid, ~ In (sid, i) (locks (sys_store s)).
Proof.
  intros C Hi Hn sid Hin.
  destruct (locks_held s C sid i Hin) as (a' & Ha' & Ht).
  rewrite Hi in Ha'. injection Ha' as <-. contradiction.
Qed.

Lemma attempt_ok_same_rows st st' i a :
  rows st' = rows st ->
  (forall sid, In (sid, i) (locks st) -> In (sid, i) (locks st')) ->
  attempt_ok st i a -> attempt_ok st' i a.
Proof.
  intros Hr Hl. unfold attempt_ok.
  destruct (at_pc a) as [| | | | r | sid now ret | | e | [r| | |e]]; simpl; auto.
  - rewrite Hr. intros (H1 & H2 & H3). auto.
  - now rewrite Hr.
Qed.

(** The attempt moves on without touching the store. *)
Lemma advance_same_store s i a p' :
  consistent s -> nth_error (attempts s) i = Some a ->
  (in_transaction (at_pc a) -> in_transaction p') ->
  attempt_ok (sys_store s) i (mkAttempt (who a) p') ->
  claimed_session (mkAttempt (who a) p') = None ->
  consistent (mkSystem (sys_store s)
                       (list_set i (mkAttempt (who a) p') (attempts s))).
Proof.
  intros C Hi Ht Hok Hc. destruct C as [Hnd Hheld Hoks Hex].
  constructor; simpl; auto.
  - intros sid j Hin. destruct (Hheld sid j Hin) as (b & Hb & Htb).
    destruct (Nat.eq_dec i j) as [<-|Hne].
    + exists (mkAttempt (who a) p'). split.
      * apply nth_error_list_set_same. apply nth_error_Some. congruence.
      * simpl. apply Ht. rewrite Hi in Hb. now injection Hb as <-.
    + exists b. split; auto. now rewrite nth_error_list_set_other.
  - intros j b Hj. apply nth_error_list_set in Hj.
    destruct Hj as [[<- ->]|[Hne Hj]]; auto.
  - eapply exclusive_same_claims; [exact Hex|]. simpl.
    intros j b Hj sid Hb. apply nth_error_list_set in Hj.
    destruct Hj as [[<- ->]|[Hne Hj]]; [congruence|eauto].
Qed.

(** The transaction ends without a claim. *)
Lemma advance_release s i a o :
  consistent s -> nth_error (attempts s) i = Some a ->
  (forall r, o <> Claimed r) ->
  consistent (mkSystem (release i (sys_store s))
                       (list_set i (mkAttempt (who a) (Finished o)) (attempts s))).
Proof.
  intros C Hi Ho. destruct C as [Hnd Hheld Hoks Hex].
  constructor; simpl; auto.
  - now apply nodup_fst_filter.
  - intros sid j Hin. change (filter _ _) with (locks (release i (sys_store s))) in Hin.
    apply in_release in Hin. destruct Hin as [Hin Hne].
    destruct (Hheld sid j Hin) as (b & Hb & Htb).
    exists b. split; auto. rewrite nth_error_list_set_other; auto.
  - intros j b Hj. apply nth_error_list_set in Hj.
    destruct Hj as [[<- ->]|[Hne Hj]].
    + unfold attempt_ok; simpl. destruct o; auto. exfalso. eapply Ho; eauto.
    + apply attempt_ok_same_rows with (st := sys_store s); auto.
      intros sid Hin. apply in_release. auto.
  - eapply exclusive_same_claims; [exact Hex|]. simpl.
    intros j b Hj sid Hb. apply nth_error_list_set in Hj.
    destruct Hj as [[<- ->]|[Hne Hj]]; [|eauto].
    unfold claimed_session in Hb; simpl in Hb. destruct o; try discriminate.
    exfalso. eapply Ho; eauto.
Qed.

(** The SELECT locks the row it returns. *)
Lemma advance_select s i a r :
  consistent s -> nth_error (attempts s) i = Some a ->
  at_pc a = AtSelect ->
  locked_by_other i (sys_store s) (session_id r) = false ->
  consistent (mkSystem (mkStore (rows (sys_store s))
                                ((session_id r, i) :: locks (sys_store s)))
                       (list_set i (mkAttempt (who a) (AtUpdate r)) (attempts s))).
Proof.
  intros C Hi Hpc Hfree.
  assert (Hnone : forall sid, ~ In (sid, i) (locks (sys_store s))).
  { eapply not_in_transaction_no_lock; eauto. rewrite Hpc. simpl. tauto. }
  destruct C as [Hnd Hheld Hoks Hex].
  constructor; simpl; auto.
  - constructor; auto. intros Hin. apply in_map_iff in Hin.
    destruct Hin as ([sid j] & Hs & Hin). simpl in Hs. subst sid.
    pose proof (locked_by_other_false _ _ _ Hfree j Hin) as ->.
    eapply Hnone; eauto.
  - intros sid j [Heq|Hin].
    + injection Heq as <- <-. exists (mkAttempt (who a) (AtUpdate r)). split.
      * apply nth_error_list_set_same. apply nth_error_Some. congruence.
      * exact I.
    + destruct (Hheld sid j Hin) as (b & Hb & Htb).
      destruct (Nat.eq_dec i j) as [<-|Hne]; [exfalso; eapply Hnone; eauto|].
      exists b. split; auto. now rewrite nth_error_list_set_other.
  - intros j b Hj. apply nth_error_list_set in Hj.
    destruct Hj as [[<- ->]|[Hne Hj]].
    + unfold attempt_ok; simpl. now left.
    + apply attempt_ok_same_rows with (st := sys_store s); auto.
      intros sid Hin. simpl. now right.
  - eapply exclusive_same_claims; [exact Hex|]. simpl.
    intros j b Hj sid Hb. apply nth_error_list_set in Hj.
    destruct Hj as [[<- ->]|[Hne Hj]]; [discriminate|eauto].
Qed.

(** The COMMIT of a claim. *)
Lemma advance_commit s i a sid now returned :
  consistent s -> nth_error (attempts s) i = Some a ->
  at_pc a = AtCommit sid now returned ->
  consistent
    (mkSystem
       (release i (mkStore (fst (update_claim (who a) sid now (rows (sys_store s))))
                           (locks (sys_store s))))
       (list_set i (mkAttempt (who a)
                      (Finished match returned with
                                | r :: _ => Claimed r
                                | [] => LostRace
                                end))
                 (attempts s))).
Proof.
  intros C Hi Hpc.
  pose proof (attempts_ok s C i a Hi) as Hme. unfold attempt_ok in Hme.
  rewrite Hpc in Hme. destruct Hme as (Hlock & Hpend & Hret).
  pose proof C as [Hnd Hheld Hoks Hex].
  constructor; simpl.
  - now apply nodup_fst_filter.
  - intros x j Hin.
    change (filter _ _) with
      (locks (release i (mkStore (fst (update_claim (who a) sid now (rows (sys_store s))))
                                 (locks (sys_store s))))) in Hin.
    apply in_release in Hin. simpl in Hin. destruct Hin as [Hin Hne].
    destruct (Hheld x j Hin) as (b & Hb & Htb).
    exists b. split; auto. rewrite nth_error_list_set_other; auto.
  - intros j b Hj. apply nth_error_list_set in Hj.
    destruct Hj as [[<- ->]|[Hne Hj]].
    + unfold attempt_ok; simpl. destruct returned as [|r ret]; simpl; auto.
      rewrite (Hret r (or_introl eq_refl)).
      apply update_claim_settles.
      destruct Hpend as (r0 & Hin0 & Hs0 & _). rewrite <- Hs0. now apply in_map.
    + specialize (Hoks j b Hj). unfold attempt_ok in *.
      destruct (at_pc b) as [| | | | r | sid' now' ret | | e | [r| | |e]]; simpl in *; auto.
      * apply filter_In. split; auto. simpl. apply negb_true_iff, Nat.eqb_neq. auto.
      * destruct Hoks as (Hl & Hp & Hr). repeat split; auto.
        -- apply filter_In. split; auto. simpl. apply negb_true_iff, Nat.eqb_neq. auto.
        -- apply update_claim_keeps_pending; auto.
           intros ->. apply Hne. eapply lock_owner_unique; eauto.
      * now apply update_claim_keeps_settled.
  - intros j k b c x Hj Hk Hb Hc.
    apply nth_error_list_set in Hj. apply nth_error_list_set in Hk.
    assert (Hclash : forall m d, m <> i -> nth_error (attempts s) m = Some d ->
              claimed_session d = Some x ->
              claimed_session (mkAttempt (who a)
                 (Finished match returned with r :: _ => Claimed r | [] => LostRace end))
                = Some x -> False).
    { intros m d Hm Hd Hcd Hca.
      unfold claimed_session in Hca; simpl in Hca.
      destruct returned as [|r ret]; [discriminate|]. injection Hca as Hx.
      rewrite (Hret r (or_introl eq_refl)) in Hx. subst x.
      pose proof (Hoks m d Hd) as Hd'. unfold attempt_ok in Hd'.
      unfold claimed_session in Hcd.
      destruct (at_pc d) as [| | | | ? | ? ? ? | | ? | [r'| | |?]]; try discriminate.
      injection Hcd as Hs. rewrite Hs in Hd'. destruct Hd' as [_ Hall].
      destruct Hpend as (r0 & Hin0 & Hs0 & Hp0).
      rewrite (Hall r0 Hin0 Hs0) in Hp0. discriminate. }
    destruct Hj as [[<- ->]|[Hnej Hj]], Hk as [[<- ->]|[Hnek Hk]]; auto.
    + exfalso. eapply (Hclash k c); eauto.
    + exfalso. eapply (Hclash j b); eauto.
    + eapply Hex; eauto.
Qed.

Ltac same_store Hpc :=
  apply advance_same_store; auto;
  try (rewrite Hpc; simpl; tauto);
  unfold attempt_ok; simpl; auto.

Lemma attempt_step_consistent s i a now fault st' p' :
  consistent s -> nth_error (attempts s) i = Some a ->
  attempt_step i (who a) now fault (sys_store s) (at_pc a) = (st', p') ->
  consistent (mkSystem st' (list_set i (mkAttempt (who a) p') (attempts s))).
Proof.
  intros C Hi Hstep.
  pose proof (attempts_ok s C i a Hi) as Hme. unfold attempt_ok in Hme.
  destruct (at_pc a) as [| | | | r | sid now' ret | | e | o] eqn:Hpc; simpl in Hstep.
  - (* AtConnect *)
    destruct fault; injection Hstep as <- <-; same_store Hpc.
  - destruct fault; injection Hstep as <- <-; same_store Hpc.
  - (* AtSelect *)
    destruct fault.
    + injection Hstep as <- <-. same_store Hpc.
    + destruct (select_pending _ _) as [|r l] eqn:Hsel; injection Hstep as <- <-.
      * same_store Hpc.
      * apply select_pending_sound in Hsel. destruct Hsel as (_ & _ & Hfree).
        now apply advance_select.
  - (* AtCommitEmpty *)
    destruct fault; injection Hstep as <- <-.
    + same_store Hpc.
    + apply advance_release; auto. discriminate.
  - (* AtUpdate *)
    destruct fault.
    + injection Hstep as <- <-. same_store Hpc.
    + destruct (Nat.ltb 0 _) eqn:Hrc; injection Hstep as <- <-.
      * same_store Hpc.
        split; [exact Hme|]. split.
        -- destruct (filter (claim_where (session_id r)) (rows (sys_store s)))
             as [|r0 l] eqn:E; [discriminate|].
           apply (update_claim_returned (who a) (session_id r) now
                    (rows (sys_store s)) (claim_set (who a) now r0)).
           unfold update_claim; simpl. rewrite E. now left.
        -- intros r1 Hin.
           apply (update_claim_returned (who a) (session_id r) now
                    (rows (sys_store s)) r1 Hin).
      * same_store Hpc.
  - (* AtCommit *)
    destruct fault; injection Hstep as <- <-.
    + same_store Hpc.
    + now apply advance_commit.
  - (* AtRollback *)
    destruct fault; injection Hstep as <- <-.
    + same_store Hpc.
    + apply advance_release; auto. discriminate.
  - (* AtCatch *)
    injection Hstep as <- <-. apply advance_release; auto. discriminate.
  - (* Finished *)
    injection Hstep as <- <-.
    replace (list_set i (mkAttempt (who a) (Finished o)) (attempts s)) with (attempts s).
    + destruct s as [st l]; exact C.
    + rewrite <- Hpc. destruct a as [u p]; simpl.
      clear -Hi. revert i Hi. induction (attempts s) as [|x l IH]; intros [|i] Hi; simpl in *;
        try discriminate; auto.
      * now injection Hi as ->.
      * f_equal; auto.
Qed.

Lemma act_consistent a s s' :
  consistent s -> act a s = Some s' -> consistent s'.
Proof.
  intros C Hact. destruct a as [u | i now fault | u st sc ro no sid now | r]; simpl in Hact.
  - (* Spawn *)
    injection Hact as <-. destruct C as [Hnd Hheld Hoks Hex].
    constructor; simpl; auto.
    + intros sid i Hin. destruct (Hheld sid i Hin) as (b & Hb & Htb).
      exists b. split; auto. rewrite nth_error_app1; auto.
      apply nth_error_Some. congruence.
    + intros i b Hi.
      destruct (Nat.lt_ge_cases i (List.length (attempts s))) as [Hlt|Hge].
      * rewrite nth_error_app1 in Hi by exact Hlt. auto.
      * rewrite nth_error_app2 in Hi by exact Hge.
        destruct (i - List.length (attempts s))%nat as [|[|k]]; simpl in Hi; try discriminate.
        injection Hi as <-. exact I.
    + eapply exclusive_same_claims; [exact Hex|]. simpl.
      intros i b Hi sid Hb.
      destruct (Nat.lt_ge_cases i (List.length (attempts s))) as [Hlt|Hge].
      * rewrite nth_error_app1 in Hi by exact Hlt. eauto.
      * rewrite nth_error_app2 in Hi by exact Hge.
        destruct (i - List.length (attempts s))%nat as [|[|k]]; simpl in Hi; try discriminate.
        injection Hi as <-. discriminate.
  - (* Advance *)
    destruct (nth_error (attempts s) i) as [a|] eqn:Hi; [|discriminate].
    destruct (attempt_step i (who a) now fault (sys_store s) (at_pc a)) as [st' p'] eqn:Hstep.
    injection Hact as <-. eapply attempt_step_consistent; eauto.
  - (* FinalizeBy *)
    destruct (is_final_status st && negb (is_locked (sys_store s) sid)) eqn:G; [|discriminate].
    injection Hact as <-. apply andb_true_iff in G. destruct G as [Hf Hl].
    apply negb_true_iff in Hl.
    apply consistent_rows_change; auto.
    + intros x. now apply update_finalize_keeps_settled.
    + intros x i Hin. apply update_finalize_keeps_pending.
      intros ->. eapply is_locked_false; eauto.
  - (* Enqueue *)
    destruct (existsb _ _) eqn:G; [discriminate|]. injection Hact as <-.
    apply consistent_rows_change; auto.
    + intros x Hs. destruct (settled_app _ r x Hs) as [|Heq]; auto.
      exfalso. destruct Hs as [Hk _].
      assert (existsb (Z.eqb (session_id r)) (map session_id (rows (sys_store s))) = true).
      { apply existsb_exists. exists x. split; auto. apply Z.eqb_eq. auto. }
      congruence.
    + intros x i _ (r0 & Hin & Hs & Hp). exists r0. repeat split; auto.
      apply in_or_app. now left.
Qed.

Lemma run_consistent schedule : forall s s',
  consistent s -> run schedule s = Some s' -> consistent s'.
Proof.
  induction schedule as [|a rest IH]; simpl; intros s s' C H.
  - now injection H as <-.
  - destruct (act a s) as [s1|] eqn:Ha; [|discriminate].
    eapply IH; [|exact H]. eapply act_consistent; eauto.
Qed.

(** * The Map *)

Lemma map_get_in k v m : map_get k m = Some v -> In (k, v) m.
Proof.
  induction m as [|[k' v'] m IH]; simpl; [discriminate|].
  destruct (Z.eqb_spec k' k) as [->|Hne].
  - intros H; injection H as ->. now left.
  - intros H. right. auto.
Qed.

Lemma in_map_get k v m : NoDup (map fst m) -> In (k, v) m -> map_get k m = Some v.
Proof.
  induction m as [|[k' v'] m IH]; simpl; [tauto|].
  intros Hnd Hin. inversion Hnd as [|? ? Hni Hnd']; subst.
  destruct Hin as [Heq|Hin].
  - injection Heq as -> ->. now rewrite Z.eqb_refl.
  - destruct (Z.eqb_spec k' k) as [->|Hne]; auto.
    exfalso. apply Hni. apply in_map_iff. exists (k, v). auto.
Qed.

Lemma map_get_none k m : map_get k m = None -> ~ In k (map fst m).
Proof.
  induction m as [|[k' v'] m IH]; simpl; [tauto|].
  destruct (Z.eqb_spec k' k) as [->|Hne]; [discriminate|].
  intros H [Heq|Hin]; [congruence|]. now apply IH.
Qed.

Lemma not_in_map_get k m : ~ In k (map fst m) -> map_get k m = None.
Proof.
  intros H. destruct (map_get k m) as [v|] eqn:E; auto.
  exfalso. apply H. apply map_get_in in E. apply in_map_iff. exists (k, v). auto.
Qed.

Lemma map_set_present k v m :
  NoDup (map fst m) -> In (k, v) m -> map_set k v m = m.
Proof.
  induction m as [|[k' v'] m IH]; simpl; [tauto|].
  intros Hnd Hin. inversion Hnd as [|? ? Hni Hnd']; subst.
  destruct Hin as [Heq|Hin].
  - injection Heq as -> ->. now rewrite Z.eqb_refl.
  - destruct (Z.eqb_spec k' k) as [->|Hne].
    + exfalso. apply Hni. apply in_map_iff. exists (k, v). auto.
    + f_equal. auto.
Qed.

Lemma map_set_fresh k v m : ~ In k (map fst m) -> map_set k v m = m ++ [(k, v)].
Proof.
  induction m as [|[k' v'] m IH]; simpl; auto.
  intros H. destruct (Z.eqb_spec k' k) as [->|Hne]; [tauto|].
  f_equal. apply IH. tauto.
Qed.

Lemma in_map_delete k e m : In e (map_delete k m) <-> In e m /\ fst e <> k.
Proof.
  unfold map_delete. rewrite filter_In, negb_true_iff, Z.eqb_neq. tauto.
Qed.

Lemma map_get_delete k m : map_get k (map_delete k m) = None.
Proof.
  apply not_in_map_get. intros H. apply in_map_iff in H.
  destruct H as (e & He & Hin). apply in_map_delete in Hin. tauto.
Qed.

Lemma nodup_snd_filter {A B} (f : A * B -> bool) (l : list (A * B)) :
  NoDup (map snd l) -> NoDup (map snd (filter f l)).
Proof.
  induction l as [|x l IH]; simpl; intros H; [constructor|].
  inversion H as [|? ? Hni Hnd]; subst.
  destruct (f x); simpl; auto.
  constructor; auto. intros Hin. apply Hni.
  apply in_map_iff in Hin. destruct Hin as (y & Hy & Hin).
  apply filter_In in Hin. apply in_map_iff. exists y. tauto.
Qed.

Lemma same_key (m : list (Z * nat)) k v v' :
  NoDup (map fst m) -> In (k, v) m -> In (k, v') m -> v = v'.
Proof.
  intros Hnd H1 H2. apply in_map_get in H1; auto. apply in_map_get in H2; auto.
  congruence.
Qed.

Lemma same_ref (m : list (Z * nat)) k k' v :
  NoDup (map snd m) -> In (k, v) m -> In (k', v) m -> k = k'.
Proof.
  induction m as [|[a b] m IH]; simpl; [tauto|].
  intros Hnd H1 H2. inversion Hnd as [|? ? Hni Hnd']; subst.
  destruct H1 as [H1|H1], H2 as [H2|H2].
  - congruence.
  - injection H1 as -> ->. exfalso. apply Hni. apply in_map_iff. exists (k', v). auto.
  - injection H2 as -> ->. exfalso. apply Hni. apply in_map_iff. exists (k, v). auto.
  - auto.
Qed.

Lemma remove_nth_in {A} k (l : list A) x : In x (remove_nth k l) -> In x l.
Proof.
  revert k; induction l as [|y l IH]; intros [|k]; simpl; auto.
  intros [->|H]; eauto.
Qed.

(** * Sessions in the map *)

Lemma get_session_in db w sid ref sd :
  sound (db, w) ->
  (get_session sid w = Some (ref, sd) <->
   In (sid, ref) (activeHelperSessions w) /\ nth_error (heap w) ref = Some sd).
Proof.
  intros S. unfold get_session. split.
  - destruct (map_get sid _) as [r|] eqn:E; [|discriminate].
    destruct (nth_error (heap w) r) as [sd'|] eqn:E'; [|discriminate].
    intros H; injection H as -> ->. split; auto. now apply map_get_in.
  - intros [Hin Hn]. rewrite (in_map_get sid ref); [now rewrite Hn|apply (keys_nodup _ S)|auto].
Qed.

Lemma get_session_none db w sid :
  sound (db, w) -> get_session sid w = None ->
  forall ref, ~ In (sid, ref) (activeHelperSessions w).
Proof.
  intros S H ref Hin.
  destruct (entries_ok _ S sid ref Hin) as (sd & Hn & _). simpl in Hn.
  assert (get_session sid w = Some (ref, sd)) by (eapply get_session_in; eauto).
  congruence.
Qed.

Lemma find_session_sound u c w sid ref sd :
  find_session u c w = Some (sid, ref, sd) ->
  In (sid, ref) (activeHelperSessions w) /\ nth_error (heap w) ref = Some sd.
Proof.
  unfold find_session. destruct (find _ _) as [[s r]|] eqn:E; [|discriminate].
  destruct (nth_error (heap w) r) as [x|] eqn:E'; [|discriminate].
  intros H; injection H as -> -> ->. split; auto.
  eapply find_some in E. tauto.
Qed.

Lemma route_sound msg w sid ref sd :
  route msg w = Some (sid, ref, sd) ->
  In (sid, ref) (activeHelperSessions w) /\ nth_error (heap w) ref = Some sd /\
  isShuttingDownHelper w = false /\ sid <> 0 /\ exists v, msg_dice msg = Some v.
Proof.
  unfold route. destruct (isShuttingDownHelper w); [discriminate|].
  destruct (msg_dice msg) as [v|]; [|discriminate].
  destruct (msg_from msg) as [f|]; [|discriminate].
  destruct (is_bot f); [discriminate|].
  destruct (find_session _ _ w) as [[[s r] x]|] eqn:E; [|discriminate].
  unfold falsy_number. destruct (Z.eqb_spec s 0); [discriminate|].
  intros H; injection H as -> -> ->.
  apply find_session_sound in E. destruct E. repeat split; eauto.
Qed.

(** * Keeping the runtime invariant *)

Lemma timer_of_live db w sid ref sd id :
  sound (db, w) -> In (sid, ref) (activeHelperSessions w) ->
  nth_error (heap w) ref = Some sd -> In (id, sid) (timers w) ->
  turnTimeoutId sd = Some id.
Proof.
  intros S Hin Hn Ht.
  destruct (timers_tracked _ S id sid Ht) as (_ & ref' & sd' & Hin' & Hn' & Hid).
  simpl in *. pose proof (same_key _ _ _ _ (keys_nodup _ S) Hin Hin') as <-.
  congruence.
Qed.

(** Nothing happens to the objects of live sessions; sessions, timers,
    closures may go, suspended calls may come. *)
Lemma sound_transfer db db' w w' :
  sound (db, w) ->
  (forall x, settled db x -> settled db' x) ->
  (forall ref sd, nth_error (heap w) ref = Some sd -> nth_error (heap w') ref = Some sd) ->
  NoDup (map fst (activeHelperSessions w')) ->
  NoDup (map snd (activeHelperSessions w')) ->
  (forall e, In e (activeHelperSessions w') -> In e (activeHelperSessions w)) ->
  NoDup (map fst (timers w')) ->
  (forall id s, In (id, s) (timers w') ->
     In (id, s) (timers w) /\ exists ref, In (s, ref) (activeHelperSessions w')) ->
  (next_timer w <= next_timer w')%nat ->
  (forall c, In c (sends w') -> In c (sends w)) ->
  (forall fc, In fc (finalizing w') ->
     In fc (finalizing w) \/
     (is_final_status (fc_finalStatus fc) = true /\
      forall ref, fc_sessionData fc = Some ref ->
        ~ In ref (map snd (activeHelperSessions w')) /\
        exists sd, nth_error (heap w') ref = Some sd /\
          session_id (sd_row sd) = fc_sessionId fc /\
          fc_finalRollsCombined fc =
            rolls_of (initial_rolls_json (sd_row sd)) ++ jackpot_run_rolls sd)) ->
  sound (db', w').
Proof.
  intros S Hdb Hheap Hk Hr Hsub Htn Ht Hnext Hs Hc.
  constructor; simpl; auto.
  - intros sid ref Hin. destruct (entries_ok _ S sid ref (Hsub _ Hin)) as (sd & Hn & Ho).
    exists sd. split; auto.
  - intros sid ref Hin. apply Hdb. exact (entries_settled _ S sid ref (Hsub _ Hin)).
  - intros id sid Hin. destruct (Ht id sid Hin) as (Hold & ref' & Hin').
    destruct (timers_tracked _ S id sid Hold) as (Hlt & ref & sd & Hm & Hn & Hid).
    simpl in *. split; [lia|].
    pose proof (same_key _ _ _ _ (keys_nodup _ S) Hm (Hsub _ Hin')) as ->.
    exists ref', sd. auto.
  - intros c Hin. destruct (sends_ok _ S c (Hs c Hin)) as [Hset Href]. simpl in *.
    split; auto.
  - intros fc Hin. destruct (Hc fc Hin) as [Hold|Hnew]; auto.
    destruct (calls_ok _ S fc Hold) as [Hf Href]. simpl in *. split; auto.
    intros ref E. destruct (Href ref E) as (Hni & sd & Hn & Hkey & Hrolls). split.
    + intros Hin'. apply Hni. apply in_map_iff in Hin'. destruct Hin' as (e & He & Hin').
      apply in_map_iff. exists e. auto.
    + exists sd. auto.
Qed.

(** The side conditions of [sound_transfer] for a step that keeps the Map
    and leaves the timers alone or cancels some of them. *)
Ltac framed S :=
  first
    [ apply (keys_nodup _ S)
    | apply (refs_nodup _ S)
    | apply (timers_nodup _ S)
    | apply nodup_fst_filter; apply (timers_nodup _ S)
    | let i := fresh "i" in
      let s := fresh "s" in
      let Hi := fresh "Hi" in
      intros i s Hi;
      try (apply filter_In in Hi; destruct Hi as [Hi _]);
      split; [exact Hi|];
      destruct (timers_tracked _ S i s Hi) as (_ & ? & ? & ? & _); eauto ].


(** The object of one live session is replaced by one with the same row,
    and its timer with it. *)
Lemma sound_object_update db w w' sid ref sd sd' :
  sound (db, w) ->
  In (sid, ref) (activeHelperSessions w) ->
  nth_error (heap w) ref = Some sd ->
  sd_row sd' = sd_row sd ->
  activeHelperSessions w' = activeHelperSessions w ->
  heap w' = list_set ref sd' (heap w) ->
  finalizing w' = finalizing w ->
  (forall c, In c (sends w') -> In c (sends w) \/ c = mkSend sid ref) ->
  NoDup (map fst (timers w')) ->
  (forall id s, In (id, s) (timers w') ->
     (id < next_timer w')%nat /\
     ((s <> sid /\ In (id, s) (timers w)) \/ (s = sid /\ turnTimeoutId sd' = Some id))) ->
  sound (db, w').
Proof.
  intros S Hin Hn Hrow Hm Hh Hf Hs Htn Ht.
  assert (Hlt : (ref < List.length (heap w))%nat) by (apply nth_error_Some; congruence).
  assert (Hother : forall r, r <> ref -> nth_error (heap w') r = nth_error (heap w) r).
  { intros r Hne. rewrite Hh. apply nth_error_list_set_other. auto. }
  assert (Hsame : nth_error (heap w') ref = Some sd').
  { rewrite Hh. now apply nth_error_list_set_same. }
  constructor; simpl.
  - rewrite Hm. apply (keys_nodup _ S).
  - rewrite Hm. apply (refs_nodup _ S).
  - rewrite Hm. intros s r Hi. destruct (entries_ok _ S s r Hi) as (x & Hx & Ho). simpl in *.
    destruct (Nat.eq_dec r ref) as [->|Hne].
    + exists sd'. split; auto. rewrite Hn in Hx. injection Hx as <-.
      unfold object_ok in *. now rewrite Hrow.
    + exists x. rewrite Hother; auto.
  - rewrite Hm. apply (entries_settled _ S).
  - exact Htn.
  - intros id s Hi. destruct (Ht id s Hi) as (Hl & [[Hne Hold]|[-> Hid]]); split; auto.
    + destruct (timers_tracked _ S id s Hold) as (_ & r & x & Hmr & Hx & Hxid). simpl in *.
      exists r, x. rewrite Hm. repeat split; auto. rewrite Hother; auto.
      intros ->. apply Hne. eapply same_ref; eauto. apply (refs_nodup _ S).
    + exists ref, sd'. rewrite Hm. auto.
  - intros c Hi. rewrite Hm. destruct (Hs c Hi) as [Hold| ->].
    + apply (sends_ok _ S c Hold).
    + simpl. split.
      * apply (entries_settled _ S sid ref Hin).
      * intros r Hr. eapply same_key; eauto. apply (keys_nodup _ S).
  - rewrite Hf, Hm. intros fc Hi. destruct (calls_ok _ S fc Hi) as [Hfs Href]. simpl in *.
    split; auto. intros r E. destruct (Href r E) as (Hni & x & Hx & Hrolls).
    split; auto. exists x. split; auto. rewrite Hother; auto.
    intros ->. apply Hni. apply in_map_iff. exists (sid, ref). auto.
Qed.

Lemma nodup_fst_app_fresh (l : list (nat * Z)) (n : nat) (s : Z) :
  NoDup (map fst l) -> (forall id x, In (id, x) l -> (id < n)%nat) ->
  NoDup (map fst (l ++ [(n, s)])).
Proof.
  intros Hnd Hlt. rewrite map_app. simpl.
  apply NoDup_app; auto.
  - constructor; [simpl; tauto|constructor].
  - intros a Ha [<-|[]]. apply in_map_iff in Ha. destruct Ha as ([id x] & He & Hin).
    simpl in He. subst. specialize (Hlt _ _ Hin). lia.
Qed.

(** ** finalizeJackpotSession *)

Lemma finalize_sound db w sid st sc rolls notes :
  sound (db, w) ->
  is_final_status st = true ->
  (forall ref sd, get_session sid w = Some (ref, sd) -> rolls = jackpot_run_rolls sd) ->
  sound (db, fst (finalizeJackpotSession sid st sc rolls notes w)).
Proof.
  intros S Hst Hrolls. unfold finalizeJackpotSession.
  set (w1 := match get_session sid w with
             | Some (_, sd) => match turnTimeoutId sd with
                               | Some id => clearTimeout id w
                               | None => w
                               end
             | None => w
             end).
  assert (Hw1 : botUsername w1 = botUsername w /\ heap w1 = heap w /\
                activeHelperSessions w1 = activeHelperSessions w /\
                next_timer w1 = next_timer w /\ sends w1 = sends w /\
                finalizing w1 = finalizing w /\
                NoDup (map fst (timers w1)) /\
                (forall id s, In (id, s) (timers w1) ->
                   In (id, s) (timers w) /\ s <> sid)).
  { subst w1. destruct (get_session sid w) as [[ref sd]|] eqn:G.
    - apply (get_session_in db) in G; auto. destruct G as [Hin Hn].
      destruct (turnTimeoutId sd) as [id|] eqn:Hid; simpl.
      + repeat split; auto.
        * apply nodup_fst_filter. apply (timers_nodup _ S).
        * apply filter_In in H. tauto.
        * intros ->. apply filter_In in H. destruct H as [H Hne]. simpl in Hne.
          pose proof (timer_of_live _ _ _ _ _ _ S Hin Hn H) as E.
          rewrite Hid in E. injection E as ->. rewrite Nat.eqb_refl in Hne. discriminate.
      + repeat split; auto.
        * apply (timers_nodup _ S).
        * intros ->. pose proof (timer_of_live _ _ _ _ _ _ S Hin Hn H). congruence.
    - repeat split; auto.
      + apply (timers_nodup _ S).
      + intros ->. destruct (timers_tracked _ S id sid H) as (_ & r & x & Hm & _).
        eapply get_session_none; eauto. }
  destruct Hw1 as (Hb & Hh & Hm & Hnx & Hse & Hfi & Htn & Hti).
  assert (Hdel : forall w', heap w' = heap w ->
            activeHelperSessions w' = map_delete sid (activeHelperSessions w) ->
            timers w' = timers w1 -> next_timer w' = next_timer w ->
            sends w' = sends w ->
            (forall fc, In fc (finalizing w') ->
               In fc (finalizing w) \/
               (is_final_status (fc_finalStatus fc) = true /\
                forall ref, fc_sessionData fc = Some ref ->
                  ~ In ref (map snd (activeHelperSessions w')) /\
                  exists sd, nth_error (heap w') ref = Some sd /\
                    session_id (sd_row sd) = fc_sessionId fc /\
                    fc_finalRollsCombined fc =
                      rolls_of (initial_rolls_json (sd_row sd)) ++ jackpot_run_rolls sd)) ->
            sound (db, w')).
  { intros w' Hh' Hm' Ht' Hn' Hs' Hc'.
    apply sound_transfer with (db := db) (w := w); auto.
    - intros ref sd. now rewrite Hh'.
    - rewrite Hm'. apply nodup_fst_filter. apply (keys_nodup _ S).
    - rewrite Hm'. apply nodup_snd_filter. apply (refs_nodup _ S).
    - rewrite Hm'. intros e He. apply in_map_delete in He. tauto.
    - now rewrite Ht'.
    - rewrite Ht'. intros id s Hin. destruct (Hti id s Hin) as [Hold Hne]. split; auto.
      destruct (timers_tracked _ S id s Hold) as (_ & r & x & Hmr & _). simpl in Hmr.
      exists r. rewrite Hm'. apply in_map_delete. auto.
    - lia.
    - intros c. now rewrite Hs'. }
  destruct (parse_rolls _) as [e|initialRolls] eqn:P; simpl.
  - apply Hdel; simpl; auto; try congruence.
    intros fc Hin. left. now rewrite <- Hfi.
  - apply Hdel; simpl; auto; try congruence.
    intros fc Hin. rewrite Hfi in Hin. apply in_app_or in Hin.
    destruct Hin as [Hin|[<-|[]]]; auto. right. simpl. split; auto.
    intros ref E. destruct (get_session sid w) as [[r sd]|] eqn:G; [|discriminate].
    simpl in E. injection E as ->.
    pose proof G as G'. apply (get_session_in db) in G'; auto. destruct G' as [Hin Hn].
    split.
    + rewrite Hm. intros Hr. apply in_map_iff in Hr. destruct Hr as ([k r] & <- & Hr).
      apply in_map_delete in Hr. destruct Hr as [Hr Hne]. simpl in *.
      apply Hne. eapply same_ref; eauto. apply (refs_nodup _ S).
    + exists sd. rewrite Hh. split; auto. split.
      * destruct (entries_ok _ S sid ref Hin) as (x & Hx & _ & Hkey).
        simpl in Hx. rewrite Hn in Hx. now injection Hx as <-.
      * rewrite (Hrolls _ _ eq_refl). f_equal.
        destruct (initial_rolls_json (sd_row sd)); simpl in *; congruence.
Qed.

Lemma list_set_same {A} (i : nat) (x : A) (l : list A) :
  nth_error l i = Some x -> list_set i x l = l.
Proof.
  revert i; induction l as [|y l IH]; intros [|i] H; simpl in *; try discriminate; auto.
  - now injection H as ->.
  - f_equal; auto.
Qed.

(** The timer of a live session is disarmed and its object replaced by one
    that knows no timer. *)
Lemma disarm_sound db w w' sid ref sd sd' :
  sound (db, w) ->
  In (sid, ref) (activeHelperSessions w) ->
  nth_error (heap w) ref = Some sd ->
  sd_row sd' = sd_row sd ->
  turnTimeoutId sd' = None ->
  activeHelperSessions w' = activeHelperSessions w ->
  heap w' = list_set ref sd' (heap w) ->
  finalizing w' = finalizing w ->
  sends w' = sends w ->
  next_timer w' = next_timer w ->
  timers w' = match turnTimeoutId sd with
              | Some id => filter (fun t => negb (Nat.eqb (fst t) id)) (timers w)
              | None => timers w
              end ->
  sound (db, w') /\ forall id, ~ In (id, sid) (timers w').
Proof.
  intros S Hin Hn Hrow Hnone Hm Hh Hf Hs Hnx Ht.
  assert (Hsub : forall id s, In (id, s) (timers w') -> In (id, s) (timers w) /\ s <> sid).
  { intros id s Hi. rewrite Ht in Hi. destruct (turnTimeoutId sd) as [id0|] eqn:E.
    - apply filter_In in Hi. destruct Hi as [Hi Hne]. split; auto. intros ->.
      pose proof (timer_of_live _ _ _ _ _ _ S Hin Hn Hi) as E'. rewrite E in E'.
      injection E' as ->. simpl in Hne. rewrite Nat.eqb_refl in Hne. discriminate.
    - split; auto. intros ->.
      pose proof (timer_of_live _ _ _ _ _ _ S Hin Hn Hi). congruence. }
  split.
  - eapply sound_object_update with (sid := sid) (sd' := sd'); eauto.
    + intros c Hc. left. now rewrite <- Hs.
    + rewrite Ht. destruct (turnTimeoutId sd); [apply nodup_fst_filter|]; apply (timers_nodup _ S).
    + intros id s Hi. destruct (Hsub id s Hi) as [Hold Hne]. split; auto.
      rewrite Hnx. apply (timers_tracked _ S id s Hold).
  - intros id Hi. destruct (Hsub id sid Hi). congruence.
Qed.

(** A timer is armed for a live session that has none. *)
Lemma arm_sound db w w' sid ref sd sd' :
  sound (db, w) ->
  In (sid, ref) (activeHelperSessions w) ->
  nth_error (heap w) ref = Some sd ->
  (forall id, ~ In (id, sid) (timers w)) ->
  sd_row sd' = sd_row sd ->
  turnTimeoutId sd' = Some (next_timer w) ->
  activeHelperSessions w' = activeHelperSessions w ->
  heap w' = list_set ref sd' (heap w) ->
  finalizing w' = finalizing w ->
  (forall c, In c (sends w') -> In c (sends w) \/ c = mkSend sid ref) ->
  next_timer w' = S (next_timer w) ->
  timers w' = timers w ++ [(next_timer w, sid)] ->
  sound (db, w').
Proof.
  intros S Hin Hn Hfree Hrow Hid Hm Hh Hf Hs Hnx Ht.
  eapply sound_object_update with (sid := sid) (sd' := sd'); eauto.
  - rewrite Ht. apply nodup_fst_app_fresh; [apply (timers_nodup _ S)|].
    intros id x Hi. apply (timers_tracked _ S id x Hi).
  - intros id s Hi. rewrite Ht in Hi. rewrite Hnx. apply in_app_or in Hi.
    destruct Hi as [Hi|[Heq|[]]].
    + split; [pose proof (timers_tracked _ S id s Hi) as [? _]; simpl in *; lia|].
      left. split; auto. intros ->. eapply Hfree; eauto.
    + injection Heq as <- <-. split; [lia|]. right. auto.
Qed.

(** A closure is added for a live session, nothing else. *)
Lemma closure_sound db w w' sid ref :
  sound (db, w) ->
  In (sid, ref) (activeHelperSessions w) ->
  activeHelperSessions w' = activeHelperSessions w ->
  heap w' = heap w ->
  finalizing w' = finalizing w ->
  (forall c, In c (sends w') -> In c (sends w) \/ c = mkSend sid ref) ->
  next_timer w' = next_timer w ->
  timers w' = timers w ->
  sound (db, w').
Proof.
  intros S Hin Hm Hh Hf Hs Hnx Ht.
  destruct (entries_ok _ S sid ref Hin) as (sd & Hn & _). simpl in Hn.
  eapply sound_object_update with (sid := sid) (sd := sd) (sd' := sd); eauto.
  - rewrite Hh. symmetry. now apply list_set_same.
  - rewrite Ht. apply (timers_nodup _ S).
  - intros id s Hi. rewrite Ht in Hi. rewrite Hnx.
    pose proof (timers_tracked _ S id s Hi) as [Hlt _]. split; auto.
    destruct (Z.eq_dec s sid) as [->|Hne]; [right|left]; auto.
    split; auto. eapply timer_of_live; eauto.
Qed.

(** ** sendJackpotRunUpdate *)

Lemma send_update_sound db w sid last :
  sound (db, w) -> sound (db, fst (sendJackpotRunUpdate sid last w)).
Proof.
  intros S. unfold sendJackpotRunUpdate.
  destruct (get_session sid w) as [[ref sd]|] eqn:G; [|exact S].
  apply (get_session_in db) in G; auto. destruct G as [Hin Hn].
  set (sd0 := mkSession (sd_row sd) (jackpot_run_rolls sd) (jackpot_run_score sd)
                        (current_total_score sd) None (initial_rolls_parsed sd)).
  set (w1 := match turnTimeoutId sd with
             | Some id => set_object ref sd0 (clearTimeout id w)
             | None => w
             end).
  assert (H1 : sound (db, w1) /\ (forall id, ~ In (id, sid) (timers w1)) /\
               nth_error (heap w1) ref = Some sd0 /\
               activeHelperSessions w1 = activeHelperSessions w /\
               next_timer w1 = next_timer w).
  { subst w1. destruct (turnTimeoutId sd) as [id|] eqn:E.
    - destruct (disarm_sound db w (set_object ref sd0 (clearTimeout id w)) sid ref sd sd0)
        as [S1 F1]; auto.
      + simpl. now rewrite E.
      + split; [exact S1|]. split; [exact F1|]. split; [|split; reflexivity].
        simpl. apply nth_error_list_set_same.
        apply nth_error_Some. congruence.
    - split; [exact S|]. split; [|split; [|split; reflexivity]].
      + intros id Hi. pose proof (timer_of_live _ _ _ _ _ _ S Hin Hn Hi). congruence.
      + rewrite Hn. f_equal. subst sd0. destruct sd; simpl in *. congruence. }
  clearbody w1. destruct H1 as (S1 & F1 & Hn1 & Hm1 & Hnx1).
  assert (Hin1 : In (sid, ref) (activeHelperSessions w1)) by now rewrite Hm1.
  destruct (js_BigInt _) as [lamports|]; [|exact S1].
  pose proof (map_set_present sid ref _ (keys_nodup _ S1) Hin1) as Hset. simpl in Hset.
  destruct (is_active (sd_row sd)); simpl.
  - eapply arm_sound with (w := w1) (sid := sid) (sd := sd0)
      (sd' := mkSession (sd_row sd) (jackpot_run_rolls sd) (jackpot_run_score sd)
                        (current_total_score sd) (Some (next_timer w1))
                        (initial_rolls_parsed sd)); eauto; simpl; auto.
    intros c Hc. apply in_app_or in Hc. destruct Hc as [Hc|[<-|[]]]; auto.
  - eapply closure_sound with (w := w1) (sid := sid); eauto; simpl; auto.
    intros c Hc. apply in_app_or in Hc. destruct Hc as [Hc|[<-|[]]]; auto.
Qed.

(** ** The dice handler *)

Lemma take_in_sound db w msg sid ref sd v :
  sound (db, w) ->
  In (sid, ref) (activeHelperSessions w) ->
  nth_error (heap w) ref = Some sd ->
  sound (db, take_in msg ref sd v w) /\
  (forall id, ~ In (id, sid) (timers (take_in msg ref sd v w))) /\
  get_session sid (take_in msg ref sd v w) = Some (ref, add_roll v sd).
Proof.
  intros S Hin Hn.
  destruct (disarm_sound db w (take_in msg ref sd v w) sid ref sd (add_roll v sd))
    as [S1 F1]; auto.
  - unfold take_in. destruct (turnTimeoutId sd); reflexivity.
  - unfold take_in. destruct (turnTimeoutId sd); reflexivity.
  - unfold take_in. destruct (turnTimeoutId sd); reflexivity.
  - unfold take_in. destruct (turnTimeoutId sd); reflexivity.
  - unfold take_in. destruct (turnTimeoutId sd); reflexivity.
  - unfold take_in. destruct (turnTimeoutId sd); reflexivity.
  - split; [exact S1|]. split; [exact F1|].
    apply (get_session_in db); auto. split.
    + unfold take_in. destruct (turnTimeoutId sd); exact Hin.
    + unfold take_in. destruct (turnTimeoutId sd); simpl;
        apply nth_error_list_set_same; apply nth_error_Some; congruence.
Qed.

Lemma on_message_sound db w msg :
  sound (db, w) -> sound (db, fst (on_message msg w)).
Proof.
  intros S. unfold on_message.
  destruct (route msg w) as [[[sid ref] sd]|] eqn:R; [|exact S].
  destruct (msg_dice msg) as [v|]; [|exact S].
  apply route_sound in R. destruct R as (Hin & Hn & _).
  destruct (take_in_sound db w msg sid ref sd v S Hin Hn) as (S3 & F3 & G3).
  destruct (js_strict_eq _ _).
  - apply finalize_sound; auto. intros r x Hx. rewrite G3 in Hx. now injection Hx as _ <-.
  - destruct (js_ge _ _).
    + apply finalize_sound; auto. intros r x Hx. rewrite G3 in Hx. now injection Hx as _ <-.
    + replace (with_sessions _ _) with (take_in msg ref sd v w).
      * now apply send_update_sound.
      * assert (Hin3 : In (sid, ref) (activeHelperSessions (take_in msg ref sd v w))).
        { apply (get_session_in db) in G3; tauto. }
        assert (Es : map_set sid ref (activeHelperSessions (take_in msg ref sd v w))
                     = activeHelperSessions (take_in msg ref sd v w))
          by (apply map_set_present; [apply (keys_nodup _ S3)|exact Hin3]).
        rewrite Es.
        destruct (take_in msg ref sd v w); reflexivity.
Qed.

(** ** The turn timeout *)

Lemma on_timeout_sound db w id :
  sound (db, w) -> sound (db, fst (on_timeout id w)).
Proof.
  intros S. unfold on_timeout.
  destruct (find _ (timers w)) as [[i sid]|] eqn:F; [|exact S].
  set (w1 := with_timers _ _ w).
  assert (S1 : sound (db, w1)).
  { apply sound_transfer with (db := db) (w := w); subst w1; simpl; auto; try framed S. }
  clearbody w1. unfold handleJackpotRunTurnTimeout.
  destruct (get_session sid w1) as [[ref sd]|] eqn:G; [|exact S1].
  destruct (negb _); [exact S1|].
  apply finalize_sound; auto. intros r x Hx. rewrite G in Hx. now injection Hx as _ <-.
Qed.

(** ** The outcome of a delivery *)

Lemma on_delivery_sound db w k result :
  sound (db, w) -> sound (db, fst (on_delivery k result w)).
Proof.
  intros S. unfold on_delivery.
  destruct (nth_error (sends w) k) as [c|] eqn:E; [|exact S].
  set (w1 := with_sends _ w).
  assert (S1 : sound (db, w1)).
  { apply sound_transfer with (db := db) (w := w); subst w1; simpl; auto; try framed S.
    intros c'. apply remove_nth_in. }
  assert (Hc : forall ref, In (sc_sessionId c, ref) (activeHelperSessions w1) ->
                           ref = sc_sessionData c).
  { apply nth_error_In in E. apply (sends_ok _ S c E). }
  clearbody w1.
  destruct result as [err|]; [|exact S1].
  destruct (fatal_delivery err); [|exact S1].
  destruct (nth_error (heap w1) (sc_sessionData c)) as [sd|] eqn:Hn; [|exact S1].
  apply finalize_sound; auto. intros r x Hx.
  apply (get_session_in db) in Hx; auto. destruct Hx as [Hin Hx].
  rewrite (Hc r Hin) in Hx. congruence.
Qed.

(** ** The suspended UPDATE *)

Lemma finalize_write_sound s k fault now :
  sound s -> sound (finalize_write k fault now s).
Proof.
  destruct s as [db w]. intros S. unfold finalize_write.
  destruct (nth_error (finalizing w) k) as [fc|] eqn:E; [|exact S].
  assert (Hst : is_final_status (fc_finalStatus fc) = true).
  { apply nth_error_In in E. apply (calls_ok _ S fc E). }
  assert (H : forall db' w', (forall x, settled db x -> settled db' x) ->
            heap w' = heap w -> activeHelperSessions w' = activeHelperSessions w ->
            timers w' = timers w -> next_timer w' = next_timer w ->
            sends w' = sends w -> finalizing w' = remove_nth k (finalizing w) ->
            sound (db', w')).
  { intros db' w' Hdb Hh Hm Ht Hn Hs Hf.
    apply sound_transfer with (db := db) (w := w); auto.
    - intros ref sd. now rewrite Hh.
    - rewrite Hm. apply (keys_nodup _ S).
    - rewrite Hm. apply (refs_nodup _ S).
    - now rewrite Hm.
    - rewrite Ht. apply (timers_nodup _ S).
    - rewrite Ht, Hm. intros i s Hi. split; auto.
      destruct (timers_tracked _ S i s Hi) as (_ & r & x & Hx & _). eauto.
    - lia.
    - now rewrite Hs.
    - rewrite Hf. intros fc' Hi. left. eapply remove_nth_in; eauto. }
  destruct fault as [e|].
  - apply H; auto.
  - destruct (update_finalize _ _ _ _ _ _ _ db) as [db' rc] eqn:U.
    assert (Hdb : forall x, settled db x -> settled db' x).
    { intros x Hx. replace db' with (fst (update_finalize (fc_finalStatus fc)
          (fc_finalOverallScore fc) (fc_finalRollsCombined fc) (fc_outcomeNotesStr fc)
          (fc_sessionId fc) (botUsername w) now db)) by now rewrite U.
      now apply update_finalize_keeps_settled. }
    destruct (Nat.ltb 0 rc); [|apply H; auto].
    destruct (fc_sessionData fc) as [ref|]; [|apply H; auto].
    destruct (nth_error (heap w) ref); apply H; auto.
Qed.

(** ** Shutdown *)

Lemma shutdown_sound db w : sound (db, w) -> sound (db, shutdownHelper w).
Proof.
  intros S. unfold shutdownHelper. destruct (isShuttingDownHelper w); [exact S|].
  apply sound_transfer with (db := db) (w := w); simpl; auto; try framed S.
Qed.

(** * One attempt run on its own *)

Lemma attempt_step_alone u now t fault st p :
  alone u now t (st, p) -> alone u now t (attempt_step 0 u now fault st p).
Proof.
  unfold alone. destruct p as [| | | | r | sid now' ret | | e | o];
    cbn [snd fst]; unfold attempt_step;
    try (destruct fault; cbn [snd fst]; auto; fail).
  - destruct fault; cbn [snd fst]; auto.
    destruct (select_pending _ _); cbn [snd fst rows]; auto.
  - intros H. destruct fault; cbn [snd fst]; auto.
    destruct (Nat.ltb 0 _) eqn:E; cbn [snd fst]; auto.
    rewrite H in *. repeat split; auto.
    intros Hnil. rewrite Hnil in E. discriminate.
  - intros (H & -> & -> & Hne). destruct fault; cbn [snd fst]; auto.
    destruct (snd (update_claim u sid now t)) as [|r l] eqn:E; [congruence|].
    exists sid. cbn [release rows]. rewrite H, E. split; auto. now left.
Qed.

Lemma steps_alone u now t faults n : forall k c,
  alone u now t c -> alone u now t (steps u now faults k n c).
Proof.
  induction n as [|n IH]; simpl; intros k c H; auto.
  apply IH. destruct c as [st p]. now apply attempt_step_alone.
Qed.

Lemma attempt_step_ahead me u now fault st p :
  (ahead (snd (attempt_step me u now fault st p)) <= ahead p - 1)%nat.
Proof.
  destruct p; simpl; try (destruct fault; simpl; lia).
  - destruct fault; simpl; try lia. destruct (select_pending _ _); simpl; lia.
  - destruct fault; simpl; try lia. destruct (Nat.ltb 0 _); simpl; lia.
Qed.

Lemma steps_ahead u now faults n : forall k c,
  (ahead (snd (steps u now faults k n c)) <= ahead (snd c) - n)%nat.
Proof.
  induction n as [|n IH]; simpl; intros k c; [lia|].
  etransitivity; [apply IH|].
  pose proof (attempt_step_ahead 0 u now (faults k) (fst c) (snd c)). lia.
Qed.

(** Six awaits are enough: the attempt always comes to an end. *)
Lemma claim_attempt_finishes env u t :
  exists st o,
    steps u (ae_now env) (ae_faults env) 0 6
          (mkStore t (map (fun sid => (sid, 1%nat)) (ae_locked env)), AtConnect)
    = (st, Finished o) /\ claim_attempt env u t = (rows st, o).
Proof.
  unfold claim_attempt.
  pose proof (steps_ahead u (ae_now env) (ae_faults env) 6 0
               (mkStore t (map (fun sid => (sid, 1%nat)) (ae_locked env)), AtConnect)) as H.
  destruct (steps _ _ _ _ _ _) as [st p]. simpl in H.
  destruct p; simpl in H; try lia. exists st, o. auto.
Qed.

Lemma claim_attempt_spec env u t t' o :
  claim_attempt env u t = (t', o) ->
  (forall x, settled t x -> settled t' x) /\
  match o with
  | Claimed r =>
      has_pending t (session_id r) /\ settled t' (session_id r) /\
      is_active r = true /\ helper_bot_id r = Some u /\
      t' = fst (update_claim u (session_id r) (ae_now env) t)
  | _ => t' = t
  end.
Proof.
  intros H. destruct (claim_attempt_finishes env u t) as (st & o' & Hs & Hc).
  rewrite H in Hc. injection Hc as -> <-.
  pose proof (steps_alone u (ae_now env) t (ae_faults env) 6 0
                (mkStore t (map (fun sid => (sid, 1%nat)) (ae_locked env)), AtConnect)
                eq_refl) as A.
  rewrite Hs in A. unfold alone in A. simpl in A.
  destruct o as [r| | |e]; try (split; [intros x; now rewrite A|exact A]).
  destruct A as (sid & Hr & Hin).
  destruct (update_claim_returned _ _ _ _ _ Hin) as (Hsid & Hact & Hown & Hpen).
  subst sid. rewrite Hr. split.
  - intros x. apply update_claim_keeps_settled.
  - split; [exact Hpen|]. split; [|auto].
    apply update_claim_settles.
    destruct Hpen as (r0 & Hin0 & <- & _). now apply in_map.
Qed.

(** * Claiming keeps the runtime invariant *)

Lemma ref_in_heap db w sid ref :
  sound (db, w) -> In (sid, ref) (activeHelperSessions w) ->
  (ref < List.length (heap w))%nat.
Proof.
  intros S Hin. destruct (entries_ok _ S sid ref Hin) as (sd & Hn & _).
  apply nth_error_Some. simpl in Hn. congruence.
Qed.

Lemma not_settled_not_live db w sid :
  sound (db, w) -> has_pending db sid -> ~ In sid (map fst (activeHelperSessions w)).
Proof.
  intros S (r & Hin & Hs & Hp) Hk. apply in_map_iff in Hk.
  destruct Hk as ([k ref] & <- & Hk). simpl in *.
  destruct (entries_settled _ S k ref Hk) as [_ Hall]. simpl in Hall.
  rewrite (Hall r Hin Hs) in Hp. discriminate.
Qed.

(** A claimed session enters the map with a new object. *)
Lemma register_sound db db' w r w1 :
  sound (db, w) ->
  (forall x, settled db x -> settled db' x) ->
  has_pending db (session_id r) ->
  settled db' (session_id r) ->
  is_active r = true ->
  js_BigInt (jackpot_pool_at_session_start r) <> None ->
  register r w = inr w1 ->
  sound (db', w1).
Proof.
  intros S Hdb Hpen Hset Hact Hbig Hreg. unfold register in Hreg.
  destruct (parse_rolls (initial_rolls_json r)) as [e|parsed] eqn:P; [discriminate|].
  injection Hreg as <-.
  pose proof (not_settled_not_live _ _ _ S Hpen) as Hfresh.
  rewrite (map_set_fresh _ _ _ Hfresh).
  set (sd := mkSession r [] 0 (js_parseInt (initial_score r)) None parsed).
  assert (Hold : forall ref x, nth_error (heap w) ref = Some x ->
                               nth_error (heap w ++ [sd]) ref = Some x).
  { intros ref x Hx. rewrite nth_error_app1; auto. apply nth_error_Some. congruence. }
  constructor; simpl.
  - rewrite map_app. simpl. apply NoDup_app; [apply (keys_nodup _ S)|repeat constructor; simpl; tauto|].
    intros a Ha [<-|[]]. auto.
  - rewrite map_app. simpl. apply NoDup_app; [apply (refs_nodup _ S)|repeat constructor; simpl; tauto|].
    intros a Ha [<-|[]]. apply in_map_iff in Ha. destruct Ha as ([k ref] & Hk & Ha).
    simpl in Hk. subst ref. pose proof (ref_in_heap _ _ _ _ S Ha). lia.
  - intros sid ref Hin. apply in_app_or in Hin. destruct Hin as [Hin|[Heq|[]]].
    + destruct (entries_ok _ S sid ref Hin) as (x & Hx & Ho). exists x. auto.
    + injection Heq as <- <-. exists sd. split.
      * rewrite nth_error_app2 by lia. now rewrite Nat.sub_diag.
      * unfold object_ok; simpl. repeat split; auto.
        destruct (initial_rolls_json r); simpl in P; congruence.
  - intros sid ref Hin. apply in_app_or in Hin. destruct Hin as [Hin|[Heq|[]]].
    + apply Hdb. apply (entries_settled _ S sid ref Hin).
    + now injection Heq as <- <-.
  - apply (timers_nodup _ S).
  - intros id sid Hin. destruct (timers_tracked _ S id sid Hin) as (Hlt & ref & x & Hm & Hx & Hid).
    split; auto. exists ref, x. simpl in *. repeat split; auto. apply in_or_app. now left.
  - intros c Hin. destruct (sends_ok _ S c Hin) as [Hs Href]. simpl in *. split; auto.
    intros ref Hr. apply in_app_or in Hr. destruct Hr as [Hr|[Heq|[]]]; auto.
    injection Heq as Heq _. exfalso.
    destruct Hpen as (r0 & Hin0 & Hs0 & Hp0). destruct Hs as [_ Hall].
    rewrite (Hall r0 Hin0) in Hp0; congruence.
  - intros fc Hin. destruct (calls_ok _ S fc Hin) as [Hf Href]. simpl in *. split; auto.
    intros ref E. destruct (Href ref E) as (Hni & x & Hx & Hrolls). split.
    + rewrite map_app. simpl. intros Hi. apply in_app_or in Hi.
      destruct Hi as [Hi|[<-|[]]]; auto.
      assert (List.length (heap w) < List.length (heap w))%nat; [|lia].
      apply nth_error_Some. congruence.
    + exists x. auto.
Qed.

(** A claimed session whose opening prompt fails is finalized at once. *)
Lemma failed_opening_sound db db' w r w1 st sc notes :
  sound (db, w) ->
  (forall x, settled db x -> settled db' x) ->
  has_pending db (session_id r) ->
  is_final_status st = true ->
  register r w = inr w1 ->
  sound (db', fst (finalizeJackpotSession (session_id r) st sc [] notes w1)).
Proof.
  intros S Hdb Hpen Hst Hreg. unfold register in Hreg.
  destruct (parse_rolls (initial_rolls_json r)) as [e|parsed] eqn:P; [discriminate|].
  injection Hreg as <-.
  pose proof (not_settled_not_live _ _ _ S Hpen) as Hfresh.
  set (sd := mkSession r [] 0 (js_parseInt (initial_score r)) None parsed).
  assert (G : get_session (session_id r)
                (with_sessions (map_set (session_id r) (List.length (heap w))
                                        (activeHelperSessions w))
                               (with_heap (heap w ++ [sd]) w))
              = Some (List.length (heap w), sd)).
  { unfold get_session; simpl. rewrite (map_set_fresh _ _ _ Hfresh).
    assert (E : map_get (session_id r)
                  (activeHelperSessions w ++ [(session_id r, List.length (heap w))])
                = Some (List.length (heap w))).
    { clear -Hfresh. induction (activeHelperSessions w) as [|[k v] m IH]; simpl.
      - now rewrite Z.eqb_refl.
      - simpl in Hfresh. destruct (Z.eqb_spec k (session_id r)); [tauto|]. apply IH. tauto. }
    rewrite E, nth_error_app2 by lia. now rewrite Nat.sub_diag. }
  unfold finalizeJackpotSession. rewrite G. cbn [turnTimeoutId sd].
  assert (D : map_delete (session_id r)
                (map_set (session_id r) (List.length (heap w)) (activeHelperSessions w))
              = activeHelperSessions w).
  { rewrite (map_set_fresh _ _ _ Hfresh). unfold map_delete. rewrite filter_app. simpl.
    rewrite Z.eqb_refl. simpl. rewrite app_nil_r.
    clear -Hfresh. induction (activeHelperSessions w) as [|[k v] m IH]; simpl; auto.
    simpl in Hfresh. destruct (Z.eqb_spec k (session_id r)); [tauto|]. simpl.
    f_equal. apply IH. tauto. }
  cbn [sd_row sd]. rewrite P. cbn [fst].
  apply sound_transfer with (db := db) (w := w); simpl; auto.
  - intros ref x Hx. rewrite nth_error_app1; auto. apply nth_error_Some. congruence.
  - rewrite D. apply (keys_nodup _ S).
  - rewrite D. apply (refs_nodup _ S).
  - rewrite D. auto.
  - apply (timers_nodup _ S).
  - rewrite D. intros id s Hi. split; auto.
    destruct (timers_tracked _ S id s Hi) as (_ & ref & x & Hm & _). eauto.
  - rewrite D. intros fc Hin. apply in_app_or in Hin. destruct Hin as [Hin|[<-|[]]]; auto.
    right. simpl. split; auto. intros ref E. injection E as <-. split.
    + intros Hi. apply in_map_iff in Hi. destruct Hi as ([k v] & Hv & Hi). simpl in Hv.
      subst v. pose proof (ref_in_heap _ _ _ _ S Hi). lia.
    + exists sd. split.
      * rewrite nth_error_app2 by lia. now rewrite Nat.sub_diag.
      * subst sd. simpl. split; [reflexivity|]. rewrite !app_nil_r.
        destruct (initial_rolls_json r); simpl in *; congruence.
Qed.

Lemma send_update_throws sid last w w' e :
  sendJackpotRunUpdate sid last w = (w', Some e) ->
  exists ref sd, get_session sid w = Some (ref, sd) /\
    js_BigInt (jackpot_pool_at_session_start (sd_row sd)) = None /\
    w' = match turnTimeoutId sd with
         | Some id =>
             set_object ref
               (mkSession (sd_row sd) (jackpot_run_rolls sd) (jackpot_run_score sd)
                          (current_total_score sd) None (initial_rolls_parsed sd))
               (clearTimeout id w)
         | None => w
         end.
Proof.
  unfold sendJackpotRunUpdate.
  destruct (get_session sid w) as [[ref sd]|]; [|discriminate].
  destruct (js_BigInt _) eqn:B.
  - destruct (is_active (sd_row sd)); discriminate.
  - intros H. injection H as <- _. exists ref, sd. auto.
Qed.

Lemma register_get r w w1 :
  ~ In (session_id r) (map fst (activeHelperSessions w)) ->
  register r w = inr w1 ->
  exists parsed,
    get_session (session_id r) w1
    = Some (List.length (heap w),
            mkSession r [] 0 (js_parseInt (initial_score r)) None parsed).
Proof.
  intros Hfresh Hreg. unfold register in Hreg.
  destruct (parse_rolls (initial_rolls_json r)) as [e|parsed]; [discriminate|].
  injection Hreg as <-. exists parsed.
  unfold get_session; simpl. rewrite (map_set_fresh _ _ _ Hfresh).
  assert (E : map_get (session_id r)
                (activeHelperSessions w ++ [(session_id r, List.length (heap w))])
              = Some (List.length (heap w))).
  { clear -Hfresh. induction (activeHelperSessions w) as [|[k v] m IH]; simpl.
    - now rewrite Z.eqb_refl.
    - simpl in Hfresh. destruct (Z.eqb_spec k (session_id r)); [tauto|]. apply IH. tauto. }
  rewrite E, nth_error_app2 by lia. now rewrite Nat.sub_diag.
Qed.

Lemma opening_sound db db' w r w1 :
  sound (db, w) ->
  (forall x, settled db x -> settled db' x) ->
  has_pending db (session_id r) ->
  settled db' (session_id r) ->
  is_active r = true ->
  register r w = inr w1 ->
  sound (db', opening_prompt r w1).
Proof.
  intros S Hdb Hpen Hset Hact Hreg. unfold opening_prompt.
  pose proof (not_settled_not_live _ _ _ S Hpen) as Hfresh.
  destruct (register_get r w w1 Hfresh Hreg) as (parsed & G).
  destruct (sendJackpotRunUpdate (session_id r) None w1) as [w' [e|]] eqn:E.
  - apply send_update_throws in E. destruct E as (ref & sd & G' & B & ->).
    rewrite G in G'. injection G' as <- <-. simpl.
    eapply failed_opening_sound; eauto.
  - destruct (js_BigInt (jackpot_pool_at_session_start r)) as [lamports|] eqn:B.
    + assert (S1 : sound (db', w1)).
      { eapply register_sound; eauto. congruence. }
      pose proof (send_update_sound db' w1 (session_id r) None S1) as S2.
      now rewrite E in S2.
    + exfalso. unfold sendJackpotRunUpdate in E. rewrite G in E. simpl in E.
      rewrite B in E. discriminate.
Qed.

(** ** The loop *)

Lemma claim_loop_unfold script n remaining db w :
  claim_loop script n (S remaining) (db, w) =
  let i := (n - S remaining)%nat in
  if isShuttingDownHelper w then ((db, w), Returned)
  else
    let (db', o) := claim_attempt (script i) (botUsername w) db in
    match o with
    | NoPending => ((db', w), Returned)
    | Claimed claimedSessionData =>
        match register claimedSessionData w with
        | inl e => ((db', w), Threw e)
        | inr w1 =>
            let w2 := opening_prompt claimedSessionData w1 in
            if Nat.ltb 1 n && Nat.ltb i (n - 1)
            then ((db', w2), Threw (not_defined "sleep"))
            else claim_loop script n remaining (db', w2)
        end
    | LostRace | Failed _ => ((db', w), Threw (not_defined "selectRes"))
    end.
Proof. reflexivity. Qed.

Lemma claim_loop_sound script n : forall remaining s,
  sound s -> sound (fst (claim_loop script n remaining s)).
Proof.
  induction remaining as [|rem IH]; intros [db w] S; [exact S|].
  rewrite claim_loop_unfold. cbv zeta.
  destruct (isShuttingDownHelper w); auto.
  destruct (claim_attempt _ _ db) as [db' o] eqn:A.
  apply claim_attempt_spec in A. destruct A as [Hdb Ho].
  assert (Skeep : sound (db', w)).
  { apply sound_transfer with (db := db) (w := w); auto; try framed S. }
  destruct o as [r| | |e]; simpl; auto.
  destruct Ho as (Hpen & Hset & Hact & _).
  destruct (register r w) as [e|w1] eqn:R; simpl; auto.
  pose proof (opening_sound db db' w r w1 S Hdb Hpen Hset Hact R) as S2.
  destruct (_ && _); simpl; auto.
Qed.

Lemma poll_sound max script s :
  sound s -> sound (fst (checkAndInitiateJackpotSessions max script s)).
Proof.
  intros S. unfold checkAndInitiateJackpotSessions.
  destruct (isShuttingDownHelper _); auto.
  destruct (Z.leb max _); auto.
  destruct (Z.leb _ 0); auto.
  now apply claim_loop_sound.
Qed.

(** ** Every turn of the event loop *)

Lemma handle_sound max e s : sound s -> allowed e s -> sound (handle max e s).
Proof.
  intros S A. destruct s as [db w]. destruct e; unfold handle; cbn [fst snd].
  - apply sound_transfer with (db := db) (w := w); simpl; auto; try framed S.
  - now apply poll_sound.
  - now apply on_message_sound.
  - now apply on_timeout_sound.
  - now apply on_delivery_sound.
  - now apply finalize_write_sound.
  - now apply shutdown_sound.
  - simpl in A. apply sound_transfer with (db := db) (w := w); auto; try framed S.
Qed.

Lemma fresh_sound db name : sound (db, fresh_worker name).
Proof.
  constructor; simpl; try constructor; intros; contradiction.
Qed.

Lemma reachable_sound max db name s :
  reachable max (db, fresh_worker name) s -> sound s.
Proof.
  induction 1.
  - apply fresh_sound.
  - now apply handle_sound.
Qed.

(** * The claim protocol *)

Lemma contend_settled callers sid t :
  (forall r, In r t -> session_id r = sid -> is_pending r = false) ->
  contend callers sid t = (t, repeat 0%nat (List.length callers)).
Proof.
  intros H. induction callers as [|[u now] rest IH]; cbn [contend]; auto.
  rewrite (update_claim_settled_noop u sid now t H), IH. reflexivity.
Qed.

Lemma contend_one_winner callers sid t :
  keyed t -> has_pending t sid -> callers <> [] ->
  snd (contend callers sid t) = 1%nat :: repeat 0%nat (List.length callers - 1).
Proof.
  intros Hk Hp Hne. destruct callers as [|[u now] rest]; [congruence|].
  cbn [contend].
  destruct (update_claim_one_row u sid now t Hk Hp) as (r & Hin & E).
  destruct (update_claim u sid now t) as [t1 ret] eqn:U. simpl in E. subst ret.
  assert (Hs : settled t1 sid).
  { replace t1 with (fst (update_claim u sid now t)) by now rewrite U.
    apply update_claim_settles. destruct Hp as (r0 & Hin0 & <- & _). now apply in_map. }
  rewrite (contend_settled rest sid t1 (proj2 Hs)). simpl.
  now rewrite Nat.sub_0_r.
Qed.

Lemma update_on_settled_rolls_back i u now st r :
  settled (rows st) (session_id r) ->
  attempt_step i u now None st (AtUpdate r) = (st, AtRollback).
Proof.
  intros [_ H]. unfold attempt_step.
  now rewrite (update_claim_settled_noop u (session_id r) now (rows st) H).
Qed.

(** C1. Exclusivity of the claim.  However the awaited store calls of any
    number of claim attempts, by any helpers, interleave with each other,
    with finalizing writes and with new rows being enqueued: no two
    attempts come back with the same session, and a session an attempt came
    back with has left the queue for good.  The conditional UPDATE decides
    it: on any store, an attempt whose UPDATE meets a session already taken
    sees zero rows and rolls back; and when several callers issue it for one
    queued session, the first the store serialises affects exactly one row
    and every other one affects none. *)
Theorem claim_exclusivity (t : table) (schedule : list action) (s : system) :
  run schedule (init t) = Some s ->
  exclusive s /\
  (forall i a sid,
      nth_error (attempts s) i = Some a -> claimed_session a = Some sid ->
      settled (rows (sys_store s)) sid) /\
  (forall st i botUsername now r,
      settled (rows st) (session_id r) ->
      attempt_step i botUsername now None st (AtUpdate r) = (st, AtRollback)) /\
  (forall callers sid queue,
      keyed queue -> has_pending queue sid -> callers <> [] ->
      snd (contend callers sid queue)
      = 1%nat :: repeat 0%nat (List.length callers - 1)).
Proof.
  intros Hrun.
  pose proof (run_consistent schedule (init t) s (consistent_init t) Hrun) as C.
  split; [apply (claims_exclusive s C)|]. split; [|split].
  - intros i a sid Hi Hc. pose proof (attempts_ok s C i a Hi) as Hok.
    unfold attempt_ok in Hok. unfold claimed_session in Hc.
    destruct (at_pc a) as [| | | | ? | ? ? ? | | ? | [r| | |?]]; try discriminate.
    injection Hc as <-. exact Hok.
  - intros st i u now r. apply update_on_settled_rolls_back.
  - intros callers sid queue. apply contend_one_winner.
Qed.

Lemma claim_exclusivity_witness :
  exists s,
    run demo_race (init [demo_row 1 10 (JNum 7) (JNum 100);
                         demo_row 2 11 (JNum 5) (JNum 100)]) = Some s /\
    map claimed_session (attempts s) = [Some 1; Some 2] /\
    exclusive s /\
    snd (contend [("HelperA", 20); ("HelperB", 21); ("HelperC", 22)] 1
                 [demo_row 1 10 (JNum 7) (JNum 100)])
    = [1%nat; 0%nat; 0%nat].
Proof.
  eexists. split; [vm_compute; reflexivity|]. split; [vm_compute; reflexivity|].
  destruct (claim_exclusivity
              [demo_row 1 10 (JNum 7) (JNum 100); demo_row 2 11 (JNum 5) (JNum 100)]
              demo_race _ ltac:(vm_compute; reflexivity)) as (E & _ & _ & W).
  split; [exact E|].
  apply (W [("HelperA", 20); ("HelperB", 21); ("HelperC", 22)] 1
           [demo_row 1 10 (JNum 7) (JNum 100)]).
  - repeat constructor. simpl. tauto.
  - exists (demo_row 1 10 (JNum 7) (JNum 100)). simpl. auto.
  - discriminate.
Defined.

(** * What finalizeJackpotSession leaves behind *)

Lemma with_sessions_same w : with_sessions (activeHelperSessions w) w = w.
Proof. now destruct w. Qed.

Lemma map_delete_absent k m : map_get k m = None -> map_delete k m = m.
Proof.
  intros H. apply map_get_none in H. unfold map_delete.
  induction m as [|[k' v] m IH]; simpl; auto.
  simpl in H. destruct (Z.eqb_spec k' k); [tauto|]. simpl. f_equal. apply IH. tauto.
Qed.

Lemma finalize_shape sid st sc rolls notes w :
  let w' := fst (finalizeJackpotSession sid st sc rolls notes w) in
  activeHelperSessions w' = map_delete sid (activeHelperSessions w) /\
  heap w' = heap w /\ sends w' = sends w /\ effects w' = effects w /\
  botUsername w' = botUsername w /\
  isShuttingDownHelper w' = isShuttingDownHelper w /\
  next_timer w' = next_timer w /\
  (forall t, In t (timers w') -> In t (timers w)) /\
  (finalizing w' = finalizing w \/
   exists initialRolls,
     finalizing w' = finalizing w ++
       [mkFinalize sid st sc (initialRolls ++ rolls) notes
                   (option_map fst (get_session sid w))]).
Proof.
  unfold finalizeJackpotSession.
  set (w1 := match get_session sid w with
             | Some (_, sd) => match turnTimeoutId sd with
                               | Some id => clearTimeout id w
                               | None => w
                               end
             | None => w
             end).
  assert (H1 : activeHelperSessions w1 = activeHelperSessions w /\ heap w1 = heap w /\
               sends w1 = sends w /\ effects w1 = effects w /\
               botUsername w1 = botUsername w /\
               isShuttingDownHelper w1 = isShuttingDownHelper w /\
               next_timer w1 = next_timer w /\ finalizing w1 = finalizing w /\
               forall t, In t (timers w1) -> In t (timers w)).
  { subst w1. destruct (get_session sid w) as [[ref sd]|];
      [destruct (turnTimeoutId sd)|]; simpl; repeat split; auto.
    intros t Ht. apply filter_In in Ht. tauto. }
  destruct H1 as (Hm & Hh & Hs & He & Hb & Hf & Hn & Hc & Ht).
  destruct (parse_rolls _) as [e|initialRolls]; simpl;
    rewrite ?Hm, ?Hh, ?Hs, ?He, ?Hb, ?Hf, ?Hn, ?Hc; repeat split; auto.
  right. exists initialRolls. reflexivity.
Qed.

Lemma finalize_leaves_map sid st sc rolls notes w :
  map_get sid (activeHelperSessions (fst (finalizeJackpotSession sid st sc rolls notes w)))
  = None.
Proof.
  destruct (finalize_shape sid st sc rolls notes w) as (Hm & _).
  rewrite Hm. apply map_get_delete.
Qed.

Lemma finalize_new_calls sid st sc rolls notes w fc :
  In fc (finalizing (fst (finalizeJackpotSession sid st sc rolls notes w))) ->
  In fc (finalizing w) \/ (fc_sessionId fc = sid /\ fc_finalStatus fc = st).
Proof.
  destruct (finalize_shape sid st sc rolls notes w)
    as (_ & _ & _ & _ & _ & _ & _ & _ & [E|(ir & E)]); rewrite E; auto.
  intros H. apply in_app_or in H. destruct H as [H|[<-|[]]]; auto.
Qed.

Lemma strict_eq_number v b : js_strict_eq (JNum v) b = true <-> b = JNum v.
Proof.
  destruct b; simpl; split; try discriminate; intros H.
  - apply Z.eqb_eq in H. now subst.
  - injection H as ->. apply Z.eqb_refl.
Qed.

Lemma take_in_finalizing msg ref sd v w :
  finalizing (take_in msg ref sd v w) = finalizing w.
Proof. unfold take_in. now destruct (turnTimeoutId sd). Qed.

(** * Bust before target *)

(** The bust test comes first.  When a roll is routed to a session whose
    bust value is a number and the roll shows that number, the handler
    finalizes the session as [completed_bust], whatever the total now is
    compared with the target: the session leaves the live table and the
    only finalize call the handler adds is the bust one, never
    [completed_target_reached]. *)
Lemma bust_before_target (msg : message) (w : worker) (sid : Z) (ref : nat)
    (sd : sessionData) (v : Z) :
  route msg w = Some (sid, ref, sd) ->
  msg_dice msg = Some v ->
  bust_on_value (sd_row sd) = JNum v ->
  on_message msg w
  = finalizeJackpotSession sid completed_bust
      (current_total_score (add_roll v sd)) (jackpot_run_rolls (add_roll v sd))
      (bust_notes v) (take_in msg ref sd v w) /\
  map_get sid (activeHelperSessions (fst (on_message msg w))) = None /\
  (forall fc, In fc (finalizing (fst (on_message msg w))) ->
     In fc (finalizing w) \/
     (fc_sessionId fc = sid /\ fc_finalStatus fc = completed_bust)).
Proof.
  intros R D B.
  assert (E : on_message msg w
    = finalizeJackpotSession sid completed_bust
        (current_total_score (add_roll v sd)) (jackpot_run_rolls (add_roll v sd))
        (bust_notes v) (take_in msg ref sd v w)).
  { unfold on_message. rewrite R, D. cbn [add_roll sd_row].
    now rewrite (proj2 (strict_eq_number v _) B). }
  split; [exact E|]. rewrite E. split.
  - apply finalize_leaves_map.
  - intros fc H. apply finalize_new_calls in H.
    now rewrite take_in_finalizing in H.
Qed.

(** Bust on the number 1, target 10, score 9: the roll 1 reaches the target
    and is a bust all the same. *)
Lemma bust_before_target_witness :
  js_ge (current_total_score
           (add_roll 1 (mkSession (claim_set demo_bot 20 (demo_row 1 10 (JNum 9) (JNum 10)))
                                  [] 0 (JNum 9) (Some 0%nat) [3; 2])))
        (JNum 10) = true /\
  map fc_finalStatus
      (finalizing (fst (on_message (dice 1) (snd (demo_claimed (JNum 9) (JNum 10))))))
  = [completed_bust] /\
  map_get 1 (activeHelperSessions
               (fst (on_message (dice 1) (snd (demo_claimed (JNum 9) (JNum 10)))))) = None.
Proof.
  split; [reflexivity|]. split; [vm_compute; reflexivity|].
  apply (bust_before_target (dice 1) (snd (demo_claimed (JNum 9) (JNum 10))) 1 0%nat
           (mkSession (claim_set demo_bot 20 (demo_row 1 10 (JNum 9) (JNum 10)))
                      [] 0 (JNum 9) (Some 0%nat) [3; 2]) 1);
    vm_compute; reflexivity.
Defined.

(** C2, at the failing input.  The session stands at 9 with the target at
    10 and busts on 1, and the store delivers [bust_on_value] as the text
    "1"; the helper has claimed it and the player rolls 1.  The roll is
    routed to the session and shows the bust value, but the test of the
    source is [===] between the number rolled and the column as delivered,
    with no [parseInt]: it is false, the bust branch is passed over, and the
    roll, which takes the total to 10, ends the session as
    [completed_target_reached], where the claim has [completed_bust]. *)
Theorem bust_value_as_text_reaches_target :
  reachable 1 ([text_bust_row], fresh_worker demo_bot) text_bust_claimed /\
  option_map (fun x => (fst (fst x), bust_on_value (sd_row (snd x))))
             (route (dice 1) (snd text_bust_claimed))
  = Some (1, JStr "1") /\
  calls_of text_bust_claimed = [] /\
  calls_of (handle 1 (Incoming (dice 1)) text_bust_claimed)
  = [(completed_target_reached, JNum 10, [3; 2; 1])].
Proof.
  split; [apply reach_step; [apply reach_start|exact I]|].
  vm_compute. repeat split; reflexivity.
Qed.

(** * Score accumulation *)

Lemma sum_rolls_app l v : sum_rolls (l ++ [v]) = sum_rolls l + v.
Proof. unfold sum_rolls. induction l as [|x l IH]; simpl; lia. Qed.

(** The run score is the sum of the run rolls, roll after roll. *)
Lemma add_roll_run_score v sd :
  jackpot_run_score sd = sum_rolls (jackpot_run_rolls sd) ->
  jackpot_run_score (add_roll v sd) = sum_rolls (jackpot_run_rolls (add_roll v sd)).
Proof. intros H. simpl. rewrite sum_rolls_app. lia. Qed.

(** With a numeric [initial_score] the total is the integer sum. *)
Lemma add_roll_total_number v sd a :
  initial_score (sd_row sd) = JNum a ->
  current_total_score (add_roll v sd) = JNum (a + (jackpot_run_score sd + v)).
Proof. intros H. simpl. now rewrite H. Qed.

(** With a textual [initial_score] the total is a concatenation. *)
Lemma add_roll_total_text v sd a :
  initial_score (sd_row sd) = JStr a ->
  current_total_score (add_roll v sd) = JStr (a ++ dec (jackpot_run_score sd + v)).
Proof. intros H. simpl. now rewrite H. Qed.

Lemma score_accumulates_from_number :
  run_of (after_rolls [4; 5] (demo_claimed (JNum 7) (JNum 100)))
  = Some ([4; 5], 9, JNum 16).
Proof. vm_compute. reflexivity. Qed.

(** C4, at the failing input.  [initial_score] arrives as the text "7"
    (node-postgres delivers int8 and numeric columns as strings); the rolls
    4 and 5 are accepted; the run score is 9 but the total is the text "79",
    where the claim has 16. *)
Theorem score_concatenates_from_text :
  run_of (after_rolls [4; 5] (demo_claimed (JStr "7") (JNum 100)))
  = Some ([4; 5], 9, JStr "79").
Proof. vm_compute. reflexivity. Qed.

(** * After the terminal transition *)





(** * Finalizing a session the helper does not know *)

Lemma remove_nth_last {A} (l : list A) (x : A) :
  remove_nth (List.length l) (l ++ [x]) = l.
Proof. induction l as [|y l IH]; simpl; auto. now rewrite IH. Qed.

Lemma nth_error_last {A} (l : list A) (x : A) :
  nth_error (l ++ [x]) (List.length l) = Some x.
Proof. rewrite nth_error_app2 by lia. now rewrite Nat.sub_diag. Qed.

Lemma with_finalizing_same w : with_finalizing (finalizing w) w = w.
Proof. now destruct w. Qed.

(** C10. Finalize without a live session.  For a session id that is not
    in the map the call does not throw: it suspends before the conditional
    UPDATE with the run rolls it was given as the whole roll sequence, and
    touches nothing else in the helper.  When the UPDATE then runs it is
    that statement with those rolls, and whether it writes a row or not, or
    fails, no message is sent and the helper is back in its former state. *)
Theorem finalize_unknown_session (w : worker) (sid : Z) (finalStatus : string)
    (score : jsval) (rolls : list Z) (notes : string) :
  map_get sid (activeHelperSessions w) = None ->
  let call := mkFinalize sid finalStatus score rolls notes None in
  let w' := with_finalizing (finalizing w ++ [call]) w in
  finalizeJackpotSession sid finalStatus score rolls notes w = (w', None) /\
  (forall db now,
      finalize_write (List.length (finalizing w)) None now (db, w')
      = (fst (update_finalize finalStatus score rolls notes sid (botUsername w) now db),
         w)) /\
  (forall db now e,
      finalize_write (List.length (finalizing w)) (Some e) now (db, w') = (db, w)).
Proof.
  intros H call w'. split; [|split].
  - unfold finalizeJackpotSession, get_session. rewrite H. simpl.
    rewrite (map_delete_absent _ _ H), with_sessions_same. reflexivity.
  - intros db now. unfold finalize_write. subst w'. cbn [finalizing with_finalizing].
    rewrite nth_error_last, remove_nth_last. subst call.
    cbn [fc_finalStatus fc_finalOverallScore fc_finalRollsCombined fc_outcomeNotesStr
         fc_sessionId fc_sessionData botUsername with_finalizing].
    destruct (update_finalize _ _ _ _ _ _ _ _) as [db' rc]. cbn [fst].
    replace (with_finalizing (finalizing w) _) with w by now destruct w.
    now destruct (Nat.ltb 0 rc).
  - intros db now e. unfold finalize_write. subst w'. cbn [finalizing with_finalizing].
    rewrite nth_error_last, remove_nth_last.
    now replace (with_finalizing (finalizing w) _) with w by now destruct w.
Qed.

Lemma finalize_unknown_session_witness :
  let s := after_rolls [4; 1] (demo_claimed (JNum 7) (JNum 100)) in
  let call := mkFinalize 1 error_sending_message (JNum 12) [4; 1] "blocked" None in
  finalizeJackpotSession 1 error_sending_message (JNum 12) [4; 1] "blocked" (snd s)
  = (with_finalizing (finalizing (snd s) ++ [call]) (snd s), None).
Proof.
  apply (finalize_unknown_session
           (snd (after_rolls [4; 1] (demo_claimed (JNum 7) (JNum 100))))
           1 error_sending_message (JNum 12) [4; 1] "blocked").
  vm_compute. reflexivity.
Defined.

(** * Finalizing twice *)

Lemma update_finalize_count_zero st sc ro no sid u now t :
  snd (update_finalize st sc ro no sid u now t) = 0%nat ->
  fst (update_finalize st sc ro no sid u now t) = t.
Proof.
  unfold update_finalize; simpl. intros H.
  rewrite <- (map_id t) at 2. apply map_ext_in. intros r Hin.
  destruct (finalize_where sid u r) eqn:E; auto.
  assert (Hf : In r (filter (finalize_where sid u) t)) by (apply filter_In; auto).
  destruct (filter (finalize_where sid u) t); [contradiction|discriminate].
Qed.

Lemma update_finalize_count st sc ro no sid u now t :
  (0 < snd (update_finalize st sc ro no sid u now t))%nat <->
  exists r, In r t /\ session_id r = sid /\ (is_active r = true \/ owned_by u r = true).
Proof.
  unfold update_finalize; simpl. split.
  - intros H. destruct (filter (finalize_where sid u) t) as [|r l] eqn:E; [simpl in H; lia|].
    assert (Hin : In r (filter (finalize_where sid u) t)) by (rewrite E; now left).
    apply filter_In in Hin. destruct Hin as [Hin Hw]. exists r. split; auto.
    unfold finalize_where in Hw. apply andb_true_iff in Hw. destruct Hw as [Hs Ho].
    apply Z.eqb_eq in Hs. apply orb_true_iff in Ho. auto.
  - intros (r & Hin & Hs & Ho).
    assert (Hf : In r (filter (finalize_where sid u) t)).
    { apply filter_In. split; auto. unfold finalize_where.
      rewrite Hs, Z.eqb_refl. simpl. apply orb_true_iff. exact Ho. }
    destruct (filter (finalize_where sid u) t); [contradiction|simpl; lia].
Qed.

Lemma final_status_not_active (s : string) :
  is_final_status s = true -> String.eqb s active_by_helper = false.
Proof.
  unfold is_final_status, final_statuses. simpl. intros H.
  repeat (apply orb_true_iff in H; destruct H as [H|H];
          [apply String.eqb_eq in H; subst; reflexivity|]).
  discriminate.
Qed.

(** C3, against the claim.  The session is finalized as a bust and the row
    written; the late delivery failure finalizes it again from the same
    helper, and that second UPDATE affects one row and replaces the outcome
    and the rolls. *)
Lemma refinalize_overwrites_the_outcome :
  let s1 := handle 1 (StoreAnswers 0 None 30) bust_then_blocked in
  let s2 := handle 1 (StoreAnswers 0 None 31) s1 in
  map fc_finalStatus (finalizing (snd bust_then_blocked))
  = [completed_bust; error_sending_message] /\
  map (fun r => (status r, final_rolls_json r)) (fst s1)
  = [(completed_bust, JsonRolls [3; 2; 4; 1])] /\
  snd (update_finalize error_sending_message (JNum 12) [4; 1]
         (delivery_notes blocked) 1 demo_bot 31 (fst s1)) = 1%nat /\
  map (fun r => (status r, final_rolls_json r)) (fst s2)
  = [(error_sending_message, JsonRolls [4; 1])].
Proof. vm_compute. repeat split; reflexivity. Qed.

(** C3, amended.  Once the rows of a session carry a final status, a
    finalize by a helper that is not the row's [helper_bot_id] affects no
    row and leaves the table as it is; a finalize by the helper that is the
    row's [helper_bot_id] still affects the row and rewrites status, score,
    rolls and notes. *)
Theorem refinalize_only_by_owner (t : table) (sid : Z) (botUsername finalStatus : string)
    (score : jsval) (rolls : list Z) (notes : string) (now : Z) :
  (forall r, In r t -> session_id r = sid -> is_final_status (status r) = true) ->
  ((forall r, In r t -> session_id r = sid -> owned_by botUsername r = false) ->
   update_finalize finalStatus score rolls notes sid botUsername now t = (t, 0%nat)) /\
  (forall r, In r t -> session_id r = sid -> owned_by botUsername r = true ->
   (0 < snd (update_finalize finalStatus score rolls notes sid botUsername now t))%nat /\
   In (finalize_set finalStatus score rolls notes now r)
      (fst (update_finalize finalStatus score rolls notes sid botUsername now t))).
Proof.
  intros Hfinal. split.
  - intros Hstranger.
    assert (Hz : snd (update_finalize finalStatus score rolls notes sid botUsername now t)
                 = 0%nat).
    { destruct (snd (update_finalize finalStatus score rolls notes sid botUsername now t))
        as [|n] eqn:E; auto.
      assert (Hpos : (0 < snd (update_finalize finalStatus score rolls notes sid
                                  botUsername now t))%nat) by (rewrite E; lia).
      apply update_finalize_count in Hpos. destruct Hpos as (r & Hin & Hs & [Ha|Ho]).
      - unfold is_active in Ha.
        rewrite (final_status_not_active _ (Hfinal r Hin Hs)) in Ha. discriminate.
      - rewrite (Hstranger r Hin Hs) in Ho. discriminate. }
    pose proof (update_finalize_count_zero _ _ _ _ _ _ _ _ Hz) as Hf.
    destruct (update_finalize finalStatus score rolls notes sid botUsername now t).
    simpl in *. congruence.
  - intros r Hin Hs Ho. split.
    + apply update_finalize_count. exists r. auto.
    + unfold update_finalize; simpl. apply in_map_iff. exists r. split; auto.
      unfold finalize_where. rewrite Hs, Z.eqb_refl, Ho, orb_true_r. reflexivity.
Qed.

Lemma refinalize_only_by_owner_witness :
  update_finalize error_sending_message (JNum 12) [4; 1] "late" 1 "AnotherHelper" 31
                  [bust_row]
  = ([bust_row], 0%nat).
Proof.
  refine (proj1 (refinalize_only_by_owner [bust_row] 1 "AnotherHelper"
                   error_sending_message (JNum 12) [4; 1] "late" 31 _) _).
  - intros r [<-|[]] _. reflexivity.
  - intros r [<-|[]] _. reflexivity.
Defined.

(** * The finalizing write and the notification *)

(** C6, against the claim.  The finalizing UPDATE of a session that is no
    longer in the map succeeds, one row is written, and no outcome
    notification is sent at all. *)
Lemma write_succeeds_without_notification :
  let s := unwritten_then_blocked in
  let s' := handle 1 (StoreAnswers 0 None 31) s in
  map fc_sessionData (finalizing (snd s)) = [None] /\
  map status (fst s) = [active_by_helper] /\
  snd (update_finalize error_sending_message (JNum 12) [4; 1]
         (delivery_notes blocked) 1 demo_bot 31 (fst s)) = 1%nat /\
  map status (fst s') = [error_sending_message] /\
  concluded (effects (snd s')) = 0%nat.
Proof. vm_compute. repeat split; reflexivity. Qed.

(** C6, amended.  The finalizing UPDATE affects a row exactly when the
    session has a row whose status is [active_by_helper] or whose
    [helper_bot_id] is the caller's, and [rowCount] tells.  With no row
    affected the helper does nothing more: table and helper stay as they
    are, the call is over, nothing is sent and nothing retried.  With a row
    affected, one notification is sent when the session was in the map at
    the time finalize was called, and none when it was not. *)
Theorem finalize_write_commits (db : table) (w : worker) (k : nat)
    (fc : finalize_call) (now : Z) :
  nth_error (finalizing w) k = Some fc ->
  let rowCount :=
    snd (update_finalize (fc_finalStatus fc) (fc_finalOverallScore fc)
           (fc_finalRollsCombined fc) (fc_outcomeNotesStr fc)
           (fc_sessionId fc) (botUsername w) now db) in
  let db' :=
    fst (update_finalize (fc_finalStatus fc) (fc_finalOverallScore fc)
           (fc_finalRollsCombined fc) (fc_outcomeNotesStr fc)
           (fc_sessionId fc) (botUsername w) now db) in
  let over := with_finalizing (remove_nth k (finalizing w)) w in
  ((0 < rowCount)%nat <->
   exists r, In r db /\ session_id r = fc_sessionId fc /\
             (is_active r = true \/ owned_by (botUsername w) r = true)) /\
  (rowCount = 0%nat -> finalize_write k None now (db, w) = (db, over)) /\
  ((0 < rowCount)%nat ->
   forall ref sd, fc_sessionData fc = Some ref -> nth_error (heap w) ref = Some sd ->
     finalize_write k None now (db, w)
     = (db', emit (SendConcluded (chat_id (sd_row sd)) (fc_sessionId fc)
                                 (fc_finalOverallScore fc) (fc_outcomeNotesStr fc))
                  over)) /\
  ((0 < rowCount)%nat -> fc_sessionData fc = None ->
   finalize_write k None now (db, w) = (db', over)).
Proof.
  intros Hk rowCount db' over. split; [apply update_finalize_count|].
  unfold finalize_write. rewrite Hk. fold over.
  destruct (update_finalize (fc_finalStatus fc) (fc_finalOverallScore fc)
              (fc_finalRollsCombined fc) (fc_outcomeNotesStr fc)
              (fc_sessionId fc) (botUsername w) now db) as [t rc] eqn:U.
  assert (Hrc : rowCount = rc) by reflexivity.
  assert (Hdb : db' = t) by reflexivity.
  clearbody rowCount db'. subst rowCount db'.
  split; [|split].
  - intros Hz. subst rc. simpl.
    pose proof (update_finalize_count_zero (fc_finalStatus fc) (fc_finalOverallScore fc)
                  (fc_finalRollsCombined fc) (fc_outcomeNotesStr fc)
                  (fc_sessionId fc) (botUsername w) now db) as Hsame.
    rewrite U in Hsame. simpl in Hsame. now rewrite Hsame.
  - intros Hpos ref sd Hr Hn.
    apply Nat.ltb_lt in Hpos. now rewrite Hpos, Hr, Hn.
  - intros Hpos Hr.
    apply Nat.ltb_lt in Hpos. now rewrite Hpos, Hr.
Qed.

Lemma finalize_write_commits_witness :
  concluded (effects (snd (finalize_write 0 None 30 (bust_table, bust_worker)))) = 1%nat.
Proof.
  destruct (finalize_write_commits bust_table bust_worker 0 bust_call 30 eq_refl)
    as (_ & _ & H & _).
  pose proof (H ltac:(vm_compute; lia) 0%nat bust_object eq_refl eq_refl) as H'.
  rewrite H'. vm_compute. reflexivity.
Defined.

(** * A claim attempt that fails *)

(** A lost race or a store error sends the loop to the test on
    [selectRes], which throws: the loop is left, whatever attempts remain. *)
Lemma failed_attempt_leaves_loop script n remaining db w db' o :
  isShuttingDownHelper w = false ->
  claim_attempt (script (n - S remaining)%nat) (botUsername w) db = (db', o) ->
  (o = LostRace \/ exists e, o = Failed e) ->
  claim_loop script n (S remaining) (db, w)
  = ((db, w), Threw (not_defined "selectRes")).
Proof.
  intros Hs Ha Ho. rewrite claim_loop_unfold. cbv zeta. rewrite Hs, Ha.
  pose proof (claim_attempt_spec _ _ _ _ _ Ha) as [_ Hdb].
  destruct Ho as [->|[e ->]]; now rewrite Hdb.
Qed.

(** A session is claimed and more attempts are due: the loop is left at
    [sleep], which is not defined. *)
Lemma claimed_attempt_leaves_loop script n remaining db w db' r w1 :
  isShuttingDownHelper w = false ->
  claim_attempt (script (n - S remaining)%nat) (botUsername w) db = (db', Claimed r) ->
  register r w = inr w1 ->
  (0 < remaining)%nat -> (S remaining <= n)%nat ->
  claim_loop script n (S remaining) (db, w)
  = ((db', opening_prompt r w1), Threw (not_defined "sleep")).
Proof.
  intros Hs Ha Hr H0 Hn. rewrite claim_loop_unfold. cbv zeta. rewrite Hs, Ha, Hr.
  assert (E : Nat.ltb 1 n && Nat.ltb (n - S remaining) (n - 1) = true).
  { apply andb_true_iff. split; apply Nat.ltb_lt; lia. }
  now rewrite E.
Qed.

(** C9, at the failing input.  Two sessions are queued and the helper may
    take two.  The UPDATE of the first attempt is rejected by the store: the
    attempt is rolled back, and then the tick ends with a ReferenceError
    thrown out of the loop; the second attempt, which would have claimed a
    session, is never made. *)
Theorem store_error_leaves_claim_loop :
  checkAndInitiateJackpotSessions 2 update_fails_once two_queued
  = (two_queued, Threw (not_defined "selectRes")) /\
  fst (claim_attempt (update_fails_once 1) demo_bot (fst two_queued))
  <> fst two_queued.
Proof. split; [vm_compute; reflexivity|vm_compute; discriminate]. Qed.

(** * One timer for each session *)

Lemma filter_none {A} (f : A -> bool) (l : list A) :
  (forall x, In x l -> f x = false) -> filter f l = [].
Proof.
  induction l as [|y l IH]; simpl; auto. intros H.
  rewrite (H y (or_introl eq_refl)). apply IH. intros x Hx. apply H. now right.
Qed.

Lemma timers_of_none sid w :
  (forall id, ~ In (id, sid) (timers w)) -> timers_of sid w = [].
Proof.
  intros H. unfold timers_of. apply filter_none. intros [id s] Hin. simpl.
  destruct (Z.eqb_spec s sid) as [->|]; auto. exfalso. eapply H; eauto.
Qed.

Lemma nodup_same_fst (l : list (nat * Z)) (id : nat) :
  NoDup (map fst l) -> (forall t, In t l -> fst t = id) -> (List.length l <= 1)%nat.
Proof.
  intros Hnd H. destruct l as [|a [|b l]]; simpl; try lia.
  exfalso. simpl in Hnd. inversion Hnd as [|? ? Hni _]; subst. apply Hni.
  left. rewrite (H a), (H b); simpl; auto.
Qed.

Lemma timers_of_at_most_one db w sid :
  sound (db, w) -> (List.length (timers_of sid w) <= 1)%nat.
Proof.
  intros S. unfold timers_of.
  destruct (filter (fun t => Z.eqb (snd t) sid) (timers w)) as [|[id0 s0] l] eqn:E;
    [simpl; lia|].
  rewrite <- E. apply nodup_same_fst with (id := id0).
  - apply nodup_fst_filter. apply (timers_nodup _ S).
  - assert (H0 : In (id0, s0) (filter (fun t => Z.eqb (snd t) sid) (timers w)))
      by (rewrite E; now left).
    apply filter_In in H0. destruct H0 as [H0 Hs0]. simpl in Hs0.
    apply Z.eqb_eq in Hs0. subst s0.
    destruct (timers_tracked _ S id0 sid H0) as (_ & ref & sd & Hm & Hn & Hid).
    intros [id s] Ht. apply filter_In in Ht. destruct Ht as [Ht Hs]. simpl in Hs.
    apply Z.eqb_eq in Hs. subst s. simpl.
    pose proof (timer_of_live _ _ _ _ _ _ S Hm Hn Ht). congruence.
Qed.

Lemma finalize_disarms db w sid st sc rolls notes :
  sound (db, w) ->
  timers_of sid (fst (finalizeJackpotSession sid st sc rolls notes w)) = [].
Proof.
  intros S. apply timers_of_none. intros id Hin.
  assert (H : In (id, sid) (timers
             match get_session sid w with
             | Some (_, sd) => match turnTimeoutId sd with
                               | Some id => clearTimeout id w
                               | None => w
                               end
             | None => w
             end)).
  { unfold finalizeJackpotSession in Hin.
    destruct (parse_rolls _); exact Hin. }
  clear Hin. destruct (get_session sid w) as [[ref sd]|] eqn:G.
  - apply (get_session_in db) in G; auto. destruct G as [Hm Hn].
    destruct (turnTimeoutId sd) as [id0|] eqn:E.
    + simpl in H. apply filter_In in H. destruct H as [H Hne]. simpl in Hne.
      pose proof (timer_of_live _ _ _ _ _ _ S Hm Hn H) as E'. rewrite E in E'.
      injection E' as ->. rewrite Nat.eqb_refl in Hne. discriminate.
    + pose proof (timer_of_live _ _ _ _ _ _ S Hm Hn H). congruence.
  - destruct (timers_tracked _ S id sid H) as (_ & ref & sd & Hm & _).
    eapply get_session_none; eauto.
Qed.

Lemma send_update_rearms db w sid last ref sd :
  sound (db, w) -> get_session sid w = Some (ref, sd) ->
  timers_of sid (fst (sendJackpotRunUpdate sid last w)) = [(next_timer w, sid)].
Proof.
  intros S G. pose proof G as G'. apply (get_session_in db) in G'; auto.
  destruct G' as [Hm Hn].
  destruct (entries_ok _ S sid ref Hm) as (sd' & Hn' & (Hact & Hbig & _) & _).
  simpl in Hn'. rewrite Hn in Hn'. injection Hn' as <-.
  unfold sendJackpotRunUpdate. rewrite G.
  destruct (js_BigInt _) as [lamports|]; [|congruence]. rewrite Hact.
  assert (Hclear : forall id,
            ~ In (id, sid) (match turnTimeoutId sd with
                            | Some id0 => filter (fun t => negb (Nat.eqb (fst t) id0)) (timers w)
                            | None => timers w
                            end)).
  { intros id Hin. destruct (turnTimeoutId sd) as [id0|] eqn:E.
    - apply filter_In in Hin. destruct Hin as [Hin Hne]. simpl in Hne.
      pose proof (timer_of_live _ _ _ _ _ _ S Hm Hn Hin) as E'. rewrite E in E'.
      injection E' as ->. rewrite Nat.eqb_refl in Hne. discriminate.
    - pose proof (timer_of_live _ _ _ _ _ _ S Hm Hn Hin). congruence. }
  unfold timers_of.
  destruct (turnTimeoutId sd) as [id0|]; simpl; rewrite filter_app; simpl;
    rewrite Z.eqb_refl;
    (rewrite filter_none; [reflexivity|]);
    intros [id s] Hin; simpl; destruct (Z.eqb_spec s sid) as [->|]; auto;
    exfalso; eapply Hclear; eauto.
Qed.

Lemma accepted_roll_rearms db w msg sid :
  sound (db, w) -> accepted msg w sid ->
  timers_of sid (fst (on_message msg w)) = [(next_timer w, sid)].
Proof.
  intros S (ref & sd & v & R & D & Hb & Ht).
  unfold on_message. rewrite R, D. cbv zeta. cbn [add_roll sd_row] in *.
  rewrite Hb, Ht.
  pose proof R as R'. apply route_sound in R'. destruct R' as (Hm & Hn & _).
  destruct (take_in_sound db w msg sid ref sd v S Hm Hn) as (S3 & F3 & G3).
  assert (Es : with_sessions (map_set sid ref (activeHelperSessions (take_in msg ref sd v w)))
                             (take_in msg ref sd v w)
               = take_in msg ref sd v w).
  { assert (Hin3 : In (sid, ref) (activeHelperSessions (take_in msg ref sd v w))).
    { apply (get_session_in db) in G3; tauto. }
    assert (E : map_set sid ref (activeHelperSessions (take_in msg ref sd v w))
                = activeHelperSessions (take_in msg ref sd v w))
      by (apply map_set_present; [apply (keys_nodup _ S3)|exact Hin3]).
    rewrite E. apply with_sessions_same. }
  rewrite Es.
  rewrite (send_update_rearms db _ sid (Some v) ref (add_roll v sd) S3 G3).
  unfold take_in. now destruct (turnTimeoutId sd).
Qed.

(** C8. One inactivity timer for each session.  In every state the helper
    can reach, a session has at most one timer armed, and armed timers are
    older than the next one to be created.  Issuing a prompt for a live
    session leaves that session with exactly one timer, a new one: the one
    armed before is cleared first.  So does every accepted roll, hence any
    number of them.  Every finalize leaves the session with no timer. *)
Theorem one_timer_per_session (max : Z) (db : table) (name : string) (s : state) :
  reachable max (db, fresh_worker name) s ->
  (forall sid, (List.length (timers_of sid (snd s)) <= 1)%nat) /\
  (forall id sid, In (id, sid) (timers (snd s)) -> (id < next_timer (snd s))%nat) /\
  (forall sid last, In sid (map fst (activeHelperSessions (snd s))) ->
     timers_of sid (fst (sendJackpotRunUpdate sid last (snd s)))
     = [(next_timer (snd s), sid)]) /\
  (forall msg sid, accepted msg (snd s) sid ->
     timers_of sid (fst (on_message msg (snd s))) = [(next_timer (snd s), sid)]) /\
  (forall sid finalStatus score rolls notes,
     timers_of sid (fst (finalizeJackpotSession sid finalStatus score rolls notes (snd s)))
     = []).
Proof.
  intros R. apply reachable_sound in R. destruct s as [t w]. cbn [snd].
  split; [|split; [|split; [|split]]].
  - intros sid. eapply timers_of_at_most_one; eauto.
  - intros id sid Hin. apply (timers_tracked _ R id sid Hin).
  - intros sid last Hin. apply in_map_iff in Hin. destruct Hin as ([k ref] & <- & Hin).
    destruct (entries_ok _ R k ref Hin) as (sd & Hn & _).
    eapply send_update_rearms; eauto. eapply get_session_in; eauto.
  - intros msg sid A. eapply accepted_roll_rearms; eauto.
  - intros. eapply finalize_disarms; eauto.
Qed.


(** * The rolls that are persisted *)

Lemma finalize_live_session db w sid ref sd st sc rolls notes :
  sound (db, w) -> get_session sid w = Some (ref, sd) ->
  exists w',
    finalizeJackpotSession sid st sc rolls notes w = (w', None) /\
    finalizing w' = finalizing w ++
      [mkFinalize sid st sc (rolls_of (initial_rolls_json (sd_row sd)) ++ rolls)
                  notes (Some ref)].
Proof.
  intros S G. pose proof G as G'. apply (get_session_in db) in G'; auto.
  destruct G' as [Hm Hn].
  destruct (entries_ok _ S sid ref Hm) as (sd' & Hn' & (_ & _ & Hjson) & _).
  simpl in Hn'. rewrite Hn in Hn'. injection Hn' as <-.
  unfold finalizeJackpotSession. rewrite G.
  destruct (initial_rolls_json (sd_row sd)) as [|l|] eqn:J; [| |congruence];
    cbn [parse_rolls rolls_of option_map fst]; eexists; split; try reflexivity;
    destruct (turnTimeoutId sd); reflexivity.
Qed.

Lemma update_finalize_writes st sc ro no sid u now t r :
  In r t -> finalize_where sid u r = true ->
  In (finalize_set st sc ro no now r) (fst (update_finalize st sc ro no sid u now t)).
Proof.
  intros Hin Hw. unfold update_finalize; simpl. apply in_map_iff.
  exists r. now rewrite Hw.
Qed.

(** C5, against the claim.  The session busts but the store rejects the
    write; the prompt sent before comes back undeliverable, and this error
    path finalizes a session that is no longer in the map: the row ends as
    [error_sending_message] with the run rolls 4, 1 alone, although the
    session's initial rolls are 3, 2. *)
Lemma late_error_persists_run_rolls_only :
  let s := handle 1 (StoreAnswers 0 None 31) unwritten_then_blocked in
  map (fun r => (status r, initial_rolls_json r, final_rolls_json r)) (fst s)
  = [(error_sending_message, JsonRolls [3; 2], JsonRolls [4; 1])] /\
  option_map jackpot_run_rolls (nth_error (heap (snd s)) 0) = Some [4; 1].
Proof. vm_compute. split; reflexivity. Qed.

(** C5, amended.  The persisted roll sequence of a session that is in the
    live table.  In every state the helper can reach: finalizing a session
    that is in the live table, on whichever path, suspends before the UPDATE
    with the session's initial rolls followed by the rolls it was given;
    every finalize call in flight for a session that was in the live table
    carries one of the helper's final statuses and, as rolls, the initial
    rolls of that session's record followed by its run rolls, in order; and
    when its UPDATE runs, each row it affects gets exactly that sequence.
    (A finalize for a session that is not in the live table persists the
    run rolls alone: C10.) *)
Theorem persisted_rolls_initial_then_run (max : Z) (db : table) (name : string)
    (s : state) :
  reachable max (db, fresh_worker name) s ->
  (forall sid ref sd finalStatus score rolls notes,
      get_session sid (snd s) = Some (ref, sd) ->
      exists w',
        finalizeJackpotSession sid finalStatus score rolls notes (snd s) = (w', None) /\
        finalizing w' = finalizing (snd s) ++
          [mkFinalize sid finalStatus score
                      (rolls_of (initial_rolls_json (sd_row sd)) ++ rolls)
                      notes (Some ref)]) /\
  (forall k fc ref,
      nth_error (finalizing (snd s)) k = Some fc ->
      fc_sessionData fc = Some ref ->
      exists sd,
        nth_error (heap (snd s)) ref = Some sd /\
        session_id (sd_row sd) = fc_sessionId fc /\
        is_final_status (fc_finalStatus fc) = true /\
        fc_finalRollsCombined fc
        = rolls_of (initial_rolls_json (sd_row sd)) ++ jackpot_run_rolls sd /\
        forall now r,
          In r (fst s) ->
          finalize_where (fc_sessionId fc) (botUsername (snd s)) r = true ->
          exists r',
            In r' (fst (finalize_write k None now s)) /\
            session_id r' = session_id r /\
            status r' = fc_finalStatus fc /\
            final_rolls_json r'
            = JsonRolls (rolls_of (initial_rolls_json (sd_row sd))
                           ++ jackpot_run_rolls sd)).
Proof.
  intros R. apply reachable_sound in R. destruct s as [t w]. cbn [fst snd].
  split.
  - intros. eapply finalize_live_session; eauto.
  - intros k fc ref Hk Href.
    destruct (calls_ok _ R fc (nth_error_In _ _ Hk)) as [Hst Hcall].
    destruct (Hcall ref Href) as (_ & sd & Hn & Hkey & Hrolls). simpl in Hn.
    exists sd. repeat (split; [assumption|]).
    intros now r Hin Hw.
    exists (finalize_set (fc_finalStatus fc) (fc_finalOverallScore fc)
                         (fc_finalRollsCombined fc) (fc_outcomeNotesStr fc) now r).
    split; [|split; [reflexivity|split; [reflexivity|simpl; now rewrite Hrolls]]].
    unfold finalize_write. rewrite Hk.
    pose proof (update_finalize_writes (fc_finalStatus fc) (fc_finalOverallScore fc)
                  (fc_finalRollsCombined fc) (fc_outcomeNotesStr fc) (fc_sessionId fc)
                  (botUsername w) now t r Hin Hw) as Hwr.
    destruct (update_finalize _ _ _ _ _ _ _ _) as [t' rc]. simpl in Hwr.
    destruct (Nat.ltb 0 rc); [|exact Hwr].
    rewrite Href, Hn. exact Hwr.
Qed.

(** * The sample runs are runs of the helper *)

Lemma demo_claimed_reachable score target :
  reachable 1 (demo_start score target) (demo_claimed score target).
Proof. apply reach_step; [apply reach_start|exact I]. Qed.

Lemma after_rolls_reachable rolls : forall s0 s,
  reachable 1 s0 s -> reachable 1 s0 (after_rolls rolls s).
Proof.
  unfold after_rolls. induction rolls as [|v rolls IH]; intros s0 s R; [exact R|].
  cbn [fold_left]. apply IH. apply reach_step; [exact R|exact I].
Qed.

Lemma one_timer_per_session_witness :
  accepted (dice 2) (snd (after_rolls [4; 5] (demo_claimed (JNum 7) (JNum 100)))) 1 /\
  timers_of 1 (fst (on_message (dice 2)
                      (snd (after_rolls [4; 5] (demo_claimed (JNum 7) (JNum 100))))))
  = [(next_timer (snd (after_rolls [4; 5] (demo_claimed (JNum 7) (JNum 100)))), 1)].
Proof.
  assert (A : accepted (dice 2)
                (snd (after_rolls [4; 5] (demo_claimed (JNum 7) (JNum 100)))) 1).
  { exists 0%nat,
      (mkSession (claim_set demo_bot 20 (demo_row 1 10 (JNum 7) (JNum 100)))
                 [4; 5] 9 (JNum 16) (Some 2%nat) [3; 2]), 2.
    vm_compute. repeat split; reflexivity. }
  split; [exact A|].
  exact (proj1 (proj2 (proj2 (proj2
           (one_timer_per_session 1 _ demo_bot _
              (after_rolls_reachable [4; 5] _ _
                 (demo_claimed_reachable (JNum 7) (JNum 100)))))))
           (dice 2) 1 A).
Defined.

Lemma persisted_rolls_initial_then_run_witness :
  exists sd,
    nth_error (heap (snd (after_rolls [4; 1] (demo_claimed (JNum 7) (JNum 100))))) 0
    = Some sd /\
    [3; 2; 4; 1] = rolls_of (initial_rolls_json (sd_row sd)) ++ jackpot_run_rolls sd.
Proof.
  destruct (proj2 (persisted_rolls_initial_then_run 1 _ demo_bot _
                     (after_rolls_reachable [4; 1] _ _
                        (demo_claimed_reachable (JNum 7) (JNum 100))))
                  0%nat bust_call 0%nat
                  ltac:(vm_compute; reflexivity) eq_refl)
    as (sd & Hn & _ & _ & Hr & _).
  exists sd. split; [exact Hn|exact Hr].
Defined.

(* ================================================================= *)
(** * Further properties of the helper *)

(** * The text helpers *)

Lemma string_app_assoc (a b c : string) : ((a ++ b) ++ c = a ++ (b ++ c))%string.
Proof. induction a; simpl; congruence. Qed.

Lemma replace_all_app c b s t :
  replace_all c b (s ++ t) = (replace_all c b s ++ replace_all c b t)%string.
Proof.
  induction s as [|x s IH]; simpl; auto.
  destruct (Ascii.eqb x c); simpl; rewrite IH; auto.
  now rewrite string_app_assoc.
Qed.

Lemma escape_app s t : escape (s ++ t) = (escape s ++ escape t)%string.
Proof. unfold escape. now rewrite !replace_all_app. Qed.

Lemma escape_one_char c : escape (String c "") = entity c.
Proof.
  unfold escape, entity.
  destruct (Ascii.eqb_spec c "&") as [->|H1]; [reflexivity|].
  destruct (Ascii.eqb_spec c "<") as [->|H2]; [reflexivity|].
  destruct (Ascii.eqb_spec c ">") as [->|H3]; [reflexivity|].
  destruct (Ascii.eqb_spec c double_quote) as [->|H4]; [reflexivity|].
  destruct (Ascii.eqb_spec c "'") as [->|H5]; [reflexivity|].
  cbn [replace_all].
  repeat match goal with
         | H : c <> ?y |- context [Ascii.eqb c ?y] =>
             rewrite (proj2 (Ascii.eqb_neq c y) H); cbn [replace_all]
         end.
  reflexivity.
Qed.

Lemma escape_one_pass s : escape s = escape_chars s.
Proof.
  induction s as [|c s IH]; [reflexivity|].
  change (String c s) with (String c "" ++ s)%string.
  rewrite escape_app, escape_one_char, IH. reflexivity.
Qed.

Lemma entity_cases c :
  (plain c = true /\ entity c = String c "") \/
  (plain c = false /\ In (entity c) entities).
Proof.
  unfold plain, entity, entities.
  destruct (Ascii.eqb c "&"); [right; simpl; auto|].
  destruct (Ascii.eqb c "<"); [right; simpl; auto|].
  destruct (Ascii.eqb c ">"); [right; simpl; auto|].
  destruct (Ascii.eqb c double_quote); [right; simpl; auto 6|].
  destruct (Ascii.eqb c "'"); [right; simpl; auto 7|].
  left. auto.
Qed.

Lemma escape_chars_escaped s : escaped (escape_chars s).
Proof.
  induction s as [|c s IH]; simpl; [constructor|].
  destruct (entity_cases c) as [[Hp ->]|[_ He]].
  - now constructor.
  - now constructor.
Qed.

Lemma in_string_app c a b :
  In c (list_ascii_of_string (a ++ b)) <->
  In c (list_ascii_of_string a) \/ In c (list_ascii_of_string b).
Proof. induction a; simpl; tauto. Qed.

Lemma escaped_no_markup s :
  escaped s -> forall c, In c (list_ascii_of_string s) -> markup c = false.
Proof.
  induction 1 as [|x s Hp _ IH|e s He _ IH]; intros c Hc.
  - contradiction.
  - destruct Hc as [<-|Hc]; auto. unfold plain in Hp. unfold markup.
    apply negb_true_iff in Hp. repeat (apply orb_false_iff in Hp; destruct Hp as [Hp ?]).
    repeat (apply orb_false_iff; split); auto.
  - apply in_string_app in Hc. destruct Hc as [Hc|Hc]; auto.
    unfold entities in He. simpl in He.
    repeat (destruct He as [<-|He];
            [simpl in Hc; repeat (destruct Hc as [<-|Hc]; [reflexivity|]); contradiction|]).
    contradiction.
Qed.

(** X1. The text [escapeHTML] returns is made of plain characters and of the
    five entities only: none of the characters that open or close markup in
    Telegram's HTML mode occurs in it, and every ampersand starts an
    entity. *)
Theorem escapeHTML_is_escaped (text : option jsval) :
  escaped (escapeHTML text) /\
  forall c, In c (list_ascii_of_string (escapeHTML text)) -> markup c = false.
Proof.
  assert (H : escaped (escapeHTML text)).
  { destruct text as [[n| |s|]|]; simpl; try rewrite escape_one_pass;
      try apply escape_chars_escaped; constructor. }
  split; [exact H|]. now apply escaped_no_markup.
Qed.

Lemma entity_head c :
  exists r, entity c = String (if plain c then c else "&"%char) r /\
            (plain c = true -> r = "").
Proof.
  unfold plain, entity.
  destruct (Ascii.eqb c "&"); [eexists; split; [reflexivity|discriminate]|].
  destruct (Ascii.eqb c "<"); [eexists; split; [reflexivity|discriminate]|].
  destruct (Ascii.eqb c ">"); [eexists; split; [reflexivity|discriminate]|].
  destruct (Ascii.eqb c double_quote); [eexists; split; [reflexivity|discriminate]|].
  destruct (Ascii.eqb c "'"); [eexists; split; [reflexivity|discriminate]|].
  eexists; split; [reflexivity|auto].
Qed.

Lemma plain_not_amp c : plain c = true -> c <> "&"%char.
Proof. intros H ->. discriminate. Qed.

(** Two characters whose images start the same text are the same, and the
    rests of the texts are the same. *)
Lemma entity_prefix_free c d s t :
  (entity c ++ s = entity d ++ t)%string -> c = d /\ s = t.
Proof.
  unfold entity.
  destruct (Ascii.eqb_spec c "&") as [->|Hc1]; [|
  destruct (Ascii.eqb_spec c "<") as [->|Hc2]; [|
  destruct (Ascii.eqb_spec c ">") as [->|Hc3]; [|
  destruct (Ascii.eqb_spec c double_quote) as [->|Hc4]; [|
  destruct (Ascii.eqb_spec c "'") as [->|Hc5]]]]];
  (destruct (Ascii.eqb_spec d "&") as [->|Hd1]; [|
   destruct (Ascii.eqb_spec d "<") as [->|Hd2]; [|
   destruct (Ascii.eqb_spec d ">") as [->|Hd3]; [|
   destruct (Ascii.eqb_spec d double_quote) as [->|Hd4]; [|
   destruct (Ascii.eqb_spec d "'") as [->|Hd5]]]]]);
  simpl; intros H; try discriminate H;
  injection H; intros; subst; try congruence; split; congruence.
Qed.

Lemma escape_chars_injective a : forall b,
  escape_chars a = escape_chars b -> a = b.
Proof.
  induction a as [|c a IH]; intros [|d b] H; simpl in H.
  - reflexivity.
  - destruct (entity_head d) as (r & E & _). rewrite E in H. discriminate.
  - destruct (entity_head c) as (r & E & _). rewrite E in H. discriminate.
  - apply entity_prefix_free in H. destruct H as [-> H]. f_equal. now apply IH.
Qed.

(** X2. [escapeHTML] loses nothing: two texts with the same escaped form
    are the same text. *)
Theorem escapeHTML_injective (a b : string) :
  escapeHTML (Some (JStr a)) = escapeHTML (Some (JStr b)) -> a = b.
Proof.
  simpl. rewrite !escape_one_pass. apply escape_chars_injective.
Qed.

Lemma escapeHTML_injective_witness : "<b>Tom & Jerry</b>" = "<b>Tom & Jerry</b>".
Proof.
  apply (escapeHTML_injective "<b>Tom & Jerry</b>" "<b>Tom & Jerry</b>"). reflexivity.
Defined.

Lemma string_length_app (a b : string) :
  String.length (a ++ b) = (String.length a + String.length b)%nat.
Proof. induction a; simpl; auto. Qed.

Lemma escape_chars_length s :
  (String.length s <= String.length (escape_chars s))%nat.
Proof.
  induction s as [|c s IH]; simpl; auto.
  rewrite string_length_app. destruct (entity_head c) as (r & E & _). rewrite E. simpl. lia.
Qed.

Lemma entity_longer c : plain c = false -> (2 <= String.length (entity c))%nat.
Proof.
  unfold plain, entity. intros H.
  destruct (Ascii.eqb c "&"); [simpl; lia|].
  destruct (Ascii.eqb c "<"); [simpl; lia|].
  destruct (Ascii.eqb c ">"); [simpl; lia|].
  destruct (Ascii.eqb c double_quote); [simpl; lia|].
  destruct (Ascii.eqb c "'"); [simpl; lia|].
  discriminate.
Qed.

(** X3. [escapeHTML] returns a text as it is exactly when the text has none
    of the five characters; hence escaping a text twice differs from
    escaping it once as soon as it has any of them. *)
Theorem escapeHTML_fixed_iff (s : string) :
  (escapeHTML (Some (JStr s)) = s <-> all_plain s = true) /\
  (escapeHTML (Some (JStr (escapeHTML (Some (JStr s))))) = escapeHTML (Some (JStr s))
   <-> all_plain s = true).
Proof.
  assert (F : forall s, escape_chars s = s <-> all_plain s = true).
  { clear s. induction s as [|c s IH]; simpl; [tauto|]. split.
    - intros H. destruct (plain c) eqn:P.
      + destruct (entity_head c) as (r & E & Hr). rewrite P in E. rewrite (Hr P) in E.
        rewrite E in H. simpl in H. injection H as H. now apply IH.
      + exfalso. apply (f_equal String.length) in H.
        rewrite string_length_app in H. simpl in H.
        pose proof (entity_longer c P). pose proof (escape_chars_length s). lia.
    - intros H. apply andb_true_iff in H. destruct H as [P H].
      destruct (entity_head c) as (r & E & Hr). rewrite P in E. rewrite (Hr P) in E.
      rewrite E. simpl. f_equal. now apply IH. }
  simpl. rewrite !escape_one_pass. split; [apply F|].
  split.
  - intros H. apply escape_chars_injective in H. now apply F.
  - intros H. apply F in H. now rewrite !H.
Qed.

(** * The roll display *)

Lemma join_app sep (l1 l2 : list string) :
  l1 <> [] -> l2 <> [] ->
  join sep (l1 ++ l2) = (join sep l1 ++ sep ++ join sep l2)%string.
Proof.
  intros H1 H2. induction l1 as [|x l1 IH]; [congruence|].
  destruct l1 as [|y l1].
  - simpl. destruct l2; [congruence|reflexivity].
  - change (join sep ((x :: y :: l1) ++ l2))
      with (x ++ sep ++ join sep ((y :: l1) ++ l2))%string.
    rewrite IH by discriminate.
    change (join sep (x :: y :: l1)) with (x ++ sep ++ join sep (y :: l1))%string.
    now rewrite !string_app_assoc.
Qed.

(** X4. The roll display.  Without rolls (no array, or an empty one) it is
    the placeholder; the display of two runs of rolls put together is the
    two displays with one blank between them, so rolls appended to a run
    only extend what the player was shown before. *)
Theorem formatDiceRollsHTML_app (l1 l2 : list Z) :
  l1 <> [] -> l2 <> [] ->
  formatDiceRollsHTML (Some (l1 ++ l2))
  = (formatDiceRollsHTML (Some l1) ++ " " ++ formatDiceRollsHTML (Some l2))%string.
Proof.
  intros H1 H2. unfold formatDiceRollsHTML.
  destruct l1 as [|a l1]; [congruence|]. destruct l2 as [|b l2]; [congruence|].
  change ((a :: l1) ++ b :: l2) with (a :: (l1 ++ b :: l2)).
  change (a :: (l1 ++ b :: l2)) with ((a :: l1) ++ b :: l2).
  rewrite map_app. apply join_app; discriminate.
Qed.

Lemma formatDiceRollsHTML_app_witness :
  formatDiceRollsHTML (Some ([3; 2] ++ [4]))
  = (formatDiceRollsHTML (Some [3; 2]) ++ " " ++ formatDiceRollsHTML (Some [4]))%string.
Proof. apply formatDiceRollsHTML_app; discriminate. Defined.

(** * Numbers and their decimal text *)

Lemma take_digits_of_uint (d : Decimal.uint) :
  take_digits (NilEmpty.string_of_uint d) = NilEmpty.string_of_uint d.
Proof. induction d; simpl; congruence. Qed.

Lemma digits_value_of_uint (d : Decimal.uint) :
  d <> Decimal.Nil ->
  digits_value (NilEmpty.string_of_uint d) = Some (Z.of_uint d).
Proof.
  intros H. unfold digits_value. rewrite take_digits_of_uint.
  destruct (NilEmpty.string_of_uint d) eqn:E.
  - destruct d; simpl in E; congruence.
  - rewrite <- E, NilEmpty.usu. reflexivity.
Qed.

Lemma skip_spaces_of_uint (d : Decimal.uint) :
  skip_spaces (NilEmpty.string_of_uint d) = NilEmpty.string_of_uint d.
Proof. destruct d; reflexivity. Qed.

Lemma of_uint_to_uint p : Z.of_uint (Pos.to_uint p) = Z.pos p.
Proof. unfold Z.of_uint. now rewrite DecimalPos.Unsigned.of_to. Qed.

Lemma string_of_uint_head (d : Decimal.uint) :
  d <> Decimal.Nil ->
  exists c r, NilEmpty.string_of_uint d = String c r /\ is_digit c = true.
Proof. destruct d; intros H; try congruence; simpl; eauto. Qed.

Lemma js_parseInt_digits (d : Decimal.uint) :
  d <> Decimal.Nil ->
  js_parseInt (JStr (NilEmpty.string_of_uint d)) = JNum (Z.of_uint d).
Proof.
  intros H. unfold js_parseInt. cbn [js_String]. rewrite skip_spaces_of_uint.
  pose proof (digits_value_of_uint d H) as V.
  destruct d; try congruence; cbn [NilEmpty.string_of_uint] in *; rewrite V; reflexivity.
Qed.

Lemma string_of_pos p :
  NilZero.string_of_uint (Pos.to_uint p) = NilEmpty.string_of_uint (Pos.to_uint p).
Proof.
  pose proof (DecimalPos.Unsigned.to_uint_nonnil p) as H.
  unfold NilZero.string_of_uint. destruct (Pos.to_uint p); congruence.
Qed.

(** [parseInt] reads back the decimal text of an integer. *)
Lemma js_parseInt_dec (n : Z) : js_parseInt (JStr (dec n)) = JNum n.
Proof.
  unfold dec. destruct n as [|p|p]; [reflexivity| |];
    cbn [Z.to_int NilZero.string_of_int]; rewrite string_of_pos;
    pose proof (DecimalPos.Unsigned.to_uint_nonnil p) as H.
  - rewrite js_parseInt_digits by exact H. now rewrite of_uint_to_uint.
  - unfold js_parseInt. cbn [js_String skip_spaces].
    change (is_space "-") with false. cbv iota.
    rewrite (digits_value_of_uint _ H), of_uint_to_uint. reflexivity.
Qed.

Lemma js_parseInt_number (n : Z) : js_parseInt (JNum n) = JNum n.
Proof. apply js_parseInt_dec. Qed.

Lemma dec_not_empty (n : Z) : dec n <> "".
Proof.
  unfold dec. destruct n as [|p|p]; try discriminate.
  cbn [Z.to_int NilZero.string_of_int]. rewrite string_of_pos.
  pose proof (DecimalPos.Unsigned.to_uint_nonnil p) as H.
  destruct (Pos.to_uint p); simpl; congruence.
Qed.

(** * Reading the configuration *)

(** X5. A configuration variable holding the decimal text of an integer of
    at most 2^53 in magnitude (the integers [parseInt] returns exactly)
    configures that integer; an unset or empty variable configures the
    default. *)
Theorem env_int_reads_decimal (n fallback : Z) :
  Z.abs n <= 2 ^ 53 ->
  env_int (Some (dec n)) fallback = JNum n /\
  env_int None fallback = JNum fallback /\
  env_int (Some "") fallback = JNum fallback.
Proof.
  intros _. split; [|split; reflexivity]. unfold env_int.
  destruct (String.eqb_spec (dec n) "") as [E|_].
  - now apply dec_not_empty in E.
  - apply js_parseInt_dec.
Qed.

Lemma env_int_reads_decimal_witness :
  env_int (Some "45000") 3000 = JNum 45000 /\ env_int (Some "-2") 1 = JNum (-2).
Proof.
  split.
  - apply (env_int_reads_decimal 45000 3000). vm_compute. discriminate.
  - apply (env_int_reads_decimal (-2) 1). vm_compute. discriminate.
Defined.

Lemma poll_tick_number (n : Z) script s :
  poll_tick (JNum n) script s = checkAndInitiateJackpotSessions n script s.
Proof.
  unfold poll_tick, checkAndInitiateJackpotSessions.
  destruct (isShuttingDownHelper (snd s)); [reflexivity|].
  cbn [js_ge js_ToNumber js_sub].
  destruct (Z.leb n _); [reflexivity|].
  destruct (Z.leb (n - _) 0); reflexivity.
Qed.

(** X6. A limit that is not a positive number.  When
    [MAX_SESSIONS_PER_CYCLE] is read from a text [parseInt] finds no number
    in, or from a number that is zero or negative, a tick of the poll claims
    nothing and changes nothing, and does not report an error either. *)
Theorem poll_without_positive_limit (value : option string) (fallback : Z)
    (script : nat -> attempt_env) (s : state) :
  env_int value fallback = JNaN \/
  (exists n, env_int value fallback = JNum n /\ n <= 0) ->
  poll_tick (env_int value fallback) script s = (s, Returned).
Proof.
  intros [->|(n & -> & Hn)].
  - unfold poll_tick. destruct (isShuttingDownHelper (snd s)); reflexivity.
  - rewrite poll_tick_number. unfold checkAndInitiateJackpotSessions.
    destruct (isShuttingDownHelper (snd s)); [reflexivity|].
    destruct (Z.leb_spec n (Z.of_nat (List.length (activeHelperSessions (snd s)))));
      [reflexivity|lia].
Qed.

Lemma poll_without_positive_limit_witness :
  poll_tick (env_int (Some "two") 1) (fun _ => quiet) two_queued = (two_queued, Returned).
Proof.
  apply poll_without_positive_limit. left. vm_compute. reflexivity.
Defined.

(** * The session object at claim time *)

Lemma map_get_set k v m : map_get k (map_set k v m) = Some v.
Proof.
  induction m as [|[k' v'] m IH]; simpl.
  - now rewrite Z.eqb_refl.
  - destruct (Z.eqb_spec k' k); simpl.
    + now rewrite Z.eqb_refl.
    + destruct (Z.eqb_spec k' k); [contradiction|exact IH].
Qed.

Lemma register_new_object r w w1 :
  register r w = inr w1 ->
  exists parsed,
    parse_rolls (initial_rolls_json r) = inr parsed /\
    get_session (session_id r) w1
    = Some (List.length (heap w),
            mkSession r [] 0 (js_parseInt (initial_score r)) None parsed) /\
    heap w1 = heap w ++ [mkSession r [] 0 (js_parseInt (initial_score r)) None parsed] /\
    activeHelperSessions w1
    = map_set (session_id r) (List.length (heap w)) (activeHelperSessions w) /\
    timers w1 = timers w /\ next_timer w1 = next_timer w /\ sends w1 = sends w /\
    finalizing w1 = finalizing w /\ effects w1 = effects w /\
    botUsername w1 = botUsername w /\
    isShuttingDownHelper w1 = isShuttingDownHelper w.
Proof.
  unfold register. destruct (parse_rolls (initial_rolls_json r)) as [e|parsed]; [discriminate|].
  intros H. injection H as <-. exists parsed. split; [reflexivity|].
  split; [|repeat split].
  unfold get_session. cbn [activeHelperSessions with_sessions heap with_heap].
  now rewrite map_get_set, nth_error_last.
Qed.

(** X7. The session object made at claim time.  For an [initial_score] of
    at most 2^53 in magnitude (the integers [parseInt] returns exactly),
    whether the store delivers it as a number or as its decimal text, the
    new object starts with that number as its total, with no run rolls, a
    run score of 0 and no timer, and it is the object the map holds for the
    session. *)
Theorem register_starts_from_initial_score (r : row) (w w1 : worker) (n : Z) :
  register r w = inr w1 ->
  Z.abs n <= 2 ^ 53 ->
  initial_score r = JNum n \/ initial_score r = JStr (dec n) ->
  exists ref sd,
    get_session (session_id r) w1 = Some (ref, sd) /\
    sd_row sd = r /\ current_total_score sd = JNum n /\
    jackpot_run_rolls sd = [] /\ jackpot_run_score sd = 0 /\
    turnTimeoutId sd = None /\
    parse_rolls (initial_rolls_json r) = inr (initial_rolls_parsed sd).
Proof.
  intros R _ Hs. destruct (register_new_object r w w1 R) as (parsed & Hp & G & _).
  eexists _, _. split; [exact G|]. cbn.
  assert (E : js_parseInt (initial_score r) = JNum n).
  { destruct Hs as [->| ->]; [apply js_parseInt_number|apply js_parseInt_dec]. }
  rewrite E. repeat split; auto.
Qed.

Lemma register_starts_from_initial_score_witness :
  exists ref sd,
    get_session 1 (match register (demo_row 1 10 (JStr "7") (JNum 100)) (fresh_worker demo_bot)
                   with inr w1 => w1 | inl _ => fresh_worker demo_bot end)
    = Some (ref, sd) /\
    current_total_score sd = JNum 7.
Proof.
  destruct (register_starts_from_initial_score
              (demo_row 1 10 (JStr "7") (JNum 100)) (fresh_worker demo_bot)
              (with_sessions [(1, 0%nat)]
                 (with_heap [mkSession (demo_row 1 10 (JStr "7") (JNum 100)) [] 0 (JNum 7)
                                       None [3; 2]]
                            (fresh_worker demo_bot)))
              7 eq_refl ltac:(vm_compute; discriminate) (or_intror eq_refl))
    as (ref & sd & G & _ & T & _).
  exists ref, sd. split; [exact G|exact T].
Defined.

(** * The queue is served oldest first *)

Lemma order_by_created_head (l : list row) :
  match order_by_created l with
  | [] => l = []
  | x :: _ => forall y, In y l -> created_at x <= created_at y
  end.
Proof.
  induction l as [|r l IH]; [reflexivity|]. simpl.
  destruct (order_by_created l) as [|x rest] eqn:E.
  - subst l. simpl. intros y [<-|[]]. lia.
  - simpl. destruct (Z.leb_spec (created_at r) (created_at x)).
    + intros y [<-|Hy]; [lia|]. specialize (IH y Hy). lia.
    + intros y [<-|Hy]; [lia|]. now apply IH.
Qed.

(** X8. The SELECT serves the queue oldest first.  It returns no row exactly
    when every queued row is locked by somebody else, and one row otherwise:
    a queued row of the table nobody has locked, and none of the other such
    rows was created earlier. *)
Theorem select_pending_oldest (locked : Z -> bool) (t : table) :
  (select_pending locked t = [] <->
   forall r, In r t -> is_pending r = true -> locked (session_id r) = true) /\
  (forall r rest, select_pending locked t = r :: rest ->
     rest = [] /\ In r t /\ is_pending r = true /\ locked (session_id r) = false /\
     forall r', In r' t -> is_pending r' = true -> locked (session_id r') = false ->
                created_at r <= created_at r').
Proof.
  unfold select_pending.
  set (c := filter (fun r => is_pending r && negb (locked (session_id r))) t).
  assert (Hc : forall r, In r c <->
             In r t /\ is_pending r = true /\ locked (session_id r) = false).
  { intros r. subst c. rewrite filter_In, andb_true_iff, negb_true_iff. tauto. }
  pose proof (order_by_created_head c) as Hh.
  destruct (order_by_created c) as [|x rest'] eqn:E; simpl.
  - split.
    + split; [|reflexivity]. intros _ r Hin Hp.
      destruct (locked (session_id r)) eqn:L; auto.
      assert (In r c) by (apply Hc; auto). rewrite Hh in *. contradiction.
    + discriminate.
  - assert (Hx : In x c) by (apply in_order_by_created; rewrite E; now left).
    split.
    + split; [discriminate|]. intros H. apply Hc in Hx. destruct Hx as (Hin & Hp & Hl).
      rewrite (H x Hin Hp) in Hl. discriminate.
    + intros r rest H. injection H as <- <-. apply Hc in Hx.
      destruct Hx as (Hin & Hp & Hl). repeat (split; auto).
      intros r' Hin' Hp' Hl'. apply Hh. apply Hc. auto.
Qed.

(** * What the two UPDATEs leave alone *)

(** X9. Neither the claiming nor the finalizing UPDATE adds, drops or
    reorders rows, and neither changes a column the enqueuing bot filled in:
    session id, player, chat, initial score and rolls, target, bust value,
    pool and creation time of every row stay as they are. *)
Theorem updates_keep_enqueued_columns (t : table) (u : string) (sid now : Z)
    (finalStatus : string) (score : jsval) (rolls : list Z) (notes : string) :
  map enqueued (fst (update_claim u sid now t)) = map enqueued t /\
  map enqueued (fst (update_finalize finalStatus score rolls notes sid u now t))
  = map enqueued t.
Proof.
  unfold update_claim, update_finalize; simpl. rewrite !map_map. split.
  - apply map_ext. intros r. now destruct (claim_where sid r).
  - apply map_ext. intros r. now destruct (finalize_where sid u r).
Qed.

(** * Finalizing a session another helper holds *)

(** X10. The finalizing UPDATE is not reserved to the owner.  A session
    that is [active_by_helper] under any helper is rewritten by the
    finalizing UPDATE of every helper that names it: the statement affects
    the row, and the row keeps the id of the helper that claimed it. *)
Theorem finalize_reaches_foreign_session (t : table) (r : row) (u : string)
    (finalStatus : string) (score : jsval) (rolls : list Z) (notes : string) (now : Z) :
  In r t -> is_active r = true ->
  (0 < snd (update_finalize finalStatus score rolls notes (session_id r) u now t))%nat /\
  In (finalize_set finalStatus score rolls notes now r)
     (fst (update_finalize finalStatus score rolls notes (session_id r) u now t)) /\
  helper_bot_id (finalize_set finalStatus score rolls notes now r) = helper_bot_id r.
Proof.
  intros Hin Ha.
  assert (W : finalize_where (session_id r) u r = true).
  { unfold finalize_where. now rewrite Z.eqb_refl, Ha. }
  split; [|split; [|reflexivity]].
  - apply update_finalize_count. exists r. auto.
  - now apply update_finalize_writes.
Qed.

Lemma finalize_reaches_foreign_session_witness :
  let held := claim_set "HelperA" 20 (demo_row 1 10 (JNum 7) (JNum 100)) in
  update_finalize completed_timeout_forfeit (JNum 7) [3; 2] "late" 1 "HelperB" 31 [held]
  = ([finalize_set completed_timeout_forfeit (JNum 7) [3; 2] "late" 31 held], 1%nat) /\
  Nat.lt 0 (snd (update_finalize completed_timeout_forfeit (JNum 7) [3; 2] "late" 1
                    "HelperB" 31 [held])).
Proof.
  split; [vm_compute; reflexivity|].
  apply (finalize_reaches_foreign_session
           [claim_set "HelperA" 20 (demo_row 1 10 (JNum 7) (JNum 100))]
           (claim_set "HelperA" 20 (demo_row 1 10 (JNum 7) (JNum 100)))
           "HelperB" completed_timeout_forfeit (JNum 7) [3; 2] "late" 31).
  - now left.
  - reflexivity.
Defined.

(** * One attempt on its own *)

Lemma locked_by_other_skipped env t sid :
  locked_by_other 0 (mkStore t (map (fun sid => (sid, 1%nat)) (ae_locked env))) sid
  = skipped env sid.
Proof.
  unfold locked_by_other, skipped. cbn [locks].
  induction (ae_locked env) as [|x l IH]; simpl; auto.
  rewrite IH, andb_true_r. f_equal. apply Z.eqb_sym.
Qed.

Lemma select_pending_ext f g t :
  (forall sid, f sid = g sid) -> select_pending f t = select_pending g t.
Proof.
  intros H. unfold select_pending. do 2 f_equal. apply filter_ext.
  intros r. now rewrite H.
Qed.

Lemma claim_where_only r t :
  keyed t -> In r t -> is_pending r = true ->
  filter (claim_where (session_id r)) t = [r].
Proof.
  unfold keyed. induction t as [|x t IH]; intros Hk Hin Hp; [contradiction|].
  simpl in Hk. inversion Hk as [|? ? Hni Hk']; subst.
  assert (Hno : forall l, ~ In (session_id r) (map session_id l) ->
                          filter (claim_where (session_id r)) l = []).
  { induction l as [|y l IHl]; simpl; auto. intros Hn. unfold claim_where at 1.
    destruct (Z.eqb_spec (session_id y) (session_id r)) as [E|_]; [tauto|].
    simpl. apply IHl. tauto. }
  destruct Hin as [->|Hin].
  - simpl. unfold claim_where at 1. rewrite Z.eqb_refl, Hp. simpl.
    now rewrite Hno.
  - simpl. unfold claim_where at 1.
    destruct (Z.eqb_spec (session_id x) (session_id r)) as [E|_].
    + exfalso. apply Hni. rewrite E. now apply in_map.
    + simpl. now apply IH.
Qed.

Lemma steps_S u now faults k n st p :
  steps u now faults k (S n) (st, p)
  = steps u now faults (S k) n (attempt_step 0 u now (faults k) st p).
Proof. reflexivity. Qed.

Lemma steps_finished u now faults n : forall k st o,
  steps u now faults k n (st, Finished o) = (st, Finished o).
Proof. induction n as [|n IH]; intros k st o; [reflexivity|]. rewrite steps_S. apply IH. Qed.

Lemma update_claim_returns_selected u now r t :
  keyed t -> In r t -> is_pending r = true ->
  snd (update_claim u (session_id r) now t) = [claim_set u now r].
Proof.
  intros Hk Hin Hp. unfold update_claim. cbn [snd].
  now rewrite (claim_where_only r t Hk Hin Hp).
Qed.

(** The next awaited call of an attempt is answered ([H] tells so). *)
Ltac answered H :=
  rewrite steps_S; cbn [attempt_step rows]; rewrite H; cbv iota.

(** An attempt the store answers without fault, up to its SELECT. *)
Lemma claim_attempt_selects (env : attempt_env) (u : string) (t : table) :
  (forall k, ae_faults env k = None) ->
  steps u (ae_now env) (ae_faults env) 0 6
        (mkStore t (map (fun sid => (sid, 1%nat)) (ae_locked env)), AtConnect)
  = steps u (ae_now env) (ae_faults env) 3 3
      match select_pending (skipped env) t with
      | [] => (mkStore t (map (fun sid => (sid, 1%nat)) (ae_locked env)), AtCommitEmpty)
      | r :: _ =>
          (mkStore t ((session_id r, 0%nat)
                        :: map (fun sid => (sid, 1%nat)) (ae_locked env)),
           AtUpdate r)
      end.
Proof.
  intros Hf.
  answered (Hf 0%nat). answered (Hf 1%nat). answered (Hf 2%nat).
  now rewrite (select_pending_ext _ _ t (locked_by_other_skipped env t)).
Qed.

(** With no free queued row it commits the empty transaction. *)
Lemma claim_attempt_idle (env : attempt_env) (u : string) (t : table) :
  (forall k, ae_faults env k = None) ->
  select_pending (skipped env) t = [] ->
  claim_attempt env u t = (t, NoPending).
Proof.
  intros Hf S. unfold claim_attempt. rewrite (claim_attempt_selects env u t Hf), S.
  answered (Hf 3%nat). rewrite steps_finished. reflexivity.
Qed.

(** The free queued row it selected is the one it comes back with. *)
Lemma claim_attempt_claims (env : attempt_env) (u : string) (t : table) r rest :
  (forall k, ae_faults env k = None) -> keyed t ->
  select_pending (skipped env) t = r :: rest ->
  claim_attempt env u t
  = (fst (update_claim u (session_id r) (ae_now env) t),
     Claimed (claim_set u (ae_now env) r)).
Proof.
  intros Hf Hk S. unfold claim_attempt. rewrite (claim_attempt_selects env u t Hf), S.
  apply select_pending_sound in S. destruct S as (Hin & Hp & _).
  answered (Hf 3%nat).
  rewrite (update_claim_returns_selected u (ae_now env) r t Hk Hin Hp).
  cbn [List.length Nat.ltb Nat.leb].
  answered (Hf 4%nat). rewrite steps_finished. reflexivity.
Qed.

(** X11. An attempt the store answers without fault.  With no queued row
    that is free it commits and reports that nothing is pending, the table
    as it was.  Otherwise it claims the oldest free queued row: the table
    is the one the claiming UPDATE of that session gives, and the row the
    helper goes on with is that row as claimed, [active_by_helper] under
    the helper's name. *)
Theorem claim_attempt_takes_oldest (env : attempt_env) (u : string) (t : table) :
  (forall k, ae_faults env k = None) -> keyed t ->
  claim_attempt env u t =
  match select_pending (skipped env) t with
  | [] => (t, NoPending)
  | r :: _ => (fst (update_claim u (session_id r) (ae_now env) t),
               Claimed (claim_set u (ae_now env) r))
  end.
Proof.
  intros Hf Hk. destruct (select_pending (skipped env) t) as [|r rest] eqn:S.
  - now apply claim_attempt_idle.
  - now apply (claim_attempt_claims env u t r rest).
Qed.

Lemma claim_attempt_takes_oldest_witness :
  claim_attempt quiet demo_bot
    [demo_row 2 11 (JNum 5) (JNum 100); demo_row 1 10 (JNum 7) (JNum 100)]
  = ([demo_row 2 11 (JNum 5) (JNum 100);
      claim_set demo_bot 20 (demo_row 1 10 (JNum 7) (JNum 100))],
     Claimed (claim_set demo_bot 20 (demo_row 1 10 (JNum 7) (JNum 100)))).
Proof.
  rewrite (claim_attempt_takes_oldest quiet demo_bot
             [demo_row 2 11 (JNum 5) (JNum 100); demo_row 1 10 (JNum 7) (JNum 100)]).
  - vm_compute. reflexivity.
  - reflexivity.
  - unfold keyed. simpl. repeat constructor; simpl; intuition discriminate.
Defined.

(** X12. A store failure during an attempt.  When one of the awaited calls
    of an attempt is rejected by the store (connect, BEGIN, SELECT, the
    UPDATE or the COMMIT that follows them), the attempt ends with that
    error and, a rejected call having no effect, the table is as it was
    before the attempt: a claim whose COMMIT is rejected has not been
    made. *)
Theorem claim_attempt_fault_rolls_back (env : attempt_env) (u : string) (t : table)
    (k : nat) (e : js_error) :
  ae_faults env k = Some e ->
  (forall j, (j < k)%nat -> ae_faults env j = None) ->
  (k <= 3)%nat \/ (k = 4%nat /\ select_pending (skipped env) t <> []) ->
  claim_attempt env u t = (t, Failed e).
Proof.
  intros Hk Hbefore Hwhere. unfold claim_attempt.
  assert (K : (k = 0 \/ k = 1 \/ k = 2 \/ k = 3 \/ k = 4)%nat) by lia.
  destruct K as [->|[->|[->|[->| ->]]]].
  - answered Hk. rewrite steps_finished. reflexivity.
  - answered (Hbefore 0%nat ltac:(lia)). answered Hk.
    rewrite steps_S. cbn [attempt_step]. rewrite steps_finished. reflexivity.
  - answered (Hbefore 0%nat ltac:(lia)). answered (Hbefore 1%nat ltac:(lia)).
    answered Hk.
    rewrite steps_S. cbn [attempt_step]. rewrite steps_finished. reflexivity.
  - answered (Hbefore 0%nat ltac:(lia)). answered (Hbefore 1%nat ltac:(lia)).
    answered (Hbefore 2%nat ltac:(lia)).
    rewrite (select_pending_ext _ _ t (locked_by_other_skipped env t)).
    destruct (select_pending (skipped env) t) as [|r rest]; answered Hk;
      rewrite steps_S; cbn [attempt_step]; rewrite steps_finished; reflexivity.
  - destruct Hwhere as [Hw|[_ Hne]]; [lia|].
    answered (Hbefore 0%nat ltac:(lia)). answered (Hbefore 1%nat ltac:(lia)).
    answered (Hbefore 2%nat ltac:(lia)).
    rewrite (select_pending_ext _ _ t (locked_by_other_skipped env t)).
    destruct (select_pending (skipped env) t) as [|r rest] eqn:S; [congruence|].
    apply select_pending_sound in S. destruct S as (Hin & Hp & _).
    answered (Hbefore 3%nat ltac:(lia)).
    assert (Hret : Nat.ltb 0 (List.length (snd (update_claim u (session_id r) (ae_now env) t)))
                   = true).
    { apply Nat.ltb_lt. unfold update_claim; simpl. rewrite length_map.
      assert (In r (filter (claim_where (session_id r)) t)).
      { apply filter_In. split; auto. unfold claim_where. now rewrite Z.eqb_refl. }
      destruct (filter _ t); [contradiction|simpl; lia]. }
    rewrite Hret. answered Hk.
    rewrite steps_S. cbn [attempt_step]. rewrite steps_finished. reflexivity.
Qed.

Lemma claim_attempt_fault_rolls_back_witness :
  claim_attempt (mkEnv 20 [] (fun k => if Nat.eqb k 4
                                       then Some (mkError StoreFailure "commit failed")
                                       else None))
                demo_bot [demo_row 1 10 (JNum 7) (JNum 100)]
  = ([demo_row 1 10 (JNum 7) (JNum 100)], Failed (mkError StoreFailure "commit failed")).
Proof.
  apply (claim_attempt_fault_rolls_back _ demo_bot _ 4%nat).
  - reflexivity.
  - intros j Hj. simpl. destruct (Nat.eqb_spec j 4); [lia|reflexivity].
  - right. split; [reflexivity|]. vm_compute. discriminate.
Defined.

(** * Row locks of interleaved attempts *)

(** X13. Row locks follow the transactions.  However claim attempts,
    finalizing writes and enqueues interleave: no session is locked by two
    transactions at once; an attempt that has selected a session and has
    not yet issued its UPDATE holds the lock of that session; and an
    attempt that has ended, however it ended, holds no lock. *)
Theorem locks_follow_transactions (t : table) (schedule : list action) (s : system) :
  run schedule (init t) = Some s ->
  (forall sid i j, In (sid, i) (locks (sys_store s)) ->
                   In (sid, j) (locks (sys_store s)) -> i = j) /\
  (forall i a r, nth_error (attempts s) i = Some a -> at_pc a = AtUpdate r ->
                 In (session_id r, i) (locks (sys_store s))) /\
  (forall i a o, nth_error (attempts s) i = Some a -> at_pc a = Finished o ->
                 forall sid, ~ In (sid, i) (locks (sys_store s))).
Proof.
  intros Hrun.
  pose proof (run_consistent schedule (init t) s (consistent_init t) Hrun) as C.
  split; [|split].
  - intros sid i j. apply lock_owner_unique. apply (locks_nodup s C).
  - intros i a r Hi Hp. pose proof (attempts_ok s C i a Hi) as Hok.
    unfold attempt_ok in Hok. now rewrite Hp in Hok.
  - intros i a o Hi Hp. apply (not_in_transaction_no_lock s i a C Hi).
    rewrite Hp. simpl. tauto.
Qed.

Lemma locks_follow_transactions_witness :
  exists s,
    run demo_race (init [demo_row 1 10 (JNum 7) (JNum 100);
                         demo_row 2 11 (JNum 5) (JNum 100)]) = Some s /\
    forall sid, ~ In (sid, 0%nat) (locks (sys_store s)).
Proof.
  eexists. split; [vm_compute; reflexivity|].
  destruct (locks_follow_transactions
              [demo_row 1 10 (JNum 7) (JNum 100); demo_row 2 11 (JNum 5) (JNum 100)]
              demo_race _ ltac:(vm_compute; reflexivity)) as (_ & _ & H).
  eapply H; vm_compute; reflexivity.
Defined.

(** * What the handlers leave alone *)

Lemma keeps_refl w : keeps w w.
Proof. repeat split; auto. Qed.

Lemma keeps_trans w1 w2 w3 : keeps w1 w2 -> keeps w2 w3 -> keeps w1 w3.
Proof.
  intros (A1 & A2 & A3 & A4) (B1 & B2 & B3 & B4).
  repeat split; try congruence; try lia; auto.
Qed.

Lemma Forall_list_set {A} (P : A -> Prop) (i : nat) (x : A) (l : list A) :
  Forall P l -> P x -> Forall P (list_set i x l).
Proof.
  intros H Hx. revert i. induction H as [|y l Hy Hl IH]; intros [|i]; simpl;
    constructor; auto.
Qed.

Lemma made_in_heap w ref sd :
  Forall made (heap w) -> nth_error (heap w) ref = Some sd -> made sd.
Proof. intros H Hn. apply nth_error_In in Hn. rewrite Forall_forall in H. auto. Qed.

Lemma get_session_parts sid w ref sd :
  get_session sid w = Some (ref, sd) ->
  map_get sid (activeHelperSessions w) = Some ref /\ nth_error (heap w) ref = Some sd.
Proof.
  unfold get_session. destruct (map_get sid _) as [r|]; [|discriminate].
  destruct (nth_error (heap w) r) as [x|] eqn:E; [|discriminate].
  intros H. injection H as -> ->. auto.
Qed.

Lemma map_delete_length k m : (List.length (map_delete k m) <= List.length m)%nat.
Proof. apply filter_length_le. Qed.

Lemma map_set_length_present k v m :
  map_get k m <> None -> List.length (map_set k v m) = List.length m.
Proof.
  induction m as [|[k' v'] m IH]; simpl; [congruence|].
  destruct (Z.eqb k' k); simpl; auto.
Qed.

Lemma map_set_length k v m : (List.length (map_set k v m) <= S (List.length m))%nat.
Proof.
  induction m as [|[k' v'] m IH]; simpl; [lia|].
  destruct (Z.eqb k' k); simpl; lia.
Qed.

Lemma finalize_keeps sid st sc rolls notes w :
  keeps w (fst (finalizeJackpotSession sid st sc rolls notes w)).
Proof.
  destruct (finalize_shape sid st sc rolls notes w)
    as (Hm & Hh & _ & _ & Hb & Hf & _).
  repeat split; auto.
  - rewrite Hm. apply map_delete_length.
  - now rewrite Hh.
Qed.

Lemma send_update_keeps sid last w :
  keeps w (fst (sendJackpotRunUpdate sid last w)).
Proof.
  unfold sendJackpotRunUpdate.
  destruct (get_session sid w) as [[ref sd]|] eqn:G; [|apply keeps_refl].
  apply get_session_parts in G. destruct G as [Gm Gh].
  assert (Hlen : forall v, List.length (map_set sid v (activeHelperSessions w))
                           = List.length (activeHelperSessions w))
    by (intros v; apply map_set_length_present; congruence).
  assert (Hsd : Forall made (heap w) -> made sd) by (intros H; eapply made_in_heap; eauto).
  destruct (turnTimeoutId sd) as [id|];
    (destruct (js_BigInt _) as [lamports|]; [destruct (is_active (sd_row sd))|]);
    unfold keeps; simpl; repeat split; try (rewrite Hlen; lia); try lia; intros H;
    repeat apply Forall_list_set; auto; apply (made_timer sd); auto.
Qed.

Lemma take_in_keeps msg ref sd v w :
  nth_error (heap w) ref = Some sd -> keeps w (take_in msg ref sd v w).
Proof.
  intros Hn. unfold take_in.
  destruct (turnTimeoutId sd); simpl; repeat split; auto; intros H;
    apply Forall_list_set; auto; apply made_roll; eapply made_in_heap; eauto.
Qed.

Lemma on_message_keeps msg w : keeps w (fst (on_message msg w)).
Proof.
  unfold on_message.
  destruct (route msg w) as [[[sid ref] sd]|] eqn:R; [|apply keeps_refl].
  destruct (msg_dice msg) as [v|]; [|apply keeps_refl].
  apply route_sound in R. destruct R as (Hin & Hn & _).
  pose proof (take_in_keeps msg ref sd v w Hn) as K.
  destruct (js_strict_eq _ _); [eapply keeps_trans; [exact K|apply finalize_keeps]|].
  destruct (js_ge _ _); [eapply keeps_trans; [exact K|apply finalize_keeps]|].
  eapply keeps_trans; [|apply send_update_keeps].
  eapply keeps_trans; [exact K|].
  repeat split; auto. cbn [activeHelperSessions with_sessions].
  rewrite map_set_length_present; [lia|].
  assert (Hin' : In (sid, ref) (activeHelperSessions (take_in msg ref sd v w))).
  { unfold take_in. destruct (turnTimeoutId sd); exact Hin. }
  clear - Hin'. induction (activeHelperSessions (take_in msg ref sd v w)) as [|[k x] m IH];
    [contradiction|]. simpl. destruct (Z.eqb_spec k sid); [discriminate|].
  apply IH. destruct Hin' as [E|]; [congruence|assumption].
Qed.

Lemma on_timeout_keeps id w : keeps w (fst (on_timeout id w)).
Proof.
  unfold on_timeout. destruct (find _ (timers w)) as [[i sid]|]; [|apply keeps_refl].
  set (w1 := with_timers _ _ w).
  assert (K : keeps w w1) by (subst w1; repeat split; auto).
  clearbody w1. unfold handleJackpotRunTurnTimeout.
  destruct (get_session sid w1) as [[ref sd]|]; [|exact K].
  destruct (negb _); [exact K|].
  eapply keeps_trans; [exact K|apply finalize_keeps].
Qed.

Lemma on_delivery_keeps k result w : keeps w (fst (on_delivery k result w)).
Proof.
  unfold on_delivery. destruct (nth_error (sends w) k) as [c|]; [|apply keeps_refl].
  set (w1 := with_sends _ w).
  assert (K : keeps w w1) by (subst w1; repeat split; auto).
  clearbody w1. destruct result as [err|]; [|exact K].
  destruct (fatal_delivery err); [|exact K].
  destruct (nth_error (heap w1) (sc_sessionData c)); [|exact K].
  eapply keeps_trans; [exact K|apply finalize_keeps].
Qed.

Lemma finalize_write_keeps k fault now db w :
  keeps w (snd (finalize_write k fault now (db, w))).
Proof.
  unfold finalize_write. destruct (nth_error (finalizing w) k) as [fc|]; [|apply keeps_refl].
  destruct fault; [repeat split; auto|].
  destruct (update_finalize _ _ _ _ _ _ _ _) as [db' rc].
  destruct (Nat.ltb 0 rc); [|repeat split; auto].
  destruct (fc_sessionData fc) as [ref|]; [|repeat split; auto].
  destruct (nth_error (heap w) ref); repeat split; auto.
Qed.

Lemma opening_prompt_keeps r w : keeps w (opening_prompt r w).
Proof.
  unfold opening_prompt. pose proof (send_update_keeps (session_id r) None w) as K.
  destruct (sendJackpotRunUpdate (session_id r) None w) as [w' [e|]]; simpl in K; auto.
  eapply keeps_trans; [exact K|apply finalize_keeps].
Qed.

(** What a tick of the poll leaves alone; it adds at most [remaining]
    sessions. *)
Lemma claim_loop_grows script n : forall remaining s,
  let w := snd s in
  let w' := snd (fst (claim_loop script n remaining s)) in
  botUsername w' = botUsername w /\
  isShuttingDownHelper w' = isShuttingDownHelper w /\
  (List.length (activeHelperSessions w')
   <= List.length (activeHelperSessions w) + remaining)%nat /\
  (Forall made (heap w) -> Forall made (heap w')).
Proof.
  induction remaining as [|rem IH]; intros [db w]; [simpl; repeat split; auto; lia|].
  rewrite claim_loop_unfold. cbv zeta. cbn [snd].
  destruct (isShuttingDownHelper w) eqn:F; [cbn; repeat split; auto; lia|].
  destruct (claim_attempt _ _ db) as [db' o] eqn:A.
  apply claim_attempt_spec in A. destruct A as [_ Ho].
  destruct o as [r| | |e]; try (cbn; repeat split; auto; lia).
  destruct Ho as (_ & _ & Hact & Hown & _).
  destruct (register r w) as [e|w1] eqn:R; [cbn; repeat split; auto; lia|].
  destruct (register_new_object r w w1 R)
    as (parsed & Hp & _ & Hh & Hm & _ & _ & _ & _ & _ & Hb & Hf).
  pose proof (opening_prompt_keeps r w1) as (K1 & K2 & K3 & K4).
  assert (K : botUsername (opening_prompt r w1) = botUsername w /\
              isShuttingDownHelper (opening_prompt r w1) = isShuttingDownHelper w /\
              (List.length (activeHelperSessions (opening_prompt r w1))
               <= S (List.length (activeHelperSessions w)))%nat /\
              (Forall made (heap w) -> Forall made (heap (opening_prompt r w1)))).
  { repeat split; try congruence.
    - rewrite Hm in K3. pose proof (map_set_length (session_id r) (List.length (heap w))
                                      (activeHelperSessions w)). lia.
    - intros H. apply K4. rewrite Hh. apply Forall_app. split; auto.
      constructor; [|constructor]. eapply made_at_claim; eauto. }
  destruct K as (L1 & L2 & L3 & L4).
  destruct (_ && _); [cbn; rewrite F in L2; repeat split; auto; lia|].
  specialize (IH (db', opening_prompt r w1)). cbv zeta in IH. cbn [snd] in IH.
  destruct IH as (I1 & I2 & I3 & I4).
  rewrite F in L2. repeat split; try congruence; auto; lia.
Qed.

Lemma poll_grows max script s :
  let w := snd s in
  let w' := snd (fst (checkAndInitiateJackpotSessions max script s)) in
  botUsername w' = botUsername w /\
  isShuttingDownHelper w' = isShuttingDownHelper w /\
  (Z.of_nat (List.length (activeHelperSessions w))  <= Z.max 0 max ->
   Z.of_nat (List.length (activeHelperSessions w')) <= Z.max 0 max) /\
  (Forall made (heap w) -> Forall made (heap w')).
Proof.
  destruct s as [db w]. unfold checkAndInitiateJackpotSessions. cbv zeta. cbn [snd].
  destruct (isShuttingDownHelper w) eqn:F; [cbn; auto|].
  destruct (Z.leb_spec max (Z.of_nat (List.length (activeHelperSessions w))));
    [cbn; auto|].
  destruct (Z.leb_spec (max - Z.of_nat (List.length (activeHelperSessions w))) 0);
    [cbn; auto|].
  pose proof (claim_loop_grows script
                (Z.to_nat (max - Z.of_nat (List.length (activeHelperSessions w))))
                (Z.to_nat (max - Z.of_nat (List.length (activeHelperSessions w))))
                (db, w)) as (G1 & G2 & G3 & G4).
  cbn [snd] in G1, G2, G3, G4. rewrite F in G2. repeat split; auto. intros _. lia.
Qed.

Lemma shutdown_keeps_made w :
  Forall made (heap w) -> Forall made (heap (shutdownHelper w)).
Proof. unfold shutdownHelper. now destruct (isShuttingDownHelper w). Qed.

(** * The helper never holds more sessions than its limit *)

Lemma handle_within_limit max e s :
  Z.of_nat (List.length (activeHelperSessions (snd s))) <= Z.max 0 max ->
  Z.of_nat (List.length (activeHelperSessions (snd (handle max e s)))) <= Z.max 0 max.
Proof.
  intros H. destruct s as [db w]. destruct e; unfold handle; cbn [fst snd] in *.
  - exact H.
  - now apply (poll_grows max script (db, w)).
  - pose proof (on_message_keeps msg w) as (_ & _ & K & _). lia.
  - pose proof (on_timeout_keeps id w) as (_ & _ & K & _). lia.
  - pose proof (on_delivery_keeps k result w) as (_ & _ & K & _). lia.
  - pose proof (finalize_write_keeps k fault now db w) as (_ & _ & K & _). lia.
  - unfold shutdownHelper. now destruct (isShuttingDownHelper w).
  - exact H.
Qed.

(** X14. The limit on live sessions.  With every tick of the poll run as
    one turn of the event loop, so that no two ticks overlap: in every state
    the helper can reach, the number of sessions in its live table is at
    most [MAX_SESSIONS_PER_CYCLE] (none at all when that limit is zero or
    negative).  Ticks that overlap are the matter of X27. *)
Theorem live_sessions_within_limit (max : Z) (db : table) (name : string) (s : state) :
  reachable max (db, fresh_worker name) s ->
  Z.of_nat (List.length (activeHelperSessions (snd s))) <= Z.max 0 max.
Proof.
  induction 1 as [|s e _ IH _].
  - simpl. lia.
  - now apply handle_within_limit.
Qed.

Lemma live_sessions_within_limit_witness :
  Z.of_nat (List.length (activeHelperSessions
                           (snd (after_rolls [4; 5] (demo_claimed (JNum 7) (JNum 100))))))
  <= Z.max 0 1.
Proof.
  apply (live_sessions_within_limit 1 _ demo_bot _
           (after_rolls_reachable [4; 5] _ _ (demo_claimed_reachable (JNum 7) (JNum 100)))).
Defined.

(** * A tick of the poll *)

Lemma claim_loop_first_only script script' n s :
  script 0%nat = script' 0%nat ->
  claim_loop script n n s = claim_loop script' n n s.
Proof.
  intros E. destruct n as [|m]; [reflexivity|]. destruct s as [db w].
  rewrite !claim_loop_unfold. cbv zeta. rewrite Nat.sub_diag, <- E.
  destruct (isShuttingDownHelper w); [reflexivity|].
  destruct (claim_attempt (script 0%nat) (botUsername w) db) as [db' o].
  destruct o as [r| | |e]; try reflexivity.
  destruct (register r w) as [e|w1]; [reflexivity|].
  destruct m as [|m]; [reflexivity|].
  replace (Nat.ltb 1 (S (S m)) && Nat.ltb 0 (S (S m) - 1)) with true; [reflexivity|].
  symmetry. apply andb_true_iff. split; apply Nat.ltb_lt; lia.
Qed.

Lemma claim_loop_one_more script n s :
  (List.length (activeHelperSessions (snd (fst (claim_loop script n n s))))
   <= S (List.length (activeHelperSessions (snd s))))%nat.
Proof.
  destruct n as [|m]; [simpl; lia|]. destruct s as [db w].
  rewrite claim_loop_unfold. cbv zeta. cbn [snd].
  destruct (isShuttingDownHelper w); [simpl; lia|].
  destruct (claim_attempt _ (botUsername w) db) as [db' o].
  destruct o as [r| | |e]; try (simpl; lia).
  destruct (register r w) as [e|w1] eqn:R; [simpl; lia|].
  destruct (register_new_object r w w1 R) as (_ & _ & _ & _ & Hm & _).
  pose proof (opening_prompt_keeps r w1) as (_ & _ & K & _).
  pose proof (map_set_length (session_id r) (List.length (heap w)) (activeHelperSessions w)).
  rewrite Hm in K. rewrite Nat.sub_diag.
  destruct m as [|m]; [simpl; lia|].
  replace (Nat.ltb 1 (S (S m)) && Nat.ltb 0 (S (S m) - 1)) with true; [simpl; lia|].
  symmetry. apply andb_true_iff. split; apply Nat.ltb_lt; lia.
Qed.

(** X15. A tick makes one attempt.  Whatever [MAX_SESSIONS_PER_CYCLE] allows,
    a tick of the poll never gets past its first claim attempt: what the
    store does during later attempts has no bearing on the tick, and the
    live table gains at most one session. *)
Theorem tick_makes_one_attempt (max : Z) (script script' : nat -> attempt_env)
    (s : state) :
  script 0%nat = script' 0%nat ->
  checkAndInitiateJackpotSessions max script s
  = checkAndInitiateJackpotSessions max script' s /\
  (List.length (activeHelperSessions
                  (snd (fst (checkAndInitiateJackpotSessions max script s))))
   <= S (List.length (activeHelperSessions (snd s))))%nat.
Proof.
  intros E. unfold checkAndInitiateJackpotSessions. cbv zeta.
  destruct (isShuttingDownHelper (snd s)); [simpl; split; [reflexivity|lia]|].
  destruct (Z.leb max _); [simpl; split; [reflexivity|lia]|].
  destruct (Z.leb _ 0); [simpl; split; [reflexivity|lia]|].
  split; [now apply claim_loop_first_only|apply claim_loop_one_more].
Qed.

Lemma tick_makes_one_attempt_witness :
  checkAndInitiateJackpotSessions 2 (fun _ => quiet) two_queued
  = checkAndInitiateJackpotSessions 2
      (fun i => if Nat.eqb i 0 then quiet else update_fails_once 0) two_queued.
Proof.
  apply (tick_makes_one_attempt 2 (fun _ => quiet)
           (fun i => if Nat.eqb i 0 then quiet else update_fails_once 0) two_queued).
  reflexivity.
Defined.

(** * Shutdown *)

Lemma handle_keeps_flag max e s :
  isShuttingDownHelper (snd s) = true ->
  isShuttingDownHelper (snd (handle max e s)) = true.
Proof.
  intros F. destruct s as [db w]. destruct e; unfold handle; cbn [fst snd] in *.
  - exact F.
  - pose proof (poll_grows max script (db, w)) as (_ & K & _). cbn [snd] in K. congruence.
  - pose proof (on_message_keeps msg w) as (_ & K & _). congruence.
  - pose proof (on_timeout_keeps id w) as (_ & K & _). congruence.
  - pose proof (on_delivery_keeps k result w) as (_ & K & _). congruence.
  - pose proof (finalize_write_keeps k fault now db w) as (_ & K & _). congruence.
  - unfold shutdownHelper. rewrite F. exact F.
  - exact F.
Qed.

Lemma poll_ignored_in_shutdown max script s :
  isShuttingDownHelper (snd s) = true ->
  checkAndInitiateJackpotSessions max script s = (s, Returned).
Proof. intros F. unfold checkAndInitiateJackpotSessions. cbv zeta. now rewrite F. Qed.

Lemma message_ignored_in_shutdown msg w :
  isShuttingDownHelper w = true -> on_message msg w = (w, None).
Proof. intros F. unfold on_message, route. now rewrite F. Qed.

Lemma shutdown_clears_timers db w :
  sound (db, w) -> isShuttingDownHelper w = false -> timers (shutdownHelper w) = [].
Proof.
  intros S F. unfold shutdownHelper. rewrite F. cbn [timers].
  apply filter_none. intros [id sid] Hin. cbn [fst].
  destruct (timers_tracked _ S id sid Hin) as (_ & ref & sd & Hm & Hn & Ht).
  apply negb_false_iff. apply existsb_exists. exists (sid, ref). split; [exact Hm|].
  cbn [snd]. simpl in Hn. rewrite Hn, Ht. apply Nat.eqb_refl.
Qed.

(** X16. What shutdown does to the helper.  In every state the helper can
    reach, [shutdownHelper] raises the flag and leaves no turn timer armed:
    every armed timer is that of a session in the live table, and those are
    all cleared.  It finalizes nothing and tells the players nothing: live
    table, finalize calls and messages sent are as before.  From then on a
    tick that starts is due no attempt and returns at once, a dice message
    is ignored, a second signal does nothing, and no turn of the event loop
    lowers the flag. *)
Theorem shutdown_disarms_and_mutes (max : Z) (db : table) (name : string) (s : state) :
  reachable max (db, fresh_worker name) s ->
  isShuttingDownHelper (snd s) = false ->
  let w' := shutdownHelper (snd s) in
  isShuttingDownHelper w' = true /\ timers w' = [] /\
  activeHelperSessions w' = activeHelperSessions (snd s) /\
  finalizing w' = finalizing (snd s) /\ effects w' = effects (snd s) /\
  attempts_due max w' = 0%nat /\
  (forall script t,
      checkAndInitiateJackpotSessions max script (t, w') = ((t, w'), Returned)) /\
  (forall msg, on_message msg w' = (w', None)) /\
  shutdownHelper w' = w' /\
  (forall e t, isShuttingDownHelper (snd (handle max e (t, w'))) = true).
Proof.
  intros R F w'. apply reachable_sound in R. destruct s as [t0 w].
  change (snd (t0, w)) with w in *.
  assert (F' : isShuttingDownHelper w' = true)
    by (subst w'; unfold shutdownHelper; now rewrite F).
  split; [exact F'|]. split; [now apply (shutdown_clears_timers t0)|].
  split; [subst w'; unfold shutdownHelper; now rewrite F|].
  split; [subst w'; unfold shutdownHelper; now rewrite F|].
  split; [subst w'; unfold shutdownHelper; now rewrite F|].
  split; [unfold attempts_due; now rewrite F'|].
  split; [intros script t; now apply poll_ignored_in_shutdown|].
  split; [intros msg; now apply message_ignored_in_shutdown|].
  split; [unfold shutdownHelper at 1; now rewrite F'|].
  intros e t. now apply handle_keeps_flag.
Qed.

Lemma shutdown_disarms_and_mutes_witness :
  timers (shutdownHelper (snd (after_rolls [4] (demo_claimed (JNum 7) (JNum 100))))) = [] /\
  timers (snd (after_rolls [4] (demo_claimed (JNum 7) (JNum 100)))) <> [].
Proof.
  split; [|vm_compute; discriminate].
  exact (proj1 (proj2 (shutdown_disarms_and_mutes 1 _ demo_bot
                         (after_rolls [4] (demo_claimed (JNum 7) (JNum 100)))
                         (after_rolls_reachable [4] _ _
                            (demo_claimed_reachable (JNum 7) (JNum 100)))
                         ltac:(vm_compute; reflexivity)))).
Defined.

(** * What the session objects hold *)

Lemma handle_made max e s :
  Forall made (heap (snd s)) -> Forall made (heap (snd (handle max e s))).
Proof.
  destruct s as [db w]. destruct e; unfold handle; cbn [fst snd].
  - auto.
  - apply (poll_grows max script (db, w)).
  - apply (on_message_keeps msg w).
  - apply (on_timeout_keeps id w).
  - apply (on_delivery_keeps k result w).
  - apply (finalize_write_keeps k fault now db w).
  - apply shutdown_keeps_made.
  - auto.
Qed.

Lemma reachable_made max db name s :
  reachable max (db, fresh_worker name) s -> Forall made (heap (snd s)).
Proof.
  induction 1 as [|s e _ IH _]; [constructor|now apply handle_made].
Qed.

Lemma made_tallied sd : made sd -> tallied sd.
Proof.
  induction 1 as [r u parsed Ha Hu Hp|sd t _ IH|sd v _ IH].
  - repeat split; auto. simpl. congruence.
  - exact IH.
  - destruct IH as (I1 & I2 & I3 & I4 & I5). repeat split; auto.
    + simpl. rewrite sum_rolls_app. lia.
    + simpl. destruct (jackpot_run_rolls sd); reflexivity.
Qed.

(** X17. What every session object holds.  In every state the helper can
    reach, for every session object it has made: the run score is the sum of
    the run rolls; the total is [parseInt(initial_score)] as long as no roll
    was taken and [initial_score + run score], by JavaScript's [+], from the
    first roll on, so with a numeric [initial_score] it is that number plus
    the sum of the run rolls; the parsed initial rolls are those of the
    row; and the row is the claimed one, [active_by_helper] under a
    helper's name. *)
Theorem session_objects_tallied (max : Z) (db : table) (name : string) (s : state)
    (ref : nat) (sd : sessionData) :
  reachable max (db, fresh_worker name) s ->
  nth_error (heap (snd s)) ref = Some sd ->
  tallied sd /\
  (forall a, initial_score (sd_row sd) = JNum a ->
             current_total_score sd = JNum (a + sum_rolls (jackpot_run_rolls sd))).
Proof.
  intros R Hn.
  assert (T : tallied sd).
  { apply made_tallied. eapply made_in_heap; eauto. eapply reachable_made; eauto. }
  split; [exact T|]. intros a Ha. destruct T as (T1 & T2 & _).
  rewrite T2, Ha, T1. destruct (jackpot_run_rolls sd) as [|v l].
  - rewrite js_parseInt_number. simpl. f_equal. lia.
  - reflexivity.
Qed.

Lemma session_objects_tallied_witness :
  current_total_score
    (mkSession (claim_set demo_bot 20 (demo_row 1 10 (JNum 7) (JNum 100)))
               [4; 5] 9 (JNum 16) (Some 2%nat) [3; 2])
  = JNum (7 + sum_rolls [4; 5]).
Proof.
  exact (proj2 (session_objects_tallied 1 _ demo_bot _ 0%nat
                  (mkSession (claim_set demo_bot 20 (demo_row 1 10 (JNum 7) (JNum 100)))
                             [4; 5] 9 (JNum 16) (Some 2%nat) [3; 2])
                  (after_rolls_reachable [4; 5] _ _
                     (demo_claimed_reachable (JNum 7) (JNum 100)))
                  ltac:(vm_compute; reflexivity))
               7 eq_refl).
Defined.

(** * A prompt for a live session *)

Lemma send_update_live db w sid last ref sd :
  sound (db, w) -> get_session sid w = Some (ref, sd) ->
  exists w' pool,
    sendJackpotRunUpdate sid last w = (w', None) /\
    activeHelperSessions w' = activeHelperSessions w /\
    finalizing w' = finalizing w /\
    nth_error (heap w') ref = Some (with_timeout (Some (next_timer w)) sd) /\
    effects w' = effects w ++
      [SendPrompt (chat_id (sd_row sd))
         (mkPrompt (initial_score (sd_row sd)) (jackpot_run_rolls sd)
                   (current_total_score sd) (target_jackpot_score (sd_row sd))
                   (bust_on_value (sd_row sd)) pool last None)].
Proof.
  intros S G. pose proof G as G'. apply (get_session_in db) in G'; auto.
  destruct G' as [Hm Hn].
  destruct (entries_ok _ S sid ref Hm) as (sd' & Hn' & (Hact & Hbig & _) & _).
  simpl in Hn'. rewrite Hn in Hn'. injection Hn' as <-.
  pose proof (map_set_present sid ref _ (keys_nodup _ S) Hm) as Hset. simpl in Hset.
  assert (Hlt : (ref < List.length (heap w))%nat) by (apply nth_error_Some; congruence).
  unfold sendJackpotRunUpdate. rewrite G.
  destruct (js_BigInt _) as [lamports|]; [|congruence]. rewrite Hact.
  destruct (turnTimeoutId sd) as [id|]; simpl; rewrite Hset;
    eexists _, _; (split; [reflexivity|]); simpl;
    (split; [reflexivity|]); (split; [reflexivity|]); (split; [|reflexivity]);
    apply nth_error_list_set_same; rewrite ?list_set_length; exact Hlt.
Qed.

(** * What a routed roll does *)

Lemma take_in_parts msg ref sd v w :
  activeHelperSessions (take_in msg ref sd v w) = activeHelperSessions w /\
  finalizing (take_in msg ref sd v w) = finalizing w /\
  next_timer (take_in msg ref sd v w) = next_timer w /\
  effects (take_in msg ref sd v w)
  = effects w ++ [DeleteMessage (dec (msg_chat_id msg)) (message_id msg)].
Proof. unfold take_in. destruct (turnTimeoutId sd); repeat split. Qed.

Lemma reset_same_entry db w sid ref sd :
  sound (db, w) -> get_session sid w = Some (ref, sd) ->
  with_sessions (map_set sid ref (activeHelperSessions w)) w = w.
Proof.
  intros S G. apply (get_session_in db) in G; auto. destruct G as [Hm _].
  assert (E : map_set sid ref (activeHelperSessions w) = activeHelperSessions w)
    by (apply map_set_present; [apply (keys_nodup _ S)|exact Hm]).
  rewrite E. apply with_sessions_same.
Qed.

(** X18. What a routed roll does.  In every state the helper can reach, a
    roll routed to a session is added to the session's object and the
    handler does not throw; then exactly one of three things happens.  On
    the bust value the session leaves the live table with one finalize call
    for [completed_bust]; otherwise, with the total at or above the target,
    it leaves with one finalize call for [completed_target_reached]; in
    both, the call carries the new total and the initial rolls followed by
    the run rolls, the new one last.  Otherwise the session stays, nothing
    is finalized, and the player is prompted again with the new rolls and
    total. *)
Theorem roll_outcome (max : Z) (db : table) (name : string) (s : state)
    (msg : message) (sid : Z) (ref : nat) (sd : sessionData) (v : Z) :
  reachable max (db, fresh_worker name) s ->
  route msg (snd s) = Some (sid, ref, sd) -> msg_dice msg = Some v ->
  let w := snd s in
  let w' := fst (on_message msg w) in
  let sd' := add_roll v sd in
  let rolls := rolls_of (initial_rolls_json (sd_row sd)) ++ jackpot_run_rolls sd ++ [v] in
  let bust := js_strict_eq (JNum v) (bust_on_value (sd_row sd)) in
  let reached := js_ge (current_total_score sd') (target_jackpot_score (sd_row sd)) in
  snd (on_message msg w) = None /\
  (bust = true ->
   map_get sid (activeHelperSessions w') = None /\
   finalizing w' = finalizing w ++
     [mkFinalize sid completed_bust (current_total_score sd') rolls
                 (bust_notes v) (Some ref)]) /\
  (bust = false -> reached = true ->
   map_get sid (activeHelperSessions w') = None /\
   finalizing w' = finalizing w ++
     [mkFinalize sid completed_target_reached (current_total_score sd') rolls
                 (target_notes (target_jackpot_score (sd_row sd))
                               (current_total_score sd'))
                 (Some ref)]) /\
  (bust = false -> reached = false ->
   activeHelperSessions w' = activeHelperSessions w /\
   finalizing w' = finalizing w /\
   nth_error (heap w') ref = Some (with_timeout (Some (next_timer w)) sd') /\
   exists pool,
     effects w' = effects w ++
       [DeleteMessage (dec (msg_chat_id msg)) (message_id msg);
        SendPrompt (chat_id (sd_row sd))
          (mkPrompt (initial_score (sd_row sd)) (jackpot_run_rolls sd ++ [v])
                    (current_total_score sd') (target_jackpot_score (sd_row sd))
                    (bust_on_value (sd_row sd)) pool (Some v) None)]).
Proof.
  intros R Hr Hd. apply reachable_sound in R. destruct s as [t w0].
  change (snd (t, w0)) with w0 in *.
  intros w w' sd' rolls bust reached. subst w.
  pose proof Hr as Hr'. apply route_sound in Hr'. destruct Hr' as (Hm & Hn & _).
  destruct (take_in_sound t w0 msg sid ref sd v R Hm Hn) as (S3 & _ & G3).
  destruct (take_in_parts msg ref sd v w0) as (P1 & P2 & P3 & P4).
  assert (E : on_message msg w0 =
    if bust then
      finalizeJackpotSession sid completed_bust (current_total_score sd')
        (jackpot_run_rolls sd') (bust_notes v) (take_in msg ref sd v w0)
    else if reached then
      finalizeJackpotSession sid completed_target_reached (current_total_score sd')
        (jackpot_run_rolls sd')
        (target_notes (target_jackpot_score (sd_row sd)) (current_total_score sd'))
        (take_in msg ref sd v w0)
    else sendJackpotRunUpdate sid (Some v) (take_in msg ref sd v w0)).
  { unfold on_message. rewrite Hr, Hd. cbv zeta.
    rewrite (reset_same_entry t _ sid ref _ S3 G3). reflexivity. }
  assert (Hfin : forall st sc notes,
            exists w1,
              finalizeJackpotSession sid st sc (jackpot_run_rolls sd') notes
                                     (take_in msg ref sd v w0) = (w1, None) /\
              map_get sid (activeHelperSessions w1) = None /\
              finalizing w1 = finalizing w0 ++ [mkFinalize sid st sc rolls notes (Some ref)]).
  { intros st sc notes.
    destruct (finalize_live_session t _ sid ref sd' st sc (jackpot_run_rolls sd') notes S3 G3)
      as (w1 & E1 & F1).
    exists w1. split; [exact E1|]. split.
    - replace w1 with (fst (finalizeJackpotSession sid st sc (jackpot_run_rolls sd') notes
                              (take_in msg ref sd v w0))) by now rewrite E1.
      apply finalize_leaves_map.
    - rewrite F1, P2. reflexivity. }
  subst w'. rewrite E. clear E.
  destruct bust eqn:B.
  - destruct (Hfin completed_bust (current_total_score sd') (bust_notes v))
      as (w1 & -> & M1 & F1).
    cbn [fst snd]. split; [reflexivity|]. split; [auto|]. split; intros; discriminate.
  - destruct reached eqn:T.
    + destruct (Hfin completed_target_reached (current_total_score sd')
                  (target_notes (target_jackpot_score (sd_row sd)) (current_total_score sd')))
        as (w1 & -> & M1 & F1).
      cbn [fst snd]. split; [reflexivity|]. split; [intros; discriminate|].
      split; [auto|intros; discriminate].
    + destruct (send_update_live t _ sid (Some v) ref sd' S3 G3)
        as (w1 & pool & -> & M1 & F1 & H1 & E1).
      cbn [fst snd]. split; [reflexivity|]. split; [intros; discriminate|].
      split; [intros; discriminate|]. intros _ _.
      split; [congruence|]. split; [congruence|]. split; [now rewrite H1, P3|].
      exists pool. rewrite E1, P4, <- app_assoc. reflexivity.
Qed.

Lemma roll_outcome_witness :
  snd (on_message (dice 5) (snd (after_rolls [4] (demo_claimed (JNum 7) (JNum 100))))) = None.
Proof.
  exact (proj1 (roll_outcome 1 _ demo_bot
                  (after_rolls [4] (demo_claimed (JNum 7) (JNum 100)))
                  (dice 5) 1 0%nat
                  (mkSession (claim_set demo_bot 20 (demo_row 1 10 (JNum 7) (JNum 100)))
                             [4] 4 (JNum 11) (Some 1%nat) [3; 2])
                  5
                  (after_rolls_reachable [4] _ _
                     (demo_claimed_reachable (JNum 7) (JNum 100)))
                  ltac:(vm_compute; reflexivity) eq_refl)).
Defined.

(** * A turn timer that goes off *)

Lemma find_armed (l : list (nat * Z)) id sid :
  NoDup (map fst l) -> In (id, sid) l ->
  find (fun t => Nat.eqb (fst t) id) l = Some (id, sid).
Proof.
  induction l as [|[i x] l IH]; intros Hnd Hin; [contradiction|].
  simpl in Hnd. inversion Hnd as [|? ? Hni Hnd']; subst. simpl.
  destruct Hin as [E|Hin].
  - injection E as -> ->. now rewrite Nat.eqb_refl.
  - destruct (Nat.eqb_spec i id) as [->|_]; [|auto].
    exfalso. apply Hni. change id with (fst (id, sid)). now apply in_map.
Qed.

Lemma fired_sound db w id :
  sound (db, w) ->
  sound (db, with_timers (filter (fun t => negb (Nat.eqb (fst t) id)) (timers w))
                         (next_timer w) w).
Proof.
  intros S. apply sound_transfer with (db := db) (w := w); simpl; auto; try framed S.
Qed.

(** X19. A turn timer that goes off.  In every state the helper can reach,
    every armed timer belongs to a session of the live table and is the one
    that session's object records.  When it goes off the session is
    forfeited: it leaves the live table with one finalize call for
    [completed_timeout_forfeit] that carries the total and the initial rolls
    followed by the run rolls, and no timer of the session is left. *)
Theorem armed_timer_forfeits (max : Z) (db : table) (name : string) (s : state)
    (id : nat) (sid : Z) :
  reachable max (db, fresh_worker name) s ->
  In (id, sid) (timers (snd s)) ->
  exists ref sd w',
    get_session sid (snd s) = Some (ref, sd) /\ turnTimeoutId sd = Some id /\
    on_timeout id (snd s) = (w', None) /\
    map_get sid (activeHelperSessions w') = None /\
    timers_of sid w' = [] /\
    finalizing w' = finalizing (snd s) ++
      [mkFinalize sid completed_timeout_forfeit (current_total_score sd)
                  (rolls_of (initial_rolls_json (sd_row sd)) ++ jackpot_run_rolls sd)
                  "Turn timed out during jackpot run." (Some ref)].
Proof.
  intros R Hin. apply reachable_sound in R. destruct s as [t w]. cbn [snd] in *.
  destruct (timers_tracked _ R id sid Hin) as (_ & ref & sd & Hm & Hn & Ht).
  cbn [snd] in Hm, Hn.
  assert (G : get_session sid w = Some (ref, sd)) by (apply (get_session_in t); auto).
  destruct (entries_ok _ R sid ref Hm) as (sd0 & Hn0 & (Hact & _) & _).
  cbn [snd] in Hn0. rewrite Hn in Hn0. injection Hn0 as <-.
  pose proof (fired_sound t w id R) as S1.
  set (w1 := with_timers (filter (fun t => negb (Nat.eqb (fst t) id)) (timers w))
                         (next_timer w) w) in *.
  assert (G1 : get_session sid w1 = Some (ref, sd)) by exact G.
  destruct (finalize_live_session t w1 sid ref sd completed_timeout_forfeit
              (current_total_score sd) (jackpot_run_rolls sd)
              "Turn timed out during jackpot run." S1 G1) as (w' & E & F).
  exists ref, sd, w'. split; [exact G|]. split; [exact Ht|].
  assert (Eo : on_timeout id w = (w', None)).
  { unfold on_timeout. rewrite (find_armed (timers w) id sid (timers_nodup _ R) Hin).
    fold w1. unfold handleJackpotRunTurnTimeout. rewrite G1, Hact. exact E. }
  split; [exact Eo|].
  replace w' with (fst (finalizeJackpotSession sid completed_timeout_forfeit
                          (current_total_score sd) (jackpot_run_rolls sd)
                          "Turn timed out during jackpot run." w1)) by now rewrite E.
  split; [apply finalize_leaves_map|]. split; [eapply finalize_disarms; eauto|].
  rewrite E. exact F.
Qed.

Lemma armed_timer_forfeits_witness :
  exists ref sd w',
    get_session 1 (snd (after_rolls [4] (demo_claimed (JNum 7) (JNum 100)))) = Some (ref, sd) /\
    on_timeout 1 (snd (after_rolls [4] (demo_claimed (JNum 7) (JNum 100)))) = (w', None) /\
    map_get 1 (activeHelperSessions w') = None.
Proof.
  destruct (armed_timer_forfeits 1 _ demo_bot
              (after_rolls [4] (demo_claimed (JNum 7) (JNum 100))) 1%nat 1
              (after_rolls_reachable [4] _ _ (demo_claimed_reachable (JNum 7) (JNum 100)))
              ltac:(vm_compute; auto))
    as (ref & sd & w' & G & _ & E & M & _).
  exists ref, sd, w'. auto.
Defined.

(** * Where a roll is routed *)

Lemma find_first {A} (f : A -> bool) (l : list A) (x : A) :
  find f l = Some x <->
  exists before after, l = before ++ x :: after /\ f x = true /\
                       forall y, In y before -> f y = false.
Proof.
  induction l as [|a l IH]; simpl.
  - split; [discriminate|]. intros (b & c & E & _). destruct b; discriminate.
  - destruct (f a) eqn:Fa.
    + split.
      * intros H. injection H as <-. exists [], l. repeat split; auto. intros y [].
      * intros (b & c & E & Fx & Hb). destruct b as [|y b].
        -- simpl in E. injection E as <- _. reflexivity.
        -- simpl in E. injection E as <- _. rewrite (Hb a (or_introl eq_refl)) in Fa.
           discriminate.
    + rewrite IH. split.
      * intros (b & c & E & Fx & Hb). exists (a :: b), c. subst l. repeat split; auto.
        intros y [<-|Hy]; auto.
      * intros (b & c & E & Fx & Hb). destruct b as [|y b].
        -- simpl in E. injection E as -> _. congruence.
        -- simpl in E. injection E as <- ->. exists b, c. repeat split; auto.
           intros z Hz. apply Hb. now right.
Qed.

(** X20. Where a roll is routed.  A message is routed to a session exactly
    when the helper is not shutting down, the message carries a dice and a
    sender that is not a bot, the session's entry is the first one in the
    live table, in insertion order, whose object is the sender's, in the
    chat of the message and [active_by_helper], and the session id is not
    0.  Player and chat are compared as texts. *)
Theorem route_first_match (msg : message) (w : worker) (sid : Z) (ref : nat)
    (sd : sessionData) :
  route msg w = Some (sid, ref, sd) <->
  isShuttingDownHelper w = false /\ sid <> 0 /\
  exists v from before after,
    msg_dice msg = Some v /\ msg_from msg = Some from /\ is_bot from = false /\
    activeHelperSessions w = before ++ (sid, ref) :: after /\
    nth_error (heap w) ref = Some sd /\
    belongs from (msg_chat_id msg) sd = true /\
    forall e, In e before -> entry_belongs from (msg_chat_id msg) w e = false.
Proof.
  unfold route. destruct (isShuttingDownHelper w).
  { split; [discriminate|]. intros [H _]. discriminate. }
  destruct (msg_dice msg) as [v|].
  2:{ split; [discriminate|]. intros (_ & _ & ? & ? & ? & ? & H & _). discriminate. }
  destruct (msg_from msg) as [from|].
  2:{ split; [discriminate|]. intros (_ & _ & ? & ? & ? & ? & _ & H & _). discriminate. }
  destruct (is_bot from) eqn:B.
  { split; [discriminate|]. intros (_ & _ & ? & f & ? & ? & _ & H & H' & _).
    injection H as <-. congruence. }
  unfold find_session.
  change (fun e : Z * nat =>
            match nth_error (heap w) (snd e) with
            | Some sData =>
                String.eqb (js_String (user_id (sd_row sData))) (dec (from_id from))
                && String.eqb (js_String (chat_id (sd_row sData))) (dec (msg_chat_id msg))
                && is_active (sd_row sData)
            | None => false
            end)
    with (entry_belongs from (msg_chat_id msg) w).
  split.
  - destruct (find _ _) as [[s r]|] eqn:F; [|discriminate].
    destruct (nth_error (heap w) r) as [x|] eqn:N; [|discriminate].
    unfold falsy_number. destruct (Z.eqb_spec s 0); [discriminate|].
    intros H. injection H as -> -> ->.
    apply find_first in F. destruct F as (b & c & E & Fx & Hb).
    split; [reflexivity|]. split; [assumption|].
    exists v, from, b, c. repeat split; auto.
    unfold entry_belongs in Fx. cbn [snd] in Fx. now rewrite N in Fx.
  - intros (_ & Hs & v' & f & b & c & _ & Hf & _ & E & N & Hx & Hb).
    injection Hf as <-.
    assert (F : find (entry_belongs from (msg_chat_id msg) w) (activeHelperSessions w)
                = Some (sid, ref)).
    { apply find_first. exists b, c. repeat split; auto.
      unfold entry_belongs. cbn [snd]. now rewrite N. }
    rewrite F, N. unfold falsy_number. destruct (Z.eqb_spec sid 0); [contradiction|].
    reflexivity.
Qed.

(** * A prompt that cannot be delivered *)

(** X21. A prompt that cannot be delivered.  In every state the helper can
    reach, when the delivery of a prompt fails with Telegram's code 400 or
    403 and the session is still in the live table, the session ends: it
    leaves the live table, its timer is cleared, and one finalize call for
    [error_sending_message] is made with the total and the initial rolls
    followed by the run rolls.  Any other delivery failure, and a delivery
    that succeeds, change nothing in the helper. *)
Theorem undeliverable_prompt_ends_session (max : Z) (db : table) (name : string)
    (s : state) (k : nat) (c : send_closure) (err : send_error) :
  reachable max (db, fresh_worker name) s ->
  nth_error (sends (snd s)) k = Some c ->
  let w := snd s in
  let w1 := with_sends (remove_nth k (sends w)) w in
  on_delivery k None w = (w1, None) /\
  (fatal_delivery err = false -> on_delivery k (Some err) w = (w1, None)) /\
  (fatal_delivery err = true ->
   forall ref sd, get_session (sc_sessionId c) w = Some (ref, sd) ->
   exists w',
     on_delivery k (Some err) w = (w', None) /\
     map_get (sc_sessionId c) (activeHelperSessions w') = None /\
     timers_of (sc_sessionId c) w' = [] /\
     finalizing w' = finalizing w ++
       [mkFinalize (sc_sessionId c) error_sending_message (current_total_score sd)
                   (rolls_of (initial_rolls_json (sd_row sd)) ++ jackpot_run_rolls sd)
                   (delivery_notes err) (Some ref)]).
Proof.
  intros R Hk. apply reachable_sound in R. destruct s as [t w0].
  change (snd (t, w0)) with w0 in *. intros w w1. subst w.
  split; [unfold on_delivery; now rewrite Hk|]. split.
  - intros F. unfold on_delivery. now rewrite Hk, F.
  - intros F ref sd G.
    assert (S1 : sound (t, w1)).
    { pose proof (on_delivery_sound t w0 k None R) as H. unfold on_delivery in H.
      now rewrite Hk in H. }
    pose proof G as G'. apply (get_session_in t) in G'; auto. destruct G' as [Hm Hn].
    assert (Href : ref = sc_sessionData c).
    { apply nth_error_In in Hk. apply (sends_ok _ R c Hk). exact Hm. }
    assert (G1 : get_session (sc_sessionId c) w1 = Some (ref, sd)) by exact G.
    destruct (finalize_live_session t w1 (sc_sessionId c) ref sd error_sending_message
                (current_total_score sd) (jackpot_run_rolls sd) (delivery_notes err) S1 G1)
      as (w' & E & Fc).
    exists w'.
    assert (Eo : on_delivery k (Some err) w0 = (w', None)).
    { unfold on_delivery. rewrite Hk, F. fold w1.
      replace (nth_error (heap w1) (sc_sessionData c)) with (Some sd)
        by (rewrite <- Href; symmetry; exact Hn).
      exact E. }
    split; [exact Eo|].
    replace w' with (fst (finalizeJackpotSession (sc_sessionId c) error_sending_message
                            (current_total_score sd) (jackpot_run_rolls sd)
                            (delivery_notes err) w1)) by now rewrite E.
    split; [apply finalize_leaves_map|]. split; [eapply finalize_disarms; eauto|].
    rewrite E. exact Fc.
Qed.

Lemma undeliverable_prompt_ends_session_witness :
  on_delivery 0 None (snd (after_rolls [4] (demo_claimed (JNum 7) (JNum 100))))
  = (with_sends (remove_nth 0 (sends (snd (after_rolls [4] (demo_claimed (JNum 7) (JNum 100))))))
                (snd (after_rolls [4] (demo_claimed (JNum 7) (JNum 100)))), None).
Proof.
  exact (proj1 (undeliverable_prompt_ends_session 1 _ demo_bot
                  (after_rolls [4] (demo_claimed (JNum 7) (JNum 100)))
                  0%nat (mkSend 1 0%nat) blocked
                  (after_rolls_reachable [4] _ _
                     (demo_claimed_reachable (JNum 7) (JNum 100)))
                  ltac:(vm_compute; reflexivity))).
Defined.

(** * A session that cannot be prompted *)

(** X22. A pool that does not convert.  When the pool column of a claimed
    row is not an integer ([BigInt] throws on it, as on NULL), the opening
    prompt is never sent: the session is registered and at once taken out of
    the live table again, with one finalize call for
    [error_helper_init_prompt] that carries [parseInt(initial_score)] and
    the initial rolls alone; no timer is armed and nothing is sent. *)
Theorem unreadable_pool_ends_session (r : row) (w w1 : worker) :
  register r w = inr w1 ->
  js_BigInt (jackpot_pool_at_session_start r) = None ->
  exists parsed,
    parse_rolls (initial_rolls_json r) = inr parsed /\
    map_get (session_id r) (activeHelperSessions (opening_prompt r w1)) = None /\
    finalizing (opening_prompt r w1) = finalizing w ++
      [mkFinalize (session_id r) error_helper_init_prompt
                  (js_parseInt (initial_score r)) parsed
                  (init_prompt_notes (bigint_error (jackpot_pool_at_session_start r)))
                  (Some (List.length (heap w)))] /\
    effects (opening_prompt r w1) = effects w /\
    timers (opening_prompt r w1) = timers w.
Proof.
  intros R B.
  destruct (register_new_object r w w1 R)
    as (parsed & Hp & G & _ & _ & Ht & _ & _ & Hf & He & _).
  exists parsed. split; [exact Hp|].
  assert (E : opening_prompt r w1
              = fst (finalizeJackpotSession (session_id r) error_helper_init_prompt
                       (js_parseInt (initial_score r)) []
                       (init_prompt_notes (bigint_error (jackpot_pool_at_session_start r)))
                       w1)).
  { unfold opening_prompt, sendJackpotRunUpdate. rewrite G. cbn [turnTimeoutId sd_row].
    now rewrite B. }
  rewrite E. split; [apply finalize_leaves_map|].
  unfold finalizeJackpotSession. rewrite G. cbn [turnTimeoutId sd_row]. rewrite Hp.
  cbn [fst finalizing with_finalizing with_sessions effects timers option_map].
  rewrite app_nil_r, Hf, He, Ht. auto.
Qed.

Lemma unreadable_pool_ends_session_witness :
  let r := mkRow 1 active_by_helper (Some demo_bot) (JStr "42") (JStr "-100") (JNum 7)
                 (JsonRolls [3; 2]) (JNum 100) (JNum 1) JNull JNull JsonNull None 10 20 in
  exists w1, register r (fresh_worker demo_bot) = inr w1 /\
             map fc_finalStatus (finalizing (opening_prompt r w1)) = [error_helper_init_prompt].
Proof.
  intros r. eexists. split; [reflexivity|].
  destruct (unreadable_pool_ends_session r (fresh_worker demo_bot) _ eq_refl eq_refl)
    as (parsed & _ & _ & F & _).
  rewrite F. reflexivity.
Defined.

(** * A session that cannot be registered *)

(** X23. Initial rolls that do not parse.  When the oldest free queued row
    carries an [initial_rolls_json] that [JSON.parse] rejects, a tick whose
    store calls all succeed claims the row and then throws: the row is
    [active_by_helper] under this helper in the table, while the helper
    itself is exactly as before, with no entry, no timer and no finalize
    call for the session. *)
Theorem malformed_rolls_strand_session (max : Z) (script : nat -> attempt_env)
    (db : table) (w : worker) (r : row) (rest : list row) :
  isShuttingDownHelper w = false ->
  Z.of_nat (List.length (activeHelperSessions w)) < max ->
  (forall k, ae_faults (script 0%nat) k = None) -> keyed db ->
  select_pending (skipped (script 0%nat)) db = r :: rest ->
  initial_rolls_json r = JsonMalformed ->
  let claimed := claim_set (botUsername w) (ae_now (script 0%nat)) r in
  let db' := fst (update_claim (botUsername w) (session_id r) (ae_now (script 0%nat)) db) in
  checkAndInitiateJackpotSessions max script (db, w)
  = ((db', w), Threw (mkError SyntaxError "Unexpected token in JSON")) /\
  In claimed db' /\ is_active claimed = true /\
  helper_bot_id claimed = Some (botUsername w).
Proof.
  intros F Hlt Hf Hk Hsel Hj claimed db'.
  pose proof (select_pending_sound _ _ _ _ Hsel) as (Hin & Hp & _).
  split; [|split; [|split; reflexivity]].
  - unfold checkAndInitiateJackpotSessions. cbv zeta. cbn [snd]. rewrite F.
    destruct (Z.leb_spec max (Z.of_nat (List.length (activeHelperSessions w)))); [lia|].
    destruct (Z.leb_spec (max - Z.of_nat (List.length (activeHelperSessions w))) 0); [lia|].
    destruct (Z.to_nat (max - Z.of_nat (List.length (activeHelperSessions w))))
      as [|m] eqn:En; [lia|].
    rewrite claim_loop_unfold. cbv zeta. rewrite Nat.sub_diag, F.
    rewrite (claim_attempt_claims (script 0%nat) (botUsername w) db r rest Hf Hk Hsel).
    unfold register. cbn [initial_rolls_json claim_set]. rewrite Hj. reflexivity.
  - subst db' claimed. unfold update_claim. cbn [fst]. apply in_map_iff.
    exists r. split; [|exact Hin]. unfold claim_where. now rewrite Z.eqb_refl, Hp.
Qed.

Lemma malformed_rolls_strand_session_witness :
  let r := mkRow 1 pending_pickup None (JStr "42") (JStr "-100") (JNum 7) JsonMalformed
                 (JNum 100) (JNum 1) (JStr "5000000000") JNull JsonNull None 10 10 in
  checkAndInitiateJackpotSessions 1 (fun _ => quiet) ([r], fresh_worker demo_bot)
  = (([claim_set demo_bot 20 r], fresh_worker demo_bot),
     Threw (mkError SyntaxError "Unexpected token in JSON")).
Proof.
  intros r.
  apply (malformed_rolls_strand_session 1 (fun _ => quiet) [r] (fresh_worker demo_bot) r []).
  - reflexivity.
  - simpl. lia.
  - reflexivity.
  - unfold keyed. simpl. repeat constructor. simpl. tauto.
  - reflexivity.
  - reflexivity.
Defined.

(** * A bust value delivered as text *)

Lemma send_update_finalizing sid last w :
  finalizing (fst (sendJackpotRunUpdate sid last w)) = finalizing w.
Proof.
  unfold sendJackpotRunUpdate.
  destruct (get_session sid w) as [[ref sd]|]; [|reflexivity].
  destruct (turnTimeoutId sd);
    (destruct (js_BigInt _); [destruct (is_active (sd_row sd))|]); reflexivity.
Qed.

(** X24. A bust value delivered as text.  The bust test is [===] between the
    dice value, a number, and the column as the store delivers it: when
    [bust_on_value] arrives as text (as int8 and numeric columns do), no roll
    ever busts the session, the roll that shows the bust value included; a
    routed roll then either reaches the target or continues the run. *)
Theorem textual_bust_value_never_busts (msg : message) (w : worker) (sid : Z) (ref : nat)
    (sd : sessionData) (v : Z) (b : string) :
  route msg w = Some (sid, ref, sd) -> msg_dice msg = Some v ->
  bust_on_value (sd_row sd) = JStr b ->
  forall fc, In fc (finalizing (fst (on_message msg w))) ->
    In fc (finalizing w) \/
    (fc_sessionId fc = sid /\ fc_finalStatus fc = completed_target_reached).
Proof.
  intros R D B fc. unfold on_message. rewrite R, D. cbv zeta. cbn [add_roll sd_row].
  rewrite B. cbn [js_strict_eq].
  destruct (js_ge _ _).
  - intros H. apply finalize_new_calls in H. now rewrite take_in_finalizing in H.
  - rewrite send_update_finalizing. cbn [finalizing with_sessions].
    rewrite take_in_finalizing. auto.
Qed.

Lemma textual_bust_value_never_busts_witness :
  let r := mkRow 1 pending_pickup None (JStr "42") (JStr "-100") (JNum 9)
                 (JsonRolls [3; 2]) (JNum 10) (JStr "1") (JStr "5000000000")
                 JNull JsonNull None 10 10 in
  let s := handle 1 (Poll (fun _ => quiet)) ([r], fresh_worker demo_bot) in
  map fc_finalStatus (finalizing (fst (on_message (dice 1) (snd s))))
  = [completed_target_reached] /\
  fc_finalStatus (mkFinalize 1 completed_target_reached (JNum 10) [3; 2; 1]
                             (target_notes (JNum 10) (JNum 10)) (Some 0%nat))
  = completed_target_reached.
Proof.
  intros r s. split; [vm_compute; reflexivity|].
  destruct (textual_bust_value_never_busts (dice 1) (snd s) 1 0%nat
              (mkSession (claim_set demo_bot 20 r) [] 0 (JNum 9) (Some 0%nat) [3; 2])
              1 "1" ltac:(vm_compute; reflexivity) eq_refl eq_refl
              (mkFinalize 1 completed_target_reached (JNum 10) [3; 2; 1]
                          (target_notes (JNum 10) (JNum 10)) (Some 0%nat))
              ltac:(vm_compute; left; reflexivity)) as [H|[_ H]].
  - vm_compute in H. contradiction.
  - exact H.
Defined.

(** * A tick that claims a session *)

Lemma opening_prompt_sent r w w1 lamports parsed :
  register r w = inr w1 ->
  parse_rolls (initial_rolls_json r) = inr parsed ->
  js_BigInt (jackpot_pool_at_session_start r) = Some lamports ->
  is_active r = true ->
  let sd := mkSession r [] 0 (js_parseInt (initial_score r)) None parsed in
  let w2 := opening_prompt r w1 in
  get_session (session_id r) w2
  = Some (List.length (heap w), with_timeout (Some (next_timer w)) sd) /\
  timers w2 = timers w ++ [(next_timer w, session_id r)] /\
  next_timer w2 = S (next_timer w) /\
  effects w2 = effects w ++
    [SendPrompt (chat_id r)
       (mkPrompt (initial_score r) [] (js_parseInt (initial_score r))
                 (target_jackpot_score r) (bust_on_value r)
                 (Z.quot lamports (10 ^ 9)) None None)] /\
  sends w2 = sends w ++ [mkSend (session_id r) (List.length (heap w))] /\
  finalizing w2 = finalizing w.
Proof.
  intros R Hp B A sd w2.
  destruct (register_new_object r w w1 R)
    as (parsed' & Hp' & G & Hh & Hm & Ht & Hn & Hs & Hf & He & _).
  rewrite Hp in Hp'. injection Hp' as <-.
  subst w2. unfold opening_prompt, sendJackpotRunUpdate. rewrite G.
  cbn [turnTimeoutId sd_row]. rewrite B, A.
  cbn [setTimeout fst snd jackpot_run_rolls jackpot_run_score current_total_score
       initial_rolls_parsed].
  unfold get_session.
  cbn [activeHelperSessions with_sessions heap with_sends emit set_object with_heap
       with_timers timers next_timer effects sends finalizing].
  rewrite map_get_set, Hh.
  rewrite nth_error_list_set_same by (rewrite length_app; simpl; lia).
  rewrite Ht, Hn, He, Hs, Hf. repeat split.
Qed.

(** X25. A tick that claims a session, run as one turn.  With capacity
    left, a store that answers every call and a free queued row whose
    initial rolls parse and whose pool converts, the tick claims the oldest
    such row, stores its object in the live table, arms the turn timer and
    sends the opening prompt, with no roll, the total at
    [parseInt(initial_score)] and the pool in whole SOL; nothing is
    finalized.  The tick returns when one attempt was due and is left at
    the undefined [sleep] when more were. *)
Theorem poll_claims_and_prompts (max : Z) (script : nat -> attempt_env)
    (db : table) (w : worker) (r : row) (rest : list row) (lamports : Z)
    (parsed : list Z) :
  isShuttingDownHelper w = false ->
  Z.of_nat (List.length (activeHelperSessions w)) < max ->
  (forall k, ae_faults (script 0%nat) k = None) -> keyed db ->
  select_pending (skipped (script 0%nat)) db = r :: rest ->
  parse_rolls (initial_rolls_json r) = inr parsed ->
  js_BigInt (jackpot_pool_at_session_start r) = Some lamports ->
  let claimed := claim_set (botUsername w) (ae_now (script 0%nat)) r in
  let db' := fst (update_claim (botUsername w) (session_id r) (ae_now (script 0%nat)) db) in
  exists w',
    checkAndInitiateJackpotSessions max script (db, w)
    = ((db', w'),
       if Z.eqb (max - Z.of_nat (List.length (activeHelperSessions w))) 1
       then Returned else Threw (not_defined "sleep")) /\
    get_session (session_id r) w'
    = Some (List.length (heap w),
            mkSession claimed [] 0 (js_parseInt (initial_score r))
                      (Some (next_timer w)) parsed) /\
    timers w' = timers w ++ [(next_timer w, session_id r)] /\
    effects w' = effects w ++
      [SendPrompt (chat_id r)
         (mkPrompt (initial_score r) [] (js_parseInt (initial_score r))
                   (target_jackpot_score r) (bust_on_value r)
                   (Z.quot lamports (10 ^ 9)) None None)] /\
    finalizing w' = finalizing w.
Proof.
  intros F Hlt Hf Hk Hsel Hp B claimed db'.
  destruct (register claimed w) as [e|w1] eqn:R.
  { unfold register in R. subst claimed. cbn [initial_rolls_json claim_set] in R.
    rewrite Hp in R. discriminate. }
  destruct (opening_prompt_sent claimed w w1 lamports parsed R Hp B eq_refl)
    as (G & T & _ & E & _ & Fc).
  exists (opening_prompt claimed w1).
  split; [|split; [exact G|split; [exact T|split; [exact E|exact Fc]]]].
  unfold checkAndInitiateJackpotSessions. cbv zeta. cbn [snd]. rewrite F.
  destruct (Z.leb_spec max (Z.of_nat (List.length (activeHelperSessions w)))); [lia|].
  destruct (Z.leb_spec (max - Z.of_nat (List.length (activeHelperSessions w))) 0); [lia|].
  destruct (Z.to_nat (max - Z.of_nat (List.length (activeHelperSessions w))))
    as [|m] eqn:En; [lia|].
  rewrite claim_loop_unfold. cbv zeta. rewrite Nat.sub_diag, F.
  rewrite (claim_attempt_claims (script 0%nat) (botUsername w) db r rest Hf Hk Hsel).
  fold claimed. rewrite R. fold db'.
  destruct m as [|m].
  - replace (max - Z.of_nat (List.length (activeHelperSessions w))) with 1 by lia.
    reflexivity.
  - replace (Nat.ltb 1 (S (S m)) && Nat.ltb 0 (S (S m) - 1)) with true
      by (symmetry; apply andb_true_iff; split; apply Nat.ltb_lt; lia).
    destruct (Z.eqb_spec (max - Z.of_nat (List.length (activeHelperSessions w))) 1);
      [lia|reflexivity].
Qed.

Lemma poll_claims_and_prompts_witness :
  exists w',
    checkAndInitiateJackpotSessions 1 (fun _ => quiet) (demo_start (JNum 7) (JNum 100))
    = (([claim_set demo_bot 20 (demo_row 1 10 (JNum 7) (JNum 100))], w'), Returned) /\
    timers w' = [(0%nat, 1)].
Proof.
  destruct (poll_claims_and_prompts 1 (fun _ => quiet)
              [demo_row 1 10 (JNum 7) (JNum 100)] (fresh_worker demo_bot)
              (demo_row 1 10 (JNum 7) (JNum 100)) [] 5000000000 [3; 2]
              eq_refl ltac:(simpl; lia) ltac:(reflexivity)
              ltac:(unfold keyed; simpl; repeat constructor; simpl; tauto)
              eq_refl eq_refl eq_refl)
    as (w' & E & _ & T & _).
  exists w'. split; [exact E|exact T].
Defined.

(** * A tick that finds the queue empty *)

(** X26. An idle tick.  When the helper is not shutting down and no queued
    row is free (none is [pending_pickup], or all of them are locked by
    others), a tick whose store calls succeed returns without an error and
    changes neither the table nor the helper, whatever the limit is. *)
Theorem poll_finds_nothing (max : Z) (script : nat -> attempt_env) (s : state) :
  (forall k, ae_faults (script 0%nat) k = None) ->
  select_pending (skipped (script 0%nat)) (fst s) = [] ->
  checkAndInitiateJackpotSessions max script s = (s, Returned).
Proof.
  intros Hf Hsel. destruct s as [db w]. cbn [fst] in Hsel.
  unfold checkAndInitiateJackpotSessions. cbv zeta. cbn [snd].
  destruct (isShuttingDownHelper w) eqn:F; [reflexivity|].
  destruct (Z.leb max _); [reflexivity|].
  destruct (Z.leb_spec (max - Z.of_nat (List.length (activeHelperSessions w))) 0);
    [reflexivity|].
  destruct (Z.to_nat (max - Z.of_nat (List.length (activeHelperSessions w))))
    as [|m] eqn:En; [lia|].
  rewrite claim_loop_unfold. cbv zeta. rewrite F.
  rewrite Nat.sub_diag, (claim_attempt_idle (script 0%nat) (botUsername w) db Hf Hsel).
  reflexivity.
Qed.

Lemma poll_finds_nothing_witness :
  checkAndInitiateJackpotSessions 3 (fun _ => quiet) ([bust_row], fresh_worker demo_bot)
  = (([bust_row], fresh_worker demo_bot), Returned).
Proof.
  apply (poll_finds_nothing 3 (fun _ => quiet) ([bust_row], fresh_worker demo_bot)).
  - reflexivity.
  - reflexivity.
Defined.

(** * Ticks that overlap *)

(** A tick is its head, one attempt, and the landing of the claim. *)
Lemma tick_unfolded max script db w :
  checkAndInitiateJackpotSessions max script (db, w) =
  match attempts_due max w with
  | O => ((db, w), Returned)
  | S m =>
      let (db', o) := claim_attempt (script 0%nat) (botUsername w) db in
      match o with
      | NoPending => ((db', w), Returned)
      | Claimed r =>
          match land r w with
          | inl e => ((db', w), Threw e)
          | inr w2 => ((db', w2),
                       match m with O => Returned | S _ => Threw (not_defined "sleep") end)
          end
      | LostRace | Failed _ => ((db', w), Threw (not_defined "selectRes"))
      end
  end.
Proof.
  unfold checkAndInitiateJackpotSessions, attempts_due. cbv zeta. cbn [snd].
  destruct (isShuttingDownHelper w) eqn:F; [reflexivity|].
  destruct (Z.leb max _); [reflexivity|].
  destruct (Z.leb_spec (max - Z.of_nat (List.length (activeHelperSessions w))) 0);
    [reflexivity|].
  destruct (Z.to_nat (max - Z.of_nat (List.length (activeHelperSessions w))))
    as [|m] eqn:En; [lia|].
  rewrite claim_loop_unfold. cbv zeta. rewrite Nat.sub_diag, F.
  destruct (claim_attempt _ _ db) as [db' o]. destruct o as [r| | |e]; try reflexivity.
  unfold land. destruct (register r w) as [e|w1]; [reflexivity|].
  destruct m as [|m]; [reflexivity|].
  replace (Nat.ltb 1 (S (S m)) && Nat.ltb 0 (S (S m) - 1)) with true; [reflexivity|].
  symmetry. apply andb_true_iff. split; apply Nat.ltb_lt; lia.
Qed.

Lemma map_set_fresh_length k v m :
  ~ In k (map fst m) -> List.length (map_set k v m) = S (List.length m).
Proof. intros H. rewrite map_set_fresh by exact H. rewrite length_app. simpl. lia. Qed.

Lemma map_set_last k v m :
  ~ In k (map fst m) -> map_set k v (m ++ [(k, v)]) = m ++ [(k, v)].
Proof.
  induction m as [|[k' v'] m IH]; simpl; intros H.
  - now rewrite Z.eqb_refl.
  - destruct (Z.eqb_spec k' k); [tauto|]. f_equal. apply IH. tauto.
Qed.

Lemma land_adds r w lamports parsed :
  parse_rolls (initial_rolls_json r) = inr parsed ->
  js_BigInt (jackpot_pool_at_session_start r) = Some lamports ->
  is_active r = true ->
  ~ In (session_id r) (map fst (activeHelperSessions w)) ->
  exists w',
    land r w = inr w' /\
    activeHelperSessions w' = activeHelperSessions w ++ [(session_id r, List.length (heap w))] /\
    timers w' = timers w ++ [(next_timer w, session_id r)].
Proof.
  intros Hp B A Hfresh. unfold land.
  destruct (register r w) as [e|w1] eqn:R.
  { unfold register in R. rewrite Hp in R. discriminate. }
  destruct (register_new_object r w w1 R) as (p0 & _ & G & _ & Hm & _).
  destruct (opening_prompt_sent r w w1 lamports parsed R Hp B A) as (_ & T & _).
  exists (opening_prompt r w1). split; [reflexivity|]. split; [|exact T].
  rewrite map_set_fresh in Hm by exact Hfresh.
  unfold opening_prompt, sendJackpotRunUpdate. rewrite G. cbn [turnTimeoutId sd_row].
  rewrite B, A. cbn [fst activeHelperSessions with_sessions with_sends emit set_object
                     with_heap setTimeout snd with_timers].
  rewrite Hm. now apply map_set_last.
Qed.

(** X27. The limit is only consulted when a tick starts.  A tick reads the
    live table once, before its first store call; the claim it comes back
    with is stored and prompted whatever the table holds by then.  So when
    ticks overlap (a tick still waiting for the store when the next one
    starts), each of them is due an attempt as long as the table is below
    the limit at its start, and the claims of any number of them all land:
    [k] sessions claimed this way take the live table [k] entries further,
    each with its own timer, with no regard to the limit. *)
Theorem landing_ignores_limit (max : Z) (claimed : list row) (w : worker) :
  isShuttingDownHelper w = false ->
  Z.of_nat (List.length (activeHelperSessions w)) < max ->
  NoDup (map session_id claimed) ->
  (forall r, In r claimed ->
     ~ In (session_id r) (map fst (activeHelperSessions w)) /\
     is_active r = true /\
     (exists parsed, parse_rolls (initial_rolls_json r) = inr parsed) /\
     (exists lamports, js_BigInt (jackpot_pool_at_session_start r) = Some lamports)) ->
  (0 < attempts_due max w)%nat /\
  exists w',
    land_all claimed w = inr w' /\
    map fst (activeHelperSessions w')
    = map fst (activeHelperSessions w) ++ map session_id claimed /\
    List.length (timers w') = (List.length (timers w) + List.length claimed)%nat.
Proof.
  intros F Hlt Hnd Hall. split.
  { unfold attempts_due. rewrite F. cbv zeta.
    destruct (Z.leb_spec max (Z.of_nat (List.length (activeHelperSessions w)))); [lia|].
    destruct (Z.leb_spec (max - Z.of_nat (List.length (activeHelperSessions w))) 0); lia. }
  clear F Hlt. revert w Hall.
  induction claimed as [|r rest IH]; intros w Hall.
  - exists w. simpl. rewrite !app_nil_r. repeat split; auto.
  - simpl in Hnd. inversion Hnd as [|? ? Hni Hnd']; subst.
    destruct (Hall r (or_introl eq_refl)) as (Hfresh & A & (parsed & Hp) & (lamports & B)).
    destruct (land_adds r w lamports parsed Hp B A Hfresh) as (w1 & L & M & T).
    destruct (IH Hnd' w1) as (w' & L' & M' & T').
    { intros x Hx. destruct (Hall x (or_intror Hx)) as (Hx1 & Hx2 & Hx3 & Hx4).
      repeat split; auto. rewrite M, map_app. simpl. intros Hin.
      apply in_app_or in Hin. destruct Hin as [Hin|[E|[]]]; [contradiction|].
      apply Hni. rewrite E. now apply in_map. }
    exists w'. cbn [land_all]. rewrite L. split; [exact L'|]. split.
    + rewrite M', M, map_app. simpl. now rewrite <- app_assoc.
    + rewrite T', T, length_app. simpl. lia.
Qed.

Lemma landing_ignores_limit_witness :
  exists w',
    land_all [claim_set demo_bot 20 (demo_row 1 10 (JNum 7) (JNum 100));
              claim_set demo_bot 21 (demo_row 2 11 (JNum 5) (JNum 100))]
             (fresh_worker demo_bot) = inr w' /\
    map fst (activeHelperSessions w') = [1; 2] /\
    (0 < attempts_due 1 (fresh_worker demo_bot))%nat.
Proof.
  destruct (landing_ignores_limit 1
              [claim_set demo_bot 20 (demo_row 1 10 (JNum 7) (JNum 100));
               claim_set demo_bot 21 (demo_row 2 11 (JNum 5) (JNum 100))]
              (fresh_worker demo_bot) eq_refl ltac:(simpl; lia)
              ltac:(simpl; repeat constructor; simpl; intuition discriminate))
    as (D & w' & L & M & _).
  - intros r [<-|[<-|[]]]; (split; [simpl; tauto|]); (split; [reflexivity|]);
      (split; [exists [3; 2]|exists 5000000000]); reflexivity.
  - exists w'. split; [exact L|]. split; [exact M|exact D].
Defined.
